(** * Kintsu memory pipeline: a shallow embedding of [convex/memories.ts]

    The Convex functions of the memory pipeline ([queueForProcessing],
    [processQueue], [extractAndStoreMemories], [search], [addInternal],
    [invalidateInternal], ...) are embedded as functions over an explicit
    world: the database tables, the clock, an id supply and a trace of the
    effects performed.  The external collaborators (embedding model, vector
    index, structured-output LLM) are oracles that may throw. *)

From Stdlib Require Import ZArith QArith String Ascii List Bool Lia.
From stdpp Require Import base option list gmap strings pretty.

(** ** JavaScript helpers *)

Module JS.

(** Truthiness of an optional string: [undefined] and the empty string
    are falsy. *)
Definition truthy_str (o : option string) : bool :=
  match o with
  | Some s => negb (String.eqb s EmptyString)
  | None => false
  end.

(** Truthiness of an optional number: [undefined] and [0] are falsy. *)
Definition truthy_num (o : option Z) : bool :=
  match o with
  | Some n => negb (Z.eqb n 0)
  | None => false
  end.

(** [a || b] on an optional string with a string default. *)
Definition or_str (o : option string) (d : string) : string :=
  match o with
  | Some s => if String.eqb s EmptyString then d else s
  | None => d
  end.

Definition upper_ascii (c : ascii) : ascii :=
  let n := nat_of_ascii c in
  if (97 <=? n)%nat && (n <=? 122)%nat then ascii_of_nat (n - 32) else c.

Definition lower_ascii (c : ascii) : ascii :=
  let n := nat_of_ascii c in
  if (65 <=? n)%nat && (n <=? 90)%nat then ascii_of_nat (n + 32) else c.

Fixpoint map_string (f : ascii -> ascii) (s : string) : string :=
  match s with
  | EmptyString => EmptyString
  | String c s' => String (f c) (map_string f s')
  end.

(** [String.prototype.toUpperCase] and [toLowerCase], on ASCII text. *)
Definition toUpperCase : string -> string := map_string upper_ascii.
Definition toLowerCase : string -> string := map_string lower_ascii.

(** White space removed by [String.prototype.trim] (ASCII part). *)
Definition is_space (c : ascii) : bool :=
  let n := nat_of_ascii c in
  ((9 <=? n)%nat && (n <=? 13)%nat) || (n =? 32)%nat.

Fixpoint trimStart (s : string) : string :=
  match s with
  | EmptyString => EmptyString
  | String c s' => if is_space c then trimStart s' else s
  end.

Definition rev_string (s : string) : string :=
  string_of_list_ascii (List.rev (list_ascii_of_string s)).

Definition trim (s : string) : string :=
  rev_string (trimStart (rev_string (trimStart s))).

(** [Array.prototype.join]. *)
Definition join (sep : string) (l : list string) : string :=
  String.concat sep l.

(** [arr[i]] for a number [i]: [undefined] outside [0 .. length-1]. *)
Definition index {A} (l : list A) (i : Z) : option A :=
  if (i <? 0)%Z then None else l !! Z.to_nat i.

(** [Array.prototype.includes] on strings. *)
Definition includes (l : list string) (s : string) : bool :=
  existsb (String.eqb s) l.

End JS.

(** ** Data model (schema.ts) *)

Definition Id := string.
Definition Vec := list Q.
Definition Score := Q.

Inductive MemoryType := episodic | semantic | procedural.

Inductive QueueStatus := pending | processing | completed | failed.

Definition QueueStatus_eqb (a b : QueueStatus) : bool :=
  match a, b with
  | pending, pending | processing, processing
  | completed, completed | failed, failed => true
  | _, _ => false
  end.

(** A document of the [memories] table. *)
Record Memory := {
  m_id : Id;
  m_userId : Id;
  m_content : string;
  m_embedding : Vec;
  m_type : MemoryType;
  m_keywords : option (list string);
  m_contentHash : option string;
  m_validAt : option Z;
  m_invalidAt : option Z;
  m_sourceConversationId : option Id;
  m_createdAt : Z
}.

(** A document of the [messages] table. *)
Record Message := {
  msg_id : Id;
  msg_conversationId : Id;
  msg_role : string;
  msg_content : string;
  msg_createdAt : Z
}.

(** A document of the [coreMemoryBlocks] table. *)
Record CoreMemoryBlock := {
  cb_id : Id;
  cb_userId : Id;
  cb_label : string;
  cb_content : string;
  cb_updatedAt : Z
}.

(** A document of the [memoryQueue] table. *)
Record QueueItem := {
  q_id : Id;
  q_userId : Id;
  q_conversationId : Id;
  q_status : QueueStatus;
  q_createdAt : Z;
  q_processedAt : option Z
}.

(** ** Structured LLM output (the zod schemas) *)

(** What the model sends back before validation: enum fields are still
    plain strings. *)
Record RawMemory := {
  rm_content : string;
  rm_type : string;
  rm_keywords : list string
}.

Record CoreMemoryUpdate := {
  cu_label : string;
  cu_content : string
}.

Record RawExtraction := {
  raw_memories : list RawMemory;
  raw_core_memory_updates : list CoreMemoryUpdate
}.

(** [ExtractedMemory] *)
Record ExtractedMemory := {
  em_content : string;
  em_type : MemoryType;
  em_keywords : list string
}.

Record Extraction := {
  memories : list ExtractedMemory;
  core_memory_updates : list CoreMemoryUpdate
}.

Inductive DecisionAction := ADD | UPDATE | INVALIDATE | NOOP.

Record RawDecision := {
  rd_new_memory_index : Z;
  rd_action : string;
  rd_content : option string;
  rd_target_memory_id : option string;
  rd_reason : string
}.

(** [MemoryDecision].  The index is a JavaScript number; it is kept as an
    integer here, a fractional index finding no entry just like an integer
    outside the batch. *)
Record MemoryDecision := {
  new_memory_index : Z;
  action : DecisionAction;
  content : option string;
  target_memory_id : option string;
  reason : string
}.

Definition parse_type (s : string) : option MemoryType :=
  if String.eqb s "episodic" then Some episodic
  else if String.eqb s "semantic" then Some semantic
  else if String.eqb s "procedural" then Some procedural
  else None.

Definition label_enum : list string :=
  ["user_profile"; "partner_info"; "relationship_context"; "preferences"]%string.

Definition parse_action (s : string) : option DecisionAction :=
  if String.eqb s "ADD" then Some ADD
  else if String.eqb s "UPDATE" then Some UPDATE
  else if String.eqb s "INVALIDATE" then Some INVALIDATE
  else if String.eqb s "NOOP" then Some NOOP
  else None.

Definition parse_memory (r : RawMemory) : option ExtractedMemory :=
  t ← parse_type (rm_type r);
  Some {| em_content := rm_content r; em_type := t;
          em_keywords := rm_keywords r |}.

Definition parse_core_update (u : CoreMemoryUpdate) : option CoreMemoryUpdate :=
  if JS.includes label_enum (cu_label u) then Some u else None.

(** [extractionSchema]: every memory has a known [type] and every core
    update a known [label]; one bad entry fails the whole object. *)
Definition extractionSchema (r : RawExtraction) : option Extraction :=
  ms ← mapM parse_memory (raw_memories r);
  us ← mapM parse_core_update (raw_core_memory_updates r);
  Some {| memories := ms; core_memory_updates := us |}.

Definition parse_decision (r : RawDecision) : option MemoryDecision :=
  a ← parse_action (rd_action r);
  Some {| new_memory_index := rd_new_memory_index r; action := a;
          content := rd_content r;
          target_memory_id := rd_target_memory_id r;
          reason := rd_reason r |}.

(** [decisionSchema] *)
Definition decisionSchema (r : list RawDecision) : option (list MemoryDecision) :=
  mapM parse_decision r.

(** ** The world: tables, clock, id supply and effect trace *)

Record ExtractionPrompt := {
  coreMemoryText : string;
  conversationText : string
}.

(** An entry of [existingByID] / [uniqueExisting]. *)
Record ExistingMemory := {
  ex_id : Id;
  ex_content : string;
  ex_type : MemoryType;
  ex_similarity : Score
}.

Record DecisionPrompt := {
  newMemoriesForPrompt : list (nat * string * MemoryType);
  uniqueExistingForPrompt : list ExistingMemory
}.

(** Effects on the store and calls to the collaborators, in the order they
    happen. *)
Inductive Event :=
| EvEmbed (text : string)
| EvVectorSearch (userId : Id) (limit : nat)
| EvGenerateExtraction (p : ExtractionPrompt)
| EvGenerateDecision (p : DecisionPrompt)
| EvInsertMemory (m : Memory)
| EvPatchMemory (id : Id) (invalidAt : Z)
| EvPatchCoreMemory (id : Id) (content : string) (updatedAt : Z)
| EvInsertQueue (q : QueueItem)
| EvPatchQueue (id : Id) (status : QueueStatus) (processedAt : option Z)
| EvSchedule (delay : Z) (job : string).

(** Writes to the [memories] table. *)
Definition is_memory_write (e : Event) : bool :=
  match e with
  | EvInsertMemory _ | EvPatchMemory _ _ => true
  | _ => false
  end.

(** Any write to the store. *)
Definition is_store_write (e : Event) : bool :=
  match e with
  | EvInsertMemory _ | EvPatchMemory _ _ | EvPatchCoreMemory _ _ _
  | EvInsertQueue _ | EvPatchQueue _ _ _ => true
  | _ => false
  end.

Record World := {
  tbl_memories : list Memory;
  tbl_memoryQueue : list QueueItem;
  tbl_coreMemoryBlocks : list CoreMemoryBlock;
  tbl_messages : list Message;
  clock : Z;
  next_id : N;
  trace : list Event
}.

Definition with_memories (f : list Memory -> list Memory) (w : World) : World :=
  {| tbl_memories := f (tbl_memories w);
     tbl_memoryQueue := tbl_memoryQueue w;
     tbl_coreMemoryBlocks := tbl_coreMemoryBlocks w;
     tbl_messages := tbl_messages w;
     clock := clock w; next_id := next_id w; trace := trace w |}.

Definition with_memoryQueue (f : list QueueItem -> list QueueItem) (w : World) : World :=
  {| tbl_memories := tbl_memories w;
     tbl_memoryQueue := f (tbl_memoryQueue w);
     tbl_coreMemoryBlocks := tbl_coreMemoryBlocks w;
     tbl_messages := tbl_messages w;
     clock := clock w; next_id := next_id w; trace := trace w |}.

Definition with_coreMemoryBlocks
    (f : list CoreMemoryBlock -> list CoreMemoryBlock) (w : World) : World :=
  {| tbl_memories := tbl_memories w;
     tbl_memoryQueue := tbl_memoryQueue w;
     tbl_coreMemoryBlocks := f (tbl_coreMemoryBlocks w);
     tbl_messages := tbl_messages w;
     clock := clock w; next_id := next_id w; trace := trace w |}.

Definition with_next_id (n : N) (w : World) : World :=
  {| tbl_memories := tbl_memories w;
     tbl_memoryQueue := tbl_memoryQueue w;
     tbl_coreMemoryBlocks := tbl_coreMemoryBlocks w;
     tbl_messages := tbl_messages w;
     clock := clock w; next_id := n; trace := trace w |}.

(** Append one event to the trace. *)
Definition log (e : Event) (w : World) : World :=
  {| tbl_memories := tbl_memories w;
     tbl_memoryQueue := tbl_memoryQueue w;
     tbl_coreMemoryBlocks := tbl_coreMemoryBlocks w;
     tbl_messages := tbl_messages w;
     clock := clock w; next_id := next_id w; trace := trace w ++ [e] |}.

(** The collaborators.  Each answer may depend on everything that happened
    so far; [None] is a thrown exception. *)
Record Env := {
  embedding_model : World -> string -> option Vec;
  vector_index : World -> Vec -> nat -> Id -> option (list (Id * Score));
  llm_extraction : World -> ExtractionPrompt -> option RawExtraction;
  llm_decision : World -> DecisionPrompt -> option (list RawDecision)
}.

(** ** Computations of an action: state, and exceptions that keep the
    writes already made *)

Inductive Result (A : Type) :=
| Ok (a : A)
| Throw.
Arguments Ok {A} a.
Arguments Throw {A}.

Definition Action (A : Type) : Type := World -> Result A * World.

Definition ret {A} (a : A) : Action A := fun w => (Ok a, w).

Definition throw {A} : Action A := fun w => (Throw, w).

Definition bind {A B} (m : Action A) (k : A -> Action B) : Action B :=
  fun w =>
    match m w with
    | (Ok a, w') => k a w'
    | (Throw, w') => (Throw, w')
    end.

(** [try { m } catch (error) { h }] *)
Definition try_catch {A} (m : Action A) (h : Action A) : Action A :=
  fun w =>
    match m w with
    | (Ok a, w') => (Ok a, w')
    | (Throw, w') => h w'
    end.

Declare Scope action_scope.
Delimit Scope action_scope with action.
Notation "x <- m ;; k" := (bind m (fun x => k))
  (at level 100, m at next level, right associativity) : action_scope.
Notation "m ;;; k" := (bind m (fun _ => k))
  (at level 100, right associativity) : action_scope.
Local Open Scope action_scope.

Definition get_world : Action World := fun w => (Ok w, w).
Definition modify (f : World -> World) : Action unit := fun w => (Ok tt, f w).
Definition emit (e : Event) : Action unit := modify (log e).

(** [for (const x of xs) { body }] *)
Fixpoint for_of {A} (xs : list A) (body : A -> Action unit) : Action unit :=
  match xs with
  | [] => ret tt
  | x :: xs' => body x ;;; for_of xs' body
  end.

(** [Date.now()] *)
Definition Date_now : Action Z := fun w => (Ok (clock w), w).

(** A fresh document id from the supply. *)
Definition new_id : Action Id :=
  fun w => (Ok (pretty (next_id w)), with_next_id (N.succ (next_id w)) w).

(** ** Database primitives *)

(** [ctx.db.get(id)] on [memories]. *)
Definition db_get (id : Id) (tbl : list Memory) : option Memory :=
  List.find (fun m => String.eqb (m_id m) id) tbl.

Definition set_invalidAt (t : Z) (m : Memory) : Memory :=
  {| m_id := m_id m; m_userId := m_userId m; m_content := m_content m;
     m_embedding := m_embedding m; m_type := m_type m;
     m_keywords := m_keywords m; m_contentHash := m_contentHash m;
     m_validAt := m_validAt m; m_invalidAt := Some t;
     m_sourceConversationId := m_sourceConversationId m;
     m_createdAt := m_createdAt m |}.

(** The table after [ctx.db.patch(id, { invalidAt: t })]: the document
    whose key is [id] gets the field, nothing else changes. *)
Definition patch_invalidAt (id : Id) (t : Z) (tbl : list Memory) : list Memory :=
  List.map (fun m => if String.eqb (m_id m) id then set_invalidAt t m else m) tbl.

(** [ctx.db.patch] throws when no document has the id. *)
Definition db_patch_invalidAt (id : Id) (t : Z) : Action unit :=
  w <- get_world ;;
  match db_get id (tbl_memories w) with
  | None => throw
  | Some _ =>
      modify (with_memories (patch_invalidAt id t)) ;;;
      emit (EvPatchMemory id t)
  end.

(** [ctx.db.insert("memories", doc)] *)
Definition db_insert_memory (mk : Id -> Memory) : Action Id :=
  id <- new_id ;;
  modify (with_memories (fun tbl => tbl ++ [mk id])) ;;;
  emit (EvInsertMemory (mk id)) ;;;
  ret id.

(** ** memories.ts *)

(** An element of [memoriesWithContext.similar]. *)
Record Similar := {
  s_id : Id;
  s_content : string;
  s_type : MemoryType;
  s_score : Score
}.

(** An element of [memoriesWithContext]. *)
Record MemoryWithContext := {
  memory : ExtractedMemory;
  embedding : Vec;
  similar : list Similar
}.

Definition nl : string := String (ascii_of_nat 10) EmptyString.

Definition validLabels : list string :=
  ["user_profile"; "partner_info"; "relationship_context"; "preferences"]%string.

(** The document written by [add] and [addInternal]. *)
Definition new_memory (userId : Id) (content : string) (embedding : Vec)
    (type : MemoryType) (keywords : option (list string))
    (sourceConversationId : option Id) (now : Z) (id : Id) : Memory :=
  {| m_id := id; m_userId := userId; m_content := content;
     m_embedding := embedding; m_type := type; m_keywords := keywords;
     m_contentHash := None; m_validAt := Some now; m_invalidAt := None;
     m_sourceConversationId := sourceConversationId; m_createdAt := now |}.

(** [existingByID[s._id] = { id, content, type, similarity }] *)
Definition existing_of (s : Similar) : ExistingMemory :=
  {| ex_id := s_id s; ex_content := s_content s; ex_type := s_type s;
     ex_similarity := s_score s |}.

(** The two nested loops that fill [existingByID]. *)
Definition existingByID (memoriesWithContext : list MemoryWithContext)
    : gmap Id ExistingMemory :=
  foldl (fun acc m =>
           foldl (fun acc' s => <[s_id s := existing_of s]> acc') acc (similar m))
        ∅ memoriesWithContext.

(** [Object.values(existingByID)] *)
Definition uniqueExisting (memoriesWithContext : list MemoryWithContext)
    : list ExistingMemory :=
  (map_to_list (existingByID memoriesWithContext)).*2.

(** The decision synthesised for candidate [i]. *)
Definition add_decision (why : string) (i : nat) (m : MemoryWithContext)
    : MemoryDecision :=
  {| new_memory_index := Z.of_nat i; action := ADD;
     content := Some (em_content (memory m));
     target_memory_id := None; reason := why |}.

(** [memoriesWithContext.map((m, i) => ...)]: the decisions synthesised
    when the LLM is not asked or fails. *)
Definition add_all (why : string) (memoriesWithContext : list MemoryWithContext)
    : list MemoryDecision :=
  imap (add_decision why) memoriesWithContext.

Section Memories.

Variable env : Env.

(** [generateEmbedding] *)
Definition generateEmbedding (text : string) : Action Vec :=
  emit (EvEmbed text) ;;;
  w <- get_world ;;
  match embedding_model env w text with
  | Some v => ret v
  | None => throw
  end.

(** [ctx.vectorSearch("memories", "by_embedding", ...)] *)
Definition vectorSearch (vector : Vec) (limit : nat) (userId : Id)
    : Action (list (Id * Score)) :=
  emit (EvVectorSearch userId limit) ;;;
  w <- get_world ;;
  match vector_index env w vector limit userId with
  | Some rs => ret rs
  | None => throw
  end.

(** [getById] *)
Definition getById (memoryId : Id) : Action (option Memory) :=
  w <- get_world ;;
  ret (db_get memoryId (tbl_memories w)).

(** [addInternal] *)
Definition addInternal (userId : Id) (content : string) (embedding : Vec)
    (type : MemoryType) (keywords : option (list string))
    (sourceConversationId : option Id) : Action Id :=
  now <- Date_now ;;
  db_insert_memory
    (new_memory userId content embedding type keywords sourceConversationId now).

(** [add] *)
Definition add := addInternal.

(** [invalidateInternal] *)
Definition invalidateInternal (memoryId : Id) : Action unit :=
  now <- Date_now ;;
  db_patch_invalidAt memoryId now.

(** [invalidate] *)
Definition invalidate := invalidateInternal.

(** The loop of [search] that fetches each hit and keeps the ones that
    are not invalidated. *)
Fixpoint search_loop (results : list (Id * Score))
    (validMemories : list (Memory * Score)) : Action (list (Memory * Score)) :=
  match results with
  | [] => ret validMemories
  | (_id, _score) :: rest =>
      memory <- getById _id ;;
      match memory with
      | Some memory =>
          if negb (JS.truthy_num (m_invalidAt memory))
          then search_loop rest (validMemories ++ [(memory, _score)])
          else search_loop rest validMemories
      | None => search_loop rest validMemories
      end
  end.

(** [search] *)
Definition search (userId : Id) (embedding : Vec) (limit : option nat)
    : Action (list (Memory * Score)) :=
  let limit := default 10%nat limit in
  results <- vectorSearch embedding limit userId ;;
  search_loop results [].

(** [listValid] *)
Definition listValid (userId : Id) : Action (list Memory) :=
  w <- get_world ;;
  ret (List.filter
         (fun m => String.eqb (m_userId m) userId &&
                   match m_invalidAt m with None => true | Some _ => false end)
         (tbl_memories w)).

(** [getCoreMemoryBlocks] *)
Definition getCoreMemoryBlocks (userId : Id) : Action (list CoreMemoryBlock) :=
  w <- get_world ;;
  ret (List.filter (fun b => String.eqb (cb_userId b) userId)
         (tbl_coreMemoryBlocks w)).

Definition set_core_content (c : string) (t : Z) (b : CoreMemoryBlock)
    : CoreMemoryBlock :=
  {| cb_id := cb_id b; cb_userId := cb_userId b; cb_label := cb_label b;
     cb_content := c; cb_updatedAt := t |}.

(** [updateCoreMemoryInternal] *)
Definition updateCoreMemoryInternal (userId : Id) (label content : string)
    : Action unit :=
  w <- get_world ;;
  let existing :=
    List.find (fun b => String.eqb (cb_userId b) userId &&
                        String.eqb (cb_label b) label)
              (tbl_coreMemoryBlocks w) in
  match existing with
  | Some existing =>
      now <- Date_now ;;
      modify (with_coreMemoryBlocks
                (List.map (fun b => if String.eqb (cb_id b) (cb_id existing)
                                    then set_core_content content now b
                                    else b))) ;;;
      emit (EvPatchCoreMemory (cb_id existing) content now)
  | None => ret tt
  end.

End Memories.

(** ** extractAndStoreMemories *)

Section ExtractAndStore.

Variable env : Env.
Variables (userId conversationId : Id).

(** Step 1: the core memory blocks rendered as text. *)
Definition render_coreMemory (coreMemory : list CoreMemoryBlock) : string :=
  JS.join nl
    (List.map (fun block =>
                 "[" +:+ cb_label block +:+ "]: " +:+
                 JS.or_str (Some (cb_content block)) "(empty)")
              coreMemory).

(** Step 2: the conversation rendered as text. *)
Definition render_conversation (messages : list (string * string)) : string :=
  JS.join (nl +:+ nl)
    (List.map (fun m => JS.toUpperCase m.1 +:+ ": " +:+ m.2) messages).

(** Step 3: [generateObject] with [extractionSchema]; throws when the
    call fails or the object does not match the schema. *)
Definition generate_extraction (p : ExtractionPrompt) : Action Extraction :=
  emit (EvGenerateExtraction p) ;;;
  w <- get_world ;;
  match llm_extraction env w p with
  | Some raw =>
      match extractionSchema raw with
      | Some object => ret object
      | None => throw
      end
  | None => throw
  end.

(** Step 4: the loop over [core_memory_updates]. *)
Definition apply_core_updates (updates : list CoreMemoryUpdate) : Action unit :=
  for_of updates (fun update =>
    if JS.includes validLabels (cu_label update)
    then updateCoreMemoryInternal userId (cu_label update) (cu_content update)
    else ret tt).

(** Step 5, inner loop: fetch each hit and keep the active ones. *)
Fixpoint similar_loop (searchResults : list (Id * Score)) (similar : list Similar)
    : Action (list Similar) :=
  match searchResults with
  | [] => ret similar
  | (_id, _score) :: rest =>
      full <- getById _id ;;
      match full with
      | Some full =>
          if negb (JS.truthy_num (m_invalidAt full))
          then similar_loop rest
                 (similar ++ [{| s_id := m_id full; s_content := m_content full;
                                 s_type := m_type full; s_score := _score |}])
          else similar_loop rest similar
      | None => similar_loop rest similar
      end
  end.

(** Step 5, the body of the [try] for one extracted memory. *)
Definition with_context (memory : ExtractedMemory) : Action MemoryWithContext :=
  embedding <- generateEmbedding env (em_content memory) ;;
  searchResults <- vectorSearch env embedding 5 userId ;;
  similar <- similar_loop searchResults [] ;;
  ret {| memory := memory; embedding := embedding; similar := similar |}.

(** Step 5: a memory whose embedding or search throws is logged and left
    out of [memoriesWithContext]. *)
Fixpoint gather_context (memories : list ExtractedMemory)
    (memoriesWithContext : list MemoryWithContext)
    : Action (list MemoryWithContext) :=
  match memories with
  | [] => ret memoriesWithContext
  | memory :: rest =>
      r <- try_catch (c <- with_context memory ;; ret (Some c)) (ret None) ;;
      match r with
      | Some c => gather_context rest (memoriesWithContext ++ [c])
      | None => gather_context rest memoriesWithContext
      end
  end.

(** Step 6: [generateObject] with [decisionSchema]. *)
Definition generate_decisions (p : DecisionPrompt) : Action (list MemoryDecision) :=
  emit (EvGenerateDecision p) ;;;
  w <- get_world ;;
  match llm_decision env w p with
  | Some raw =>
      match decisionSchema raw with
      | Some decisions => ret decisions
      | None => throw
      end
  | None => throw
  end.

(** Step 6: decide, locally when nothing similar exists. *)
Definition decide_operations (memoriesWithContext : list MemoryWithContext)
    : Action (list MemoryDecision) :=
  let newMemoriesForPrompt :=
    imap (fun i m => (i, em_content (memory m), em_type (memory m)))
         memoriesWithContext in
  let uniqueExisting := uniqueExisting memoriesWithContext in
  if (length uniqueExisting =? 0)%nat
  then ret (add_all "No similar existing memories found" memoriesWithContext)
  else
    try_catch
      (generate_decisions
         {| newMemoriesForPrompt := newMemoriesForPrompt;
            uniqueExistingForPrompt := uniqueExisting |})
      (ret (add_all "Decision LLM call failed, defaulting to ADD"
              memoriesWithContext)).

(** Step 7: the [switch] on the action of one decision. *)
Definition execute_action (decision : MemoryDecision) (entry : MemoryWithContext)
    : Action unit :=
  match action decision with
  | ADD =>
      let content := JS.or_str (content decision) (em_content (memory entry)) in
      embedding <-
        (if negb (String.eqb content (em_content (memory entry)))
         then generateEmbedding env content
         else ret (embedding entry)) ;;
      addInternal userId content embedding (em_type (memory entry))
        (Some (em_keywords (memory entry))) (Some conversationId) ;;;
      ret tt
  | UPDATE =>
      if JS.truthy_str (target_memory_id decision) &&
         JS.truthy_str (content decision)
      then
        invalidateInternal (default EmptyString (target_memory_id decision)) ;;;
        embedding <- generateEmbedding env (default EmptyString (content decision)) ;;
        addInternal userId (default EmptyString (content decision)) embedding
          (em_type (memory entry)) (Some (em_keywords (memory entry)))
          (Some conversationId) ;;;
        ret tt
      else ret tt
  | INVALIDATE =>
      if JS.truthy_str (target_memory_id decision)
      then invalidateInternal (default EmptyString (target_memory_id decision))
      else ret tt
  | NOOP => ret tt
  end.

(** Step 7: one iteration of the loop over the decisions. *)
Definition execute_decision (memoriesWithContext : list MemoryWithContext)
    (decision : MemoryDecision) : Action unit :=
  match JS.index memoriesWithContext (new_memory_index decision) with
  | None => ret tt
  | Some entry => try_catch (execute_action decision entry) (ret tt)
  end.

Definition execute_decisions (memoriesWithContext : list MemoryWithContext)
    (decisions : list MemoryDecision) : Action unit :=
  for_of decisions (execute_decision memoriesWithContext).

(** Steps 6 and 7 on the memories that got their context. *)
Definition decide_and_execute (memoriesWithContext : list MemoryWithContext)
    : Action unit :=
  decisions <- decide_operations memoriesWithContext ;;
  execute_decisions memoriesWithContext decisions.

(** Steps 5 to 7, entered when the extraction has memories. *)
Definition reconcile (memories : list ExtractedMemory) : Action unit :=
  memoriesWithContext <- gather_context memories [] ;;
  if (length memoriesWithContext =? 0)%nat then ret tt
  else decide_and_execute memoriesWithContext.

(** The handler of [extractAndStoreMemories]. *)
Definition extractAndStoreMemories (messages : list (string * string))
    : Action unit :=
  coreMemory <- getCoreMemoryBlocks userId ;;
  let coreMemoryText := render_coreMemory coreMemory in
  let conversationText := render_conversation messages in
  extraction <-
    try_catch
      (object <- generate_extraction
                   {| coreMemoryText := coreMemoryText;
                      conversationText := conversationText |} ;;
       ret (Some object))
      (ret None) ;;
  match extraction with
  | None => ret tt
  | Some extraction =>
      let hasMemories := (0 <? length (memories extraction))%nat in
      let hasCoreUpdates := (0 <? length (core_memory_updates extraction))%nat in
      if negb hasMemories && negb hasCoreUpdates then ret tt
      else
        apply_core_updates (core_memory_updates extraction) ;;;
        if negb hasMemories then ret tt
        else reconcile (memories extraction)
  end.

End ExtractAndStore.

(** ** The processing queue *)

Definition is_pending_for (conversationId : Id) (q : QueueItem) : bool :=
  QueueStatus_eqb (q_status q) pending &&
  String.eqb (q_conversationId q) conversationId.

Definition set_status (s : QueueStatus) (p : option Z) (q : QueueItem) : QueueItem :=
  {| q_id := q_id q; q_userId := q_userId q;
     q_conversationId := q_conversationId q; q_status := s;
     q_createdAt := q_createdAt q;
     q_processedAt := match p with Some t => Some t | None => q_processedAt q end |}.

(** [ctx.db.patch(queueId, { status, processedAt? })]; throws when the
    item does not exist. *)
Definition db_patch_queue (queueId : Id) (s : QueueStatus) (p : option Z)
    : Action unit :=
  w <- get_world ;;
  match List.find (fun q => String.eqb (q_id q) queueId) (tbl_memoryQueue w) with
  | None => throw
  | Some _ =>
      modify (with_memoryQueue
                (List.map (fun q => if String.eqb (q_id q) queueId
                                    then set_status s p q else q))) ;;;
      emit (EvPatchQueue queueId s p)
  end.

(** [queueForProcessing] *)
Definition queueForProcessing (userId conversationId : Id) : Action unit :=
  w <- get_world ;;
  let existing := List.find (is_pending_for conversationId) (tbl_memoryQueue w) in
  match existing with
  | None =>
      id <- new_id ;;
      now <- Date_now ;;
      let item := {| q_id := id; q_userId := userId;
                     q_conversationId := conversationId; q_status := pending;
                     q_createdAt := now; q_processedAt := None |} in
      modify (with_memoryQueue (fun tbl => tbl ++ [item])) ;;;
      emit (EvInsertQueue item) ;;;
      emit (EvSchedule 5000 "memories.processQueue")
  | Some _ => ret tt
  end.

(** [getPendingQueue] *)
Definition getPendingQueue : Action (list QueueItem) :=
  w <- get_world ;;
  ret (take 10 (List.filter (fun q => QueueStatus_eqb (q_status q) pending)
                  (tbl_memoryQueue w))).

(** [getConversationMessages] *)
Definition getConversationMessages (conversationId : Id) : Action (list Message) :=
  w <- get_world ;;
  ret (List.filter (fun m => String.eqb (msg_conversationId m) conversationId)
         (tbl_messages w)).

(** [markProcessing] *)
Definition markProcessing (queueId : Id) : Action unit :=
  db_patch_queue queueId processing None.

(** [markCompleted] *)
Definition markCompleted (queueId : Id) : Action unit :=
  now <- Date_now ;;
  db_patch_queue queueId completed (Some now).

(** [markFailed] *)
Definition markFailed (queueId : Id) : Action unit :=
  db_patch_queue queueId failed None.

(** [processQueue] *)
Definition processQueue (env : Env) : Action unit :=
  pending <- getPendingQueue ;;
  for_of pending (fun item =>
    try_catch
      (markProcessing (q_id item) ;;;
       messages <- getConversationMessages (q_conversationId item) ;;
       (if (0 <? length messages)%nat
        then extractAndStoreMemories env (q_userId item) (q_conversationId item)
               (List.map (fun m => (msg_role m, msg_content m)) messages)
        else ret tt) ;;;
       markCompleted (q_id item))
      (markFailed (q_id item))).

(** ** addFromTool *)

Inductive AddFromToolResult :=
| Saved (memoryId : Id)
| Duplicate (reason : string).

Section AddFromTool.

Variable env : Env.

(** [String.prototype.trim] and [String.prototype.toLowerCase] of the
    runtime, on any text: they also strip Unicode white space and lower-case
    letters outside ASCII, which [JS.trim] and [JS.toLowerCase] do not. *)
Variable String_trim : string -> string.
Variable String_toLowerCase : string -> string.

(** The digest used by [computeContentHash]: SHA-256 of the encoded text, in
    hexadecimal. *)
Variable sha256_hex : string -> string.

(** [computeContentHash]: the digest of [content.trim().toLowerCase()]. *)
Definition computeContentHash (content : string) : string :=
  sha256_hex (String_toLowerCase (String_trim content)).

Definition with_contentHash (h : string) (m : Memory) : Memory :=
  {| m_id := m_id m; m_userId := m_userId m; m_content := m_content m;
     m_embedding := m_embedding m; m_type := m_type m;
     m_keywords := m_keywords m; m_contentHash := Some h;
     m_validAt := m_validAt m; m_invalidAt := m_invalidAt m;
     m_sourceConversationId := m_sourceConversationId m;
     m_createdAt := m_createdAt m |}.

(** An active fact of this owner with this content hash. *)
Definition active_with_hash (userId : Id) (h : string) (m : Memory) : bool :=
  String.eqb (m_userId m) userId &&
  match m_contentHash m with Some h' => String.eqb h' h | None => false end &&
  match m_invalidAt m with None => true | Some _ => false end.

(** Modelled from the spec: the action [addFromTool] of memories.ts, which
    the tool [saveMemory] calls and which is not part of the sources at
    hand.  It is the direct single-fact insert path: the content-hash fast
    path comes first and reports a duplicate when an active fact of the
    owner has the same normalized hash; otherwise an embedding is computed
    and one new active fact is inserted. *)
Definition addFromTool (userId : Id) (content : string) (type : MemoryType)
    (keywords : option (list string)) : Action AddFromToolResult :=
  let contentHash := computeContentHash content in
  w <- get_world ;;
  match List.find (active_with_hash userId contentHash) (tbl_memories w) with
  | Some _ => ret (Duplicate "Duplicate memory: identical content already saved")
  | None =>
      embedding <- generateEmbedding env content ;;
      now <- Date_now ;;
      memoryId <- db_insert_memory
                    (fun id => with_contentHash contentHash
                                 (new_memory userId content embedding type
                                    keywords None now id)) ;;
      ret (Saved memoryId)
  end.

End AddFromTool.


(** ** Vocabulary of the statements *)

(** Number of pending queue items of a conversation. *)
Definition count_pending (conversationId : Id) (w : World) : nat :=
  length (List.filter (is_pending_for conversationId) (tbl_memoryQueue w)).

(** The world reached by an action, whatever its outcome. *)
Definition after {A} (m : Action A) (w : World) : World := (m w).2.

(** The last element with identifier [k] in a list of similar facts. *)
Fixpoint last_occ (k : Id) (l : list Similar) : option Similar :=
  match l with
  | [] => None
  | s :: l' =>
      match last_occ k l' with
      | Some s' => Some s'
      | None => if String.eqb (s_id s) k then Some s else None
      end
  end.

(** One assignment [existingByID[s._id] = ...]. *)
Definition put (acc : gmap Id ExistingMemory) (s : Similar)
    : gmap Id ExistingMemory :=
  <[s_id s := existing_of s]> acc.

(** All similar facts of a batch, in candidate processing order. *)
Definition all_similar (memoriesWithContext : list MemoryWithContext)
    : list Similar :=
  concat (similar <$> memoriesWithContext).

(** An empty store at time [1]. *)
Definition world0 : World :=
  {| tbl_memories := []; tbl_memoryQueue := []; tbl_coreMemoryBlocks := [];
     tbl_messages := []; clock := 1; next_id := 0; trace := [] |}.

(** The deduplication scenario: candidate A is similar to X and Y,
    candidate B to Y and Z. *)
Definition sim (id : Id) (c : string) (t : MemoryType) (sc : Score) : Similar :=
  {| s_id := id; s_content := c; s_type := t; s_score := sc |}.

Definition candidate (c : string) (t : MemoryType) (sims : list Similar)
    : MemoryWithContext :=
  {| memory := {| em_content := c; em_type := t; em_keywords := [] |};
     embedding := []; similar := sims |}.

Definition candidateA : MemoryWithContext :=
  candidate "Memory A" semantic
    [sim "X" "fact X" semantic (9 # 10); sim "Y" "fact Y" semantic (85 # 100)].

Definition candidateB : MemoryWithContext :=
  candidate "Memory B" semantic
    [sim "Y" "fact Y" semantic (88 # 100); sim "Z" "fact Z" episodic (8 # 10)].

(** Invalidation stamps are readings of [Date.now()], never [0]. *)
Definition no_zero_stamp (tbl : list Memory) : Prop :=
  Forall (fun m => m_invalidAt m <> Some 0%Z) tbl.

(** A fact is active when [invalidAt] is absent. *)
Definition active (m : Memory) : Prop := m_invalidAt m = None.

(** A store with one active and one invalidated fact of the same owner. *)
Definition fact (id : Id) (c : string) (inv : option Z) : Memory :=
  {| m_id := id; m_userId := "user_1"; m_content := c; m_embedding := [];
     m_type := semantic; m_keywords := None; m_contentHash := None;
     m_validAt := Some 1%Z; m_invalidAt := inv;
     m_sourceConversationId := None; m_createdAt := 1 |}.

Definition world_two_facts : World :=
  {| tbl_memories := [fact "F" "Partner withdraws during arguments" None;
                      fact "G" "Partner is named Jordan" (Some 5%Z)];
     tbl_memoryQueue := []; tbl_coreMemoryBlocks := [];
     tbl_messages := []; clock := 7; next_id := 2; trace := [] |}.

(** Collaborators that always answer: a constant embedding, a vector index
    that returns every stored fact of the table, an LLM that extracts nothing
    and decides nothing. *)
Definition env_all_hits : Env :=
  {| embedding_model := fun _ _ => Some [1 # 2];
     vector_index := fun w _ _ _ =>
       Some (List.map (fun m => (m_id m, 9 # 10)) (tbl_memories w));
     llm_extraction := fun _ _ =>
       Some {| raw_memories := []; raw_core_memory_updates := [] |};
     llm_decision := fun _ _ => Some [] |}.

(** The events an action adds to the trace. *)
Definition events_of {A} (m : Action A) (w : World) : list Event :=
  drop (length (trace w)) (trace (after m w)).

Definition is_embed_call (e : Event) : bool :=
  match e with EvEmbed _ => true | _ => false end.

Definition is_llm_call (e : Event) : bool :=
  match e with
  | EvGenerateExtraction _ | EvGenerateDecision _ => true
  | _ => false
  end.

(** Decisions and collaborators of the execution scenarios. *)
Definition decision (i : Z) (a : DecisionAction) (c t : option string)
    : MemoryDecision :=
  {| new_memory_index := i; action := a; content := c;
     target_memory_id := t; reason := "scenario" |}.

Definition candidateX : MemoryWithContext :=
  {| memory := {| em_content := "X"; em_type := semantic; em_keywords := ["k"] |};
     embedding := [3 # 4]; similar := [] |}.

(** The embedding model is unreachable. *)
Definition env_embed_down : Env :=
  {| embedding_model := fun _ _ => None;
     vector_index := vector_index env_all_hits;
     llm_extraction := llm_extraction env_all_hits;
     llm_decision := llm_decision env_all_hits |}.

(** The facts inserted when every candidate of a batch is added with its
    own content and embedding, with ids drawn from [n] onwards. *)
Fixpoint added_facts (userId conversationId : Id) (now : Z) (n : N)
    (batch : list MemoryWithContext) : list Memory :=
  match batch with
  | [] => []
  | m :: rest =>
      new_memory userId (em_content (memory m)) (embedding m)
        (em_type (memory m)) (Some (em_keywords (memory m)))
        (Some conversationId) now (pretty n)
      :: added_facts userId conversationId now (N.succ n) rest
  end.

(** The end-to-end scenario: two new semantic facts, nothing similar. *)
Definition two_new_facts : list MemoryWithContext :=
  [candidate "User has an anxious attachment style" semantic [];
   candidate "Partner Jordan tends to withdraw during arguments" semantic []].

(** Two worlds with the same tables, clock and id supply. *)
Definition same_store (w w' : World) : Prop :=
  tbl_memories w' = tbl_memories w /\
  tbl_memoryQueue w' = tbl_memoryQueue w /\
  tbl_coreMemoryBlocks w' = tbl_coreMemoryBlocks w /\
  tbl_messages w' = tbl_messages w /\
  clock w' = clock w /\ next_id w' = next_id w.

(** From [w] to [w'] only embedding calls and vector searches happened. *)
Definition only_lookups (w w' : World) : Prop :=
  same_store w w' /\
  exists es, trace w' = trace w ++ es /\
             Forall (fun e => is_store_write e = false /\
                              is_llm_call e = false) es.

(** The candidates of [memories] that get their context in a run of step 5
    from [w]: each candidate is tried in the world its predecessors left; one
    whose embedding or search throws contributes nothing, one that succeeds
    contributes its context.  The second component is the world after the
    last candidate. *)
Fixpoint survivors_of (env : Env) (userId : Id) (memories : list ExtractedMemory)
    (w : World) : list MemoryWithContext * World :=
  match memories with
  | [] => ([], w)
  | m :: rest =>
      match with_context env userId m w with
      | (Ok c, w1) =>
          let r := survivors_of env userId rest w1 in (c :: r.1, r.2)
      | (Throw, w1) => survivors_of env userId rest w1
      end
  end.

(** The embedding model fails on the text "bad" only. *)
Definition env_bad_text : Env :=
  {| embedding_model := fun _ t =>
       if String.eqb t "bad" then None else Some [1 # 2];
     vector_index := fun _ _ _ _ => Some [];
     llm_extraction := llm_extraction env_all_hits;
     llm_decision := llm_decision env_all_hits |}.

Definition extracted (c : string) : ExtractedMemory :=
  {| em_content := c; em_type := semantic; em_keywords := [] |}.



Definition env_payload (p : RawExtraction) : Env :=
  {| embedding_model := fun _ _ => Some [1 # 2];
     vector_index := fun _ _ _ _ => Some [];
     llm_extraction := fun _ _ => Some p;
     llm_decision := fun _ _ => Some [] |}.

Definition world_profile : World :=
  {| tbl_memories := []; tbl_memoryQueue := [];
     tbl_coreMemoryBlocks :=
       [{| cb_id := "b1"; cb_userId := "user_1"; cb_label := "user_profile";
           cb_content := ""; cb_updatedAt := 0 |}];
     tbl_messages := []; clock := 9; next_id := 0; trace := [] |}.

(** The prompt built by steps 1 and 2 of [extractAndStoreMemories]. *)
Definition extraction_prompt (userId : Id) (messages : list (string * string))
    (w : World) : ExtractionPrompt :=
  {| coreMemoryText :=
       render_coreMemory
         (List.filter (fun b => String.eqb (cb_userId b) userId)
            (tbl_coreMemoryBlocks w));
     conversationText := render_conversation messages |}.

(** A stand-in digest for running [addFromTool] on examples. *)
Definition toy_digest (s : string) : string := "h:" +:+ s.

(** A conversation of 21 messages with one pending queue item. *)
Definition message_n (i : nat) : Message :=
  {| msg_id := "m" +:+ pretty i; msg_conversationId := "conv_1";
     msg_role := if Nat.even i then "user" else "assistant";
     msg_content := "Message " +:+ pretty i;
     msg_createdAt := Z.of_nat i |}.

Definition world_21_messages : World :=
  {| tbl_memories := [];
     tbl_memoryQueue :=
       [{| q_id := "q1"; q_userId := "user_1"; q_conversationId := "conv_1";
           q_status := pending; q_createdAt := 1; q_processedAt := None |}];
     tbl_coreMemoryBlocks := [];
     tbl_messages := message_n <$> seq 0 21;
     clock := 50; next_id := 100; trace := [] |}.

Definition turns (ms : list Message) : list (string * string) :=
  List.map (fun m => (msg_role m, msg_content m)) ms.

(** The LLM extracts the two new facts of the end-to-end scenario. *)
Definition payload_two_facts : RawExtraction :=
  {| raw_memories :=
       [{| rm_content := "User has an anxious attachment style";
           rm_type := "semantic"; rm_keywords := [] |};
        {| rm_content := "Partner Jordan tends to withdraw during arguments";
           rm_type := "semantic"; rm_keywords := [] |}];
     raw_core_memory_updates := [] |}.

(** ** Further vocabulary: what an action preserves *)

(** The action returns normally from every world. *)
Definition never_throws {A} (m : Action A) : Prop :=
  forall w, exists a, (m w).1 = Ok a.

(** Every run of the action relates the world before to the world after. *)
Definition preserves (R : World -> World -> Prop) {A} (m : Action A) : Prop :=
  forall w, R w (after m w).

(** A stored fact without its invalidation stamp. *)
Definition erase_invalidAt (m : Memory) : Memory :=
  {| m_id := m_id m; m_userId := m_userId m; m_content := m_content m;
     m_embedding := m_embedding m; m_type := m_type m;
     m_keywords := m_keywords m; m_contentHash := m_contentHash m;
     m_validAt := m_validAt m; m_invalidAt := None;
     m_sourceConversationId := m_sourceConversationId m;
     m_createdAt := m_createdAt m |}.

(** [m'] is [m] later in its life: nothing but the invalidation stamp may
    differ, and a stamp that is set stays set. *)
Definition ages_to (m m' : Memory) : Prop :=
  erase_invalidAt m' = erase_invalidAt m /\
  (m_invalidAt m <> None -> m_invalidAt m' <> None).

(** [tbl'] keeps the history of [tbl]: the facts of [tbl], in order and
    aged, followed by new facts. *)
Definition keeps_history (tbl tbl' : list Memory) : Prop :=
  exists old new, tbl' = old ++ new /\ Forall2 ages_to tbl old.

(** What the memory pipeline may change in the world: the memories table
    keeps its history, core memory blocks keep their identity (id, owner and
    label), the trace grows; queue, messages and clock stay as they are. *)
Definition pipeline_step (w w' : World) : Prop :=
  keeps_history (tbl_memories w) (tbl_memories w') /\
  tbl_memoryQueue w' = tbl_memoryQueue w /\
  tbl_messages w' = tbl_messages w /\
  clock w' = clock w /\
  (fun b => (cb_id b, cb_userId b, cb_label b)) <$> tbl_coreMemoryBlocks w' =
    (fun b => (cb_id b, cb_userId b, cb_label b)) <$> tbl_coreMemoryBlocks w /\
  (exists es, trace w' = trace w ++ es).

(** The decision LLM is unreachable; everything else answers. *)
Definition env_decision_down : Env :=
  {| embedding_model := embedding_model env_all_hits;
     vector_index := vector_index env_all_hits;
     llm_extraction := llm_extraction env_all_hits;
     llm_decision := fun _ _ => None |}.

(** The prompt of the decision call for a batch. *)
Definition decision_prompt (mwc : list MemoryWithContext) : DecisionPrompt :=
  {| newMemoriesForPrompt :=
       imap (fun i m => (i, em_content (memory m), em_type (memory m))) mwc;
     uniqueExistingForPrompt := uniqueExisting mwc |}.

(** A candidate that resembles the stored fact F. *)
Definition candidateF : MemoryWithContext :=
  {| memory := {| em_content := "Partner withdraws when arguing";
                  em_type := semantic; em_keywords := [] |};
     embedding := [1 # 3];
     similar := [sim "F" "Partner withdraws during arguments" semantic (9 # 10)] |}.

(** The extraction LLM is unreachable. *)
Definition env_extraction_down : Env :=
  {| embedding_model := embedding_model env_all_hits;
     vector_index := vector_index env_all_hits;
     llm_extraction := fun _ _ => None;
     llm_decision := llm_decision env_all_hits |}.

(** An extraction output with a core memory update and no memory. *)
Definition payload_core_only : RawExtraction :=
  {| raw_memories := [];
     raw_core_memory_updates :=
       [{| cu_label := "user_profile"; cu_content := "Name: Alex" |}] |}.

(** The facts [listValid] returns for an owner. *)
Definition valid_of (userId : Id) (tbl : list Memory) : list Memory :=
  List.filter
    (fun m => String.eqb (m_userId m) userId &&
              match m_invalidAt m with None => true | Some _ => false end)
    tbl.

(** The block [updateCoreMemoryInternal] looks for. *)
Definition find_block (userId : Id) (label : string) (w : World)
    : option CoreMemoryBlock :=
  List.find (fun b => String.eqb (cb_userId b) userId &&
                      String.eqb (cb_label b) label)
            (tbl_coreMemoryBlocks w).

(** What a drain does to a queue item: the items whose id is in the batch
    are completed at time [t]. *)
Definition drained (ids : list Id) (t : Z) (q : QueueItem) : QueueItem :=
  if existsb (String.eqb (q_id q)) ids
  then set_status completed (Some t) q
  else q.

(** The batch one run of [processQueue] takes. *)
Definition pending_batch (w : World) : list QueueItem :=
  take 10 (List.filter (fun q => QueueStatus_eqb (q_status q) pending)
             (tbl_memoryQueue w)).

(** A queue of twelve pending items for twelve conversations. *)
Definition queue_item_n (i : nat) : QueueItem :=
  {| q_id := "q" +:+ pretty i; q_userId := "user_1";
     q_conversationId := "conv_" +:+ pretty i; q_status := pending;
     q_createdAt := Z.of_nat i; q_processedAt := None |}.

Definition world_12_pending : World :=
  {| tbl_memories := []; tbl_memoryQueue := queue_item_n <$> seq 0 12;
     tbl_coreMemoryBlocks := []; tbl_messages := [];
     clock := 60; next_id := 200; trace := [] |}.

(** ** messages.ts: the queries *)

(** [messages.list]: the messages of a conversation, oldest first. *)
Definition messages_list (conversationId : Id) : Action (list Message) :=
  w <- get_world ;;
  ret (List.filter (fun m => String.eqb (msg_conversationId m) conversationId)
         (tbl_messages w)).

(** [messages.getRecent]: the newest [limit] messages (20 when no limit is
    given) are taken in descending order and reversed. *)
Definition messages_getRecent (conversationId : Id) (limit : option nat)
    : Action (list Message) :=
  let limit := default 20%nat limit in
  w <- get_world ;;
  let messages :=
    take limit
      (List.rev
         (List.filter (fun m => String.eqb (msg_conversationId m) conversationId)
            (tbl_messages w))) in
  ret (List.rev messages).

(** ** kintsu.ts: the memory tools *)

(** An element of [formattedMemories]. *)
Record FormattedMemory := {
  fm_content : string;
  fm_type : MemoryType;
  fm_keywords : option (list string);
  fm_relevance : Score
}.

(** The object returned by the tool [recallMemory]; absent fields are
    [None]. *)
Record RecallResult := {
  rr_found : bool;
  rr_query : string;
  rr_message : option string;
  rr_error : option string;
  rr_memories : option (list FormattedMemory)
}.

(** The object returned by the tool [saveMemory]. *)
Record SaveResult := {
  sr_saved : bool;
  sr_memoryId : option Id;
  sr_message : option string;
  sr_reason : option string;
  sr_error : option string
}.

Definition format_memory (r : Memory * Score) : FormattedMemory :=
  {| fm_content := m_content r.1; fm_type := m_type r.1;
     fm_keywords := m_keywords r.1; fm_relevance := r.2 |}.

Definition quote : string := String (ascii_of_nat 34) EmptyString.

Section Tools.

Variable env : Env.

(** [getEmbedding]: the same embedding call as [generateEmbedding]. *)
Definition getEmbedding (text : string) : Action Vec :=
  emit (EvEmbed text) ;;;
  w <- get_world ;;
  match embedding_model env w text with
  | Some v => ret v
  | None => throw
  end.

(** [recallMemory.execute] *)
Definition recallMemory (query : string) (userId : option string)
    : Action RecallResult :=
  try_catch
    (if negb (JS.truthy_str userId)
     then ret {| rr_found := false; rr_query := query;
                 rr_message :=
                   Some "No user context available. Memory search requires an active user session.";
                 rr_error := None; rr_memories := None |}
     else
       embedding <- getEmbedding query ;;
       memories <- search env (default EmptyString userId) embedding (Some 5%nat) ;;
       if (length memories =? 0)%nat
       then ret {| rr_found := false; rr_query := query;
                   rr_message := Some "No relevant memories found for this user.";
                   rr_error := None; rr_memories := None |}
       else ret {| rr_found := true; rr_query := query; rr_message := None;
                   rr_error := None;
                   rr_memories := Some (List.map format_memory memories) |})
    (ret {| rr_found := false; rr_query := query; rr_message := None;
            rr_error := Some "Failed to search memories";
            rr_memories := None |}).

(** The action [api.memories.addFromTool], which the sources at hand do not
    define: [saveMemory] is stated over whatever action is called. *)
Variable addFromTool_action :
  Id -> string -> MemoryType -> option (list string) -> Action AddFromToolResult.

(** [saveMemory.execute] *)
Definition saveMemory (content : string) (type : MemoryType)
    (keywords : option (list string)) (userId : option string)
    : Action SaveResult :=
  try_catch
    (if negb (JS.truthy_str userId)
     then ret {| sr_saved := false; sr_memoryId := None;
                 sr_message :=
                   Some "No user context available. Memory saving requires an active user session.";
                 sr_reason := None; sr_error := None |}
     else
       result <- addFromTool_action (default EmptyString userId) content type
                   keywords ;;
       match result with
       | Saved memoryId =>
           ret {| sr_saved := true; sr_memoryId := Some memoryId;
                  sr_message := Some ("Saved: " +:+ quote +:+ content +:+ quote);
                  sr_reason := None; sr_error := None |}
       | Duplicate reason =>
           ret {| sr_saved := false; sr_memoryId := None;
                  sr_message := Some "This information is already saved.";
                  sr_reason := Some reason; sr_error := None |}
       end)
    (ret {| sr_saved := false; sr_memoryId := None; sr_message := None;
            sr_reason := None; sr_error := Some "Failed to save memory" |}).

End Tools.

(** An action standing for [addFromTool] that always throws, and one that
    always saves under the id "m1" without touching the world. *)
Definition addFromTool_throws
    : Id -> string -> MemoryType -> option (list string) -> Action AddFromToolResult :=
  fun _ _ _ _ => throw.

Definition addFromTool_saves
    : Id -> string -> MemoryType -> option (list string) -> Action AddFromToolResult :=
  fun _ _ _ _ => ret (Saved "m1").

(** ** users.ts and messages.ts: the mutations

    These mutations touch two more tables, [users] and [conversations], and
    the scheduler.  A site is the world of the memory pipeline together with
    them.  The trace of the world records the effects of the memory pipeline;
    the inserts and patches below are visible in the tables. *)

Inductive AttachmentStyle := anxious | avoidant.

Record User := {
  usr_id : Id;
  usr_attachmentStyle : AttachmentStyle;
  usr_createdAt : Z
}.

Record Conversation := {
  cv_id : Id;
  cv_userId : Id;
  cv_title : option string;
  cv_createdAt : Z;
  cv_updatedAt : Z
}.

(** The validated [role] argument of [messages.add]. *)
Inductive Role := role_user | role_assistant.

Definition role_string (r : Role) : string :=
  match r with role_user => "user" | role_assistant => "assistant" end.

(** A call handed to [ctx.scheduler.runAfter]. *)
Inductive ScheduledCall :=
| Call_queueForProcessing (userId conversationId : Id).

Record Site := {
  site_world : World;
  site_users : list User;
  site_conversations : list Conversation;
  site_scheduled : list (Z * ScheduledCall)
}.

Definition with_messages (f : list Message -> list Message) (w : World) : World :=
  {| tbl_memories := tbl_memories w;
     tbl_memoryQueue := tbl_memoryQueue w;
     tbl_coreMemoryBlocks := tbl_coreMemoryBlocks w;
     tbl_messages := f (tbl_messages w);
     clock := clock w; next_id := next_id w; trace := trace w |}.

(** The labels [users.create] initialises. *)
Definition create_labels : list string :=
  ["user_profile"; "partner_info"; "relationship_context"; "preferences"]%string.

(** The loop of [users.create] that inserts one empty block per label. *)
Definition insert_core_blocks (userId : Id) : Action unit :=
  for_of create_labels (fun label =>
    id <- new_id ;;
    now <- Date_now ;;
    modify (with_coreMemoryBlocks
              (fun tbl => tbl ++ [{| cb_id := id; cb_userId := userId;
                                     cb_label := label; cb_content := "";
                                     cb_updatedAt := now |}]))).

(** [users.create] *)
Definition users_create (attachmentStyle : AttachmentStyle) (s : Site)
    : Id * Site :=
  let w := site_world s in
  let userId := pretty (next_id w) in
  let user := {| usr_id := userId; usr_attachmentStyle := attachmentStyle;
                 usr_createdAt := clock w |} in
  let w1 := with_next_id (N.succ (next_id w)) w in
  (userId,
   {| site_world := after (insert_core_blocks userId) w1;
      site_users := site_users s ++ [user];
      site_conversations := site_conversations s;
      site_scheduled := site_scheduled s |}).

(** [users.get] *)
Definition users_get (userId : Id) (s : Site) : option User :=
  List.find (fun u => String.eqb (usr_id u) userId) (site_users s).

(** [users.getWithCoreMemory]: the user with its blocks reduced to a map
    from label to content. *)
Definition users_getWithCoreMemory (userId : Id) (s : Site)
    : option (User * gmap string string) :=
  match users_get userId s with
  | None => None
  | Some user =>
      let coreMemory :=
        List.filter (fun b => String.eqb (cb_userId b) userId)
          (tbl_coreMemoryBlocks (site_world s)) in
      Some (user,
            foldl (fun acc block => <[cb_label block := cb_content block]> acc)
              ∅ coreMemory)
  end.

(** [users.updateCoreMemory]: the public twin of
    [updateCoreMemoryInternal]. *)
Definition users_updateCoreMemory (userId : Id) (label content : string)
    : Action unit :=
  w <- get_world ;;
  let existing :=
    List.find (fun b => String.eqb (cb_userId b) userId &&
                        String.eqb (cb_label b) label)
              (tbl_coreMemoryBlocks w) in
  match existing with
  | Some existing =>
      now <- Date_now ;;
      modify (with_coreMemoryBlocks
                (List.map (fun b => if String.eqb (cb_id b) (cb_id existing)
                                    then set_core_content content now b
                                    else b))) ;;;
      emit (EvPatchCoreMemory (cb_id existing) content now)
  | None => ret tt
  end.

Definition set_updatedAt (t : Z) (c : Conversation) : Conversation :=
  {| cv_id := cv_id c; cv_userId := cv_userId c; cv_title := cv_title c;
     cv_createdAt := cv_createdAt c; cv_updatedAt := t |}.

Definition get_conversation (conversationId : Id) (tbl : list Conversation)
    : option Conversation :=
  List.find (fun c => String.eqb (cv_id c) conversationId) tbl.

(** [messages.add].  A mutation is a transaction: when the patch of the
    conversation throws because the conversation does not exist, the insert
    of the message is undone with it. *)
Definition messages_add (conversationId : Id) (role : Role) (content : string)
    (s : Site) : Result Id * Site :=
  let w := site_world s in
  let now := clock w in
  let messageId := pretty (next_id w) in
  let message := {| msg_id := messageId; msg_conversationId := conversationId;
                    msg_role := role_string role; msg_content := content;
                    msg_createdAt := now |} in
  let w1 := with_messages (fun tbl => tbl ++ [message])
              (with_next_id (N.succ (next_id w)) w) in
  match get_conversation conversationId (site_conversations s) with
  | None => (Throw, s)
  | Some _ =>
      let conversations :=
        List.map (fun c => if String.eqb (cv_id c) conversationId
                           then set_updatedAt now c else c)
                 (site_conversations s) in
      let scheduled :=
        if String.eqb (role_string role) "assistant"
        then match get_conversation conversationId conversations with
             | Some conversation =>
                 site_scheduled s ++
                 [(0%Z, Call_queueForProcessing (cv_userId conversation)
                          conversationId)]
             | None => site_scheduled s
             end
        else site_scheduled s in
      (Ok messageId,
       {| site_world := w1; site_users := site_users s;
          site_conversations := conversations;
          site_scheduled := scheduled |})
  end.

(** The scheduler runs a call against the world. *)
Definition run_call (call : ScheduledCall) : Action unit :=
  match call with
  | Call_queueForProcessing userId conversationId =>
      queueForProcessing userId conversationId
  end.

(** The scheduler runs every call of the list, in order. *)
Definition run_scheduled (calls : list (Z * ScheduledCall)) : Action unit :=
  for_of calls (fun c => run_call c.2).

(** A site with one user, one conversation and nothing else. *)
Definition site0 : Site :=
  {| site_world := world0;
     site_users := [{| usr_id := "user_1"; usr_attachmentStyle := anxious;
                       usr_createdAt := 0 |}];
     site_conversations :=
       [{| cv_id := "conv_1"; cv_userId := "user_1"; cv_title := None;
           cv_createdAt := 0; cv_updatedAt := 0 |}];
     site_scheduled := [] |}.

(** The four empty blocks of a new user, with ids drawn from [n] onwards. *)
Definition initial_blocks (userId : Id) (now : Z) (n : N) : list CoreMemoryBlock :=
  [{| cb_id := pretty n; cb_userId := userId; cb_label := "user_profile";
      cb_content := ""; cb_updatedAt := now |};
   {| cb_id := pretty (N.succ n); cb_userId := userId;
      cb_label := "partner_info"; cb_content := ""; cb_updatedAt := now |};
   {| cb_id := pretty (N.succ (N.succ n)); cb_userId := userId;
      cb_label := "relationship_context"; cb_content := "";
      cb_updatedAt := now |};
   {| cb_id := pretty (N.succ (N.succ (N.succ n))); cb_userId := userId;
      cb_label := "preferences"; cb_content := ""; cb_updatedAt := now |}].

(** The last block with label [l] in a list of blocks. *)
Fixpoint last_block (l : string) (blocks : list CoreMemoryBlock)
    : option CoreMemoryBlock :=
  match blocks with
  | [] => None
  | b :: rest =>
      match last_block l rest with
      | Some b' => Some b'
      | None => if String.eqb (cb_label b) l then Some b else None
      end
  end.

(** The blocks of an owner, in table order. *)
Definition blocks_of (userId : Id) (w : World) : list CoreMemoryBlock :=
  List.filter (fun b => String.eqb (cb_userId b) userId) (tbl_coreMemoryBlocks w).

(** ** knowledge.ts *)

Record BookChunk := {
  bc_id : Id;
  bc_content : string;
  bc_embedding : Vec;
  bc_sourceSection : option string;
  bc_pageRef : option string;
  bc_createdAt : Z
}.

Inductive ConceptCategory :=
| cat_attachment_style | cat_behavior | cat_strategy | cat_trigger
| cat_communication.

Record Concept := {
  cn_id : Id;
  cn_name : string;
  cn_description : string;
  cn_category : ConceptCategory;
  cn_examples : option (list string);
  cn_embedding : Vec;
  cn_createdAt : Z
}.

Inductive Relationship :=
| is_type_of | causes | contrasts_with | related_to | leads_to.

Record ConceptLink := {
  cl_id : Id;
  cl_fromConceptId : Id;
  cl_toConceptId : Id;
  cl_relationship : Relationship;
  cl_createdAt : Z
}.

(** The three knowledge tables. *)
Record KnowledgeBase := {
  tbl_bookChunks : list BookChunk;
  tbl_concepts : list Concept;
  tbl_conceptLinks : list ConceptLink
}.

(** The two vector indexes; [None] is a thrown exception. *)
Record KnowledgeIndex := {
  bookChunks_index : Vec -> nat -> option (list (Id * Score));
  concepts_index : Vec -> nat -> option (list (Id * Score))
}.

(** An element of the result of [getLinkedConceptsInternal]. *)
Record LinkedConcept := {
  lc_concept : Concept;
  lc_relationship : Relationship
}.

(** An element of the result of [getLinkedConcepts]. *)
Record ReachedConcept := {
  rc_concept : Concept;
  rc_relationship : Relationship;
  rc_distance : Z
}.

(** The result of [searchKnowledge]. *)
Record KnowledgeResults := {
  kr_bookChunks : list (BookChunk * Score);
  kr_concepts : list (Concept * Score);
  kr_linkedConcepts : list LinkedConcept
}.

Section Knowledge.

Variable kb : KnowledgeBase.

(** [getBookChunkById] *)
Definition getBookChunkById (chunkId : Id) : option BookChunk :=
  List.find (fun c => String.eqb (bc_id c) chunkId) (tbl_bookChunks kb).

(** [getConceptById] *)
Definition getConceptById (conceptId : Id) : option Concept :=
  List.find (fun c => String.eqb (cn_id c) conceptId) (tbl_concepts kb).

(** The links that leave a concept (index [by_from]). *)
Definition links_from (conceptId : Id) : list ConceptLink :=
  List.filter (fun l => String.eqb (cl_fromConceptId l) conceptId)
    (tbl_conceptLinks kb).

(** [getLinkedConceptsInternal] *)
Definition getLinkedConceptsInternal (conceptId : Id) : list LinkedConcept :=
  fold_left
    (fun linkedConcepts link =>
       match getConceptById (cl_toConceptId link) with
       | Some concept =>
           linkedConcepts ++
           [{| lc_concept := concept; lc_relationship := cl_relationship link |}]
       | None => linkedConcepts
       end)
    (links_from conceptId) [].

(** The loop of [searchBookChunks] and of [searchKnowledge] over the hits. *)
Fixpoint chunks_loop (results : list (Id * Score))
    (chunks : list (BookChunk * Score)) : list (BookChunk * Score) :=
  match results with
  | [] => chunks
  | (_id, _score) :: rest =>
      match getBookChunkById _id with
      | Some chunk => chunks_loop rest (chunks ++ [(chunk, _score)])
      | None => chunks_loop rest chunks
      end
  end.

(** The loop of [searchConcepts]. *)
Fixpoint concepts_loop (results : list (Id * Score))
    (concepts : list (Concept * Score)) : list (Concept * Score) :=
  match results with
  | [] => concepts
  | (_id, _score) :: rest =>
      match getConceptById _id with
      | Some concept => concepts_loop rest (concepts ++ [(concept, _score)])
      | None => concepts_loop rest concepts
      end
  end.

(** The loop of [searchKnowledge] over the concept hits: it also collects
    the concepts linked to each hit. *)
Fixpoint knowledge_concepts_loop (conceptResults : list (Id * Score))
    (concepts : list (Concept * Score)) (linkedConcepts : list LinkedConcept)
    : list (Concept * Score) * list LinkedConcept :=
  match conceptResults with
  | [] => (concepts, linkedConcepts)
  | (_id, _score) :: rest =>
      match getConceptById _id with
      | Some fullConcept =>
          knowledge_concepts_loop rest (concepts ++ [(fullConcept, _score)])
            (linkedConcepts ++ getLinkedConceptsInternal _id)
      | None => knowledge_concepts_loop rest concepts linkedConcepts
      end
  end.

Variable idx : KnowledgeIndex.

(** [searchBookChunks] *)
Definition searchBookChunks (embedding : Vec) (limit : option nat)
    : option (list (BookChunk * Score)) :=
  let limit := default 5%nat limit in
  results ← bookChunks_index idx embedding limit;
  Some (chunks_loop results []).

(** [searchConcepts] *)
Definition searchConcepts (embedding : Vec) (limit : option nat)
    : option (list (Concept * Score)) :=
  let limit := default 5%nat limit in
  results ← concepts_index idx embedding limit;
  Some (concepts_loop results []).

(** [searchKnowledge] *)
Definition searchKnowledge (embedding : Vec)
    (includeBookChunks includeConcepts : option bool) (limit : option nat)
    : option KnowledgeResults :=
  let includeBookChunks := default true includeBookChunks in
  let includeConcepts := default true includeConcepts in
  let limit := default 5%nat limit in
  bookChunks ←
    (if includeBookChunks
     then chunks ← bookChunks_index idx embedding limit;
          Some (chunks_loop chunks [])
     else Some []);
  found ←
    (if includeConcepts
     then conceptResults ← concepts_index idx embedding limit;
          Some (knowledge_concepts_loop conceptResults [] [])
     else Some ([], []));
  Some {| kr_bookChunks := bookChunks; kr_concepts := found.1;
          kr_linkedConcepts := found.2 |}.

(** [traverse] of [getLinkedConcepts], with the set [visited] and the
    array [result] passed along.  The recursion goes one level deeper at each
    call and stops beyond [depth]; [fuel] bounds the levels. *)
Fixpoint traverse (depth : Z) (fuel : nat) (id : Id) (currentDepth : Z)
    (st : list Id * list ReachedConcept) : list Id * list ReachedConcept :=
  match fuel with
  | O => st
  | S fuel' =>
      if (currentDepth >? depth)%Z || existsb (String.eqb id) st.1 then st
      else
        fold_left
          (fun st link =>
             match getConceptById (cl_toConceptId link) with
             | Some concept =>
                 if negb (existsb (String.eqb (cl_toConceptId link)) st.1)
                 then traverse depth fuel' (cl_toConceptId link)
                        (currentDepth + 1)
                        (st.1,
                         st.2 ++ [{| rc_concept := concept;
                                     rc_relationship := cl_relationship link;
                                     rc_distance := currentDepth |}])
                 else st
             | None => st
             end)
          (links_from id) (id :: st.1, st.2)
  end.

(** [getLinkedConcepts]; a call at level [depth + 1] returns at once, so
    [depth] levels of fuel are enough. *)
Definition getLinkedConcepts (conceptId : Id) (depth : option Z)
    : list ReachedConcept :=
  let depth := default 1%Z depth in
  (traverse depth (Z.to_nat depth) conceptId 1 ([], [])).2.

End Knowledge.

(** What [getLinkedConcepts] guarantees of an entry reached from [id] at
    level [level] or deeper, with [visited] already seen. *)
Definition reached_ok (kb : KnowledgeBase) (depth : Z) (id : Id) (level : Z)
    (visited : list Id) (r : ReachedConcept) : Prop :=
  (level <= rc_distance r <= depth)%Z /\
  (cn_id (rc_concept r) ∉ id :: visited) /\
  rc_concept r ∈ tbl_concepts kb /\
  exists link, link ∈ tbl_conceptLinks kb /\
               cl_toConceptId link = cn_id (rc_concept r) /\
               cl_relationship link = rc_relationship r.

(** An entry of [getLinkedConcepts] without its distance. *)
Definition forget_distance (r : ReachedConcept) : LinkedConcept :=
  {| lc_concept := rc_concept r; lc_relationship := rc_relationship r |}.

(** A small concept graph: a -> b, a -> c, b -> c, c -> a, and a link from
    a to a concept that is not stored. *)
Definition concept (id : Id) : Concept :=
  {| cn_id := id; cn_name := id; cn_description := ""; cn_category := cat_behavior;
     cn_examples := None; cn_embedding := []; cn_createdAt := 0 |}.

Definition link (id from to : Id) (r : Relationship) : ConceptLink :=
  {| cl_id := id; cl_fromConceptId := from; cl_toConceptId := to;
     cl_relationship := r; cl_createdAt := 0 |}.

Definition kb_triangle : KnowledgeBase :=
  {| tbl_bookChunks :=
       [{| bc_id := "k1"; bc_content := "Protest behaviors are ...";
           bc_embedding := []; bc_sourceSection := None; bc_pageRef := None;
           bc_createdAt := 0 |}];
     tbl_concepts := [concept "a"; concept "b"; concept "c"];
     tbl_conceptLinks :=
       [link "l1" "a" "b" causes; link "l2" "a" "c" related_to;
        link "l3" "b" "c" leads_to; link "l4" "c" "a" contrasts_with;
        link "l5" "a" "gone" is_type_of] |}.

Definition idx_triangle : KnowledgeIndex :=
  {| bookChunks_index := fun _ _ => Some [("k1", 8 # 10); ("k0", 7 # 10)];
     concepts_index := fun _ _ => Some [("a", 9 # 10)] |}.

(** A concept linked to itself and to another one. *)
Definition kb_self_link : KnowledgeBase :=
  {| tbl_bookChunks := [];
     tbl_concepts := [concept "a"; concept "b"];
     tbl_conceptLinks :=
       [link "l1" "a" "a" related_to; link "l2" "a" "b" causes] |}.

(** ** kintsu.ts: the knowledge tool *)

(** An element of [formattedChunks]. *)
Record FormattedChunk := {
  fc_content : string;
  fc_section : string;
  fc_relevance : Score
}.

(** An element of [formattedConcepts]. *)
Record FormattedConcept := {
  fcn_name : string;
  fcn_description : string;
  fcn_category : ConceptCategory;
  fcn_examples : option (list string)
}.

(** The object returned by the tool [queryKnowledge]; absent fields are
    [None]. *)
Record KnowledgeAnswer := {
  ka_found : bool;
  ka_query : string;
  ka_message : option string;
  ka_error : option string;
  ka_bookExcerpts : option (list FormattedChunk);
  ka_concepts : option (list FormattedConcept);
  ka_linkedConcepts : option (list LinkedConcept)
}.

Definition format_chunk (chunk : BookChunk * Score) : FormattedChunk :=
  {| fc_content := bc_content chunk.1;
     fc_section := JS.or_str (bc_sourceSection chunk.1) "Unknown section";
     fc_relevance := chunk.2 |}.

Definition format_concept (concept : Concept * Score) : FormattedConcept :=
  {| fcn_name := cn_name concept.1; fcn_description := cn_description concept.1;
     fcn_category := cn_category concept.1;
     fcn_examples := cn_examples concept.1 |}.

(** [queryKnowledge.execute]; a search that throws is [None]. *)
Definition queryKnowledge (env : Env) (kb : KnowledgeBase) (idx : KnowledgeIndex)
    (query : string) : Action KnowledgeAnswer :=
  try_catch
    (embedding <- getEmbedding env query ;;
     match searchKnowledge kb idx embedding (Some true) (Some true)
             (Some 5%nat) with
     | None => throw
     | Some results =>
         if (length (kr_bookChunks results) =? 0)%nat &&
            (length (kr_concepts results) =? 0)%nat
         then ret {| ka_found := false; ka_query := query;
                     ka_message :=
                       Some "No relevant knowledge found. The knowledge base may not be ingested yet.";
                     ka_error := None; ka_bookExcerpts := None;
                     ka_concepts := None; ka_linkedConcepts := None |}
         else ret {| ka_found := true; ka_query := query; ka_message := None;
                     ka_error := None;
                     ka_bookExcerpts :=
                       Some (List.map format_chunk (kr_bookChunks results));
                     ka_concepts :=
                       Some (List.map format_concept (kr_concepts results));
                     ka_linkedConcepts := Some (kr_linkedConcepts results) |}
     end)
    (ret {| ka_found := false; ka_query := query; ka_message := None;
            ka_error := Some "Failed to search knowledge base";
            ka_bookExcerpts := None; ka_concepts := None;
            ka_linkedConcepts := None |}).

(** A knowledge base whose only chunk has an empty section name, with an
    index that finds it and no concept. *)
Definition kb_untitled : KnowledgeBase :=
  {| tbl_bookChunks :=
       [{| bc_id := "k1"; bc_content := "Effective communication ...";
           bc_embedding := []; bc_sourceSection := Some EmptyString;
           bc_pageRef := None; bc_createdAt := 0 |}];
     tbl_concepts := []; tbl_conceptLinks := [] |}.

Definition idx_untitled : KnowledgeIndex :=
  {| bookChunks_index := fun _ _ => Some [("k1", 8 # 10)];
     concepts_index := fun _ _ => Some [] |}.

(** A mutation run against the world of a site. *)
Definition site_run {A} (m : Action A) (s : Site) : Site :=
  {| site_world := after m (site_world s); site_users := site_users s;
     site_conversations := site_conversations s;
     site_scheduled := site_scheduled s |}.

(** A site whose user has two blocks with the label "preferences". *)
Definition site_two_preferences : Site :=
  {| site_world :=
       with_coreMemoryBlocks
         (fun _ =>
            [{| cb_id := "b1"; cb_userId := "user_1"; cb_label := "preferences";
                cb_content := "short answers"; cb_updatedAt := 0 |};
             {| cb_id := "b2"; cb_userId := "user_1"; cb_label := "preferences";
                cb_content := "long answers"; cb_updatedAt := 0 |}])
         world0;
     site_users := site_users site0;
     site_conversations := site_conversations site0;
     site_scheduled := [] |}.
(** ** Reasoning about actions *)

Ltac simp_action :=
  repeat (progress (cbn [fst snd];
    unfold bind, ret, throw, try_catch, get_world, modify, emit, Date_now,
      new_id; cbn beta iota)).

Ltac world :=
  unfold log, with_memories, with_next_id, with_memoryQueue,
    with_coreMemoryBlocks; cbn [tbl_memories tbl_memoryQueue
    tbl_coreMemoryBlocks tbl_messages clock next_id trace].

Lemma bind_ok {A B} (m : Action A) (k : A -> Action B) w a w' :
  m w = (Ok a, w') -> bind m k w = k a w'.
Proof. intros H. unfold bind. by rewrite H. Qed.

Lemma bind_throw {A B} (m : Action A) (k : A -> Action B) w w' :
  m w = (Throw, w') -> bind m k w = (Throw, w').
Proof. intros H. unfold bind. by rewrite H. Qed.

Lemma try_catch_ok {A} (m h : Action A) w a w' :
  m w = (Ok a, w') -> try_catch m h w = (Ok a, w').
Proof. intros H. unfold try_catch. by rewrite H. Qed.

Lemma try_catch_throw {A} (m h : Action A) w w' :
  m w = (Throw, w') -> try_catch m h w = h w'.
Proof. intros H. unfold try_catch. by rewrite H. Qed.

Lemma for_of_app {A} (xs ys : list A) (body : A -> Action unit) w w' :
  for_of xs body w = (Ok tt, w') ->
  for_of (xs ++ ys) body w = for_of ys body w'.
Proof.
  revert w. induction xs as [|x xs IH]; intros w H; simpl in *.
  - unfold ret in H. by inversion H.
  - unfold bind in *. destruct (body x w) as [[[]|] w1]; [|done].
    by apply IH.
Qed.

(** ** The processing queue *)

Lemma find_none_filter {A} (p : A -> bool) (l : list A) :
  List.find p l = None -> List.filter p l = [].
Proof.
  induction l as [|x l IH]; simpl; [done|].
  destruct (p x); [done|]. exact IH.
Qed.

Lemma find_some_filter {A} (p : A -> bool) (l : list A) x :
  List.find p l = Some x -> (0 < length (List.filter p l))%nat.
Proof.
  induction l as [|y l IH]; simpl; [done|].
  destruct (p y); simpl; [lia|]. exact IH.
Qed.

Lemma filter_app_list {A} (p : A -> bool) (l1 l2 : list A) :
  List.filter p (l1 ++ l2) = List.filter p l1 ++ List.filter p l2.
Proof. apply List.filter_app. Qed.

Lemma is_pending_for_refl u c t i :
  is_pending_for c {| q_id := i; q_userId := u; q_conversationId := c;
                      q_status := pending; q_createdAt := t;
                      q_processedAt := None |} = true.
Proof. unfold is_pending_for. simpl. by rewrite String.eqb_refl. Qed.

(** With a pending item for the conversation, the call changes nothing. *)
Lemma queueForProcessing_pending u c w item :
  List.find (is_pending_for c) (tbl_memoryQueue w) = Some item ->
  queueForProcessing u c w = (Ok tt, w).
Proof. intros H. unfold queueForProcessing. simp_action. by rewrite H. Qed.

(** Without one, it inserts a pending item and schedules the drain. *)
Lemma queueForProcessing_fresh u c w :
  List.find (is_pending_for c) (tbl_memoryQueue w) = None ->
  let item := {| q_id := pretty (next_id w); q_userId := u;
                 q_conversationId := c; q_status := pending;
                 q_createdAt := clock w; q_processedAt := None |} in
  queueForProcessing u c w =
    (Ok tt,
     {| tbl_memories := tbl_memories w;
        tbl_memoryQueue := tbl_memoryQueue w ++ [item];
        tbl_coreMemoryBlocks := tbl_coreMemoryBlocks w;
        tbl_messages := tbl_messages w;
        clock := clock w; next_id := N.succ (next_id w);
        trace := (trace w ++ [EvInsertQueue item]) ++
                 [EvSchedule 5000 "memories.processQueue"] |}).
Proof. intros H item. unfold queueForProcessing. simp_action. by rewrite H. Qed.

Lemma find_app_found {A} (p : A -> bool) (l : list A) x :
  p x = true -> exists y, List.find p (l ++ [x]) = Some y.
Proof.
  intros Hx. induction l as [|z l IH]; simpl.
  - rewrite Hx. eauto.
  - destruct (p z); eauto.
Qed.

(** C6. [queueForProcessing] coalesces triggers: when a pending item of the
    conversation exists the call inserts nothing and schedules nothing (the
    world is unchanged); when none exists it appends one pending item for the
    conversation and schedules [processQueue] after 5000 ms; a second call
    for the same conversation right after the first is always a no-op; and
    starting from at most one pending item, two calls leave exactly one. *)
Theorem queueForProcessing_idempotent (u u' c : Id) (w : World) :
  let w1 := after (queueForProcessing u c) w in
  (forall item, List.find (is_pending_for c) (tbl_memoryQueue w) = Some item ->
     queueForProcessing u c w = (Ok tt, w)) /\
  (List.find (is_pending_for c) (tbl_memoryQueue w) = None ->
     exists item,
       is_pending_for c item = true /\ q_status item = pending /\
       q_conversationId item = c /\ q_userId item = u /\
       queueForProcessing u c w = (Ok tt, w1) /\
       tbl_memoryQueue w1 = tbl_memoryQueue w ++ [item] /\
       trace w1 = trace w ++ [EvInsertQueue item;
                              EvSchedule 5000 "memories.processQueue"]) /\
  queueForProcessing u' c w1 = (Ok tt, w1) /\
  ((count_pending c w <= 1)%nat ->
     count_pending c (after (queueForProcessing u' c) w1) = 1%nat).
Proof.
  intros w1. subst w1. unfold after.
  destruct (List.find (is_pending_for c) (tbl_memoryQueue w)) as [it|] eqn:Hf.
  - rewrite (queueForProcessing_pending u c w it Hf). simpl.
    rewrite (queueForProcessing_pending u' c w it Hf). simpl.
    split; [done|]. split; [done|]. split; [done|].
    intros Hle. pose proof (find_some_filter _ _ _ Hf) as Hpos.
    unfold count_pending in *. lia.
  - rewrite (queueForProcessing_fresh u c w Hf). simpl.
    split; [done|]. split.
    + intros _. eexists. split; [apply is_pending_for_refl|].
      repeat split; try reflexivity. simpl. by rewrite <- app_assoc.
    + destruct (find_app_found (is_pending_for c) (tbl_memoryQueue w)
                  {| q_id := pretty (next_id w); q_userId := u;
                     q_conversationId := c; q_status := pending;
                     q_createdAt := clock w; q_processedAt := None |}
                  (is_pending_for_refl u c (clock w) (pretty (next_id w))))
        as [y Hy].
      match goal with |- ?q ?W = _ /\ _ => assert (HW : q W = (Ok tt, W)) end.
      { by eapply queueForProcessing_pending. }
      rewrite HW. split; [done|]. intros _. simpl.
      unfold count_pending. simpl. rewrite filter_app_list.
      rewrite (find_none_filter _ _ Hf). simpl.
      by rewrite is_pending_for_refl.
Qed.

Lemma queueForProcessing_idempotent_witness :
  count_pending "conv_1"
    (after (queueForProcessing "user_1" "conv_1")
       (after (queueForProcessing "user_1" "conv_1") world0)) = 1%nat.
Proof.
  apply (queueForProcessing_idempotent "user_1" "user_1" "conv_1" world0).
  vm_compute. lia.
Defined.

(** ** Deduplication of the similar facts *)

Lemma existingByID_fold (mwc : list MemoryWithContext) (m0 : gmap Id ExistingMemory) :
  foldl (fun acc m => foldl put acc (similar m)) m0 mwc =
  foldl put m0 (all_similar mwc).
Proof.
  unfold all_similar. revert m0.
  induction mwc as [|m mwc IH]; intros m0; simpl; [done|].
  by rewrite foldl_app, IH.
Qed.

Lemma foldl_put_lookup (l : list Similar) (m0 : gmap Id ExistingMemory) (k : Id) :
  foldl put m0 l !! k =
  match last_occ k l with
  | Some s => Some (existing_of s)
  | None => m0 !! k
  end.
Proof.
  revert m0. induction l as [|s l IH]; intros m0; simpl; [done|].
  rewrite IH. destruct (last_occ k l); [done|].
  unfold put. destruct (String.eqb_spec (s_id s) k) as [->|Hne].
  - by rewrite lookup_insert_eq.
  - by rewrite lookup_insert_ne.
Qed.

Lemma last_occ_id k l s : last_occ k l = Some s -> s_id s = k /\ s ∈ l.
Proof.
  induction l as [|x l IH]; simpl; [done|].
  destruct (last_occ k l) as [s'|].
  - intros [= <-]. destruct IH as [? ?]; [done|]. split; [done|]. by right.
  - destruct (String.eqb_spec (s_id x) k); [|done].
    intros [= <-]. split; [done|]. by left.
Qed.

Lemma last_occ_none k l : last_occ k l = None <-> k ∉ s_id <$> l.
Proof.
  induction l as [|x l IH]; simpl.
  - split; [intros _; apply not_elem_of_nil | done].
  - rewrite not_elem_of_cons. destruct (last_occ k l) as [s'|].
    + split; [done|]. intros [_ Hn]. by apply IH in Hn.
    + destruct (String.eqb_spec (s_id x) k) as [->|Hne].
      * split; [done|]. by intros [? _].
      * split; [|done]. intros _. split; [done|]. by apply IH.
Qed.

Lemma last_occ_app k l1 s l2 :
  s_id s = k -> k ∉ s_id <$> l2 -> last_occ k (l1 ++ s :: l2) = Some s.
Proof.
  intros Hk Hn. induction l1 as [|x l1 IH]; simpl.
  - apply last_occ_none in Hn. rewrite Hn, Hk. by rewrite String.eqb_refl.
  - by rewrite IH.
Qed.

Lemma existingByID_lookup mwc k :
  existingByID mwc !! k = existing_of <$> last_occ k (all_similar mwc).
Proof.
  unfold existingByID. change (fun acc m => foldl _ acc (similar m))
    with (fun acc m => foldl put acc (similar m)).
  rewrite existingByID_fold, foldl_put_lookup.
  destruct (last_occ k (all_similar mwc)); [done|]. apply lookup_empty.
Qed.

Lemma existingByID_key mwc k e : existingByID mwc !! k = Some e -> ex_id e = k.
Proof.
  rewrite existingByID_lookup.
  destruct (last_occ k (all_similar mwc)) as [s|] eqn:Hs; [|done].
  intros [= <-]. simpl. by apply last_occ_id in Hs as [? _].
Qed.

Lemma uniqueExisting_ids mwc :
  ex_id <$> uniqueExisting mwc = (map_to_list (existingByID mwc)).*1.
Proof.
  unfold uniqueExisting.
  assert (H : Forall (fun p => ex_id p.2 = p.1) (map_to_list (existingByID mwc))).
  { apply Forall_forall. intros [k e] Hin. simpl.
    apply elem_of_map_to_list in Hin. by eapply existingByID_key. }
  induction H as [|[k e] l Hk _ IH]; [done|].
  rewrite !fmap_cons. simpl in *. f_equal; done.
Qed.

(** C4. [existingByID] is keyed by fact id and holds each similar fact
    once: its keys are exactly the ids met in the similar sets, the values
    listed by [Object.values] have pairwise different ids, and the entry
    recorded for an id is the one written last in candidate processing
    order.  For candidate A similar to X (0.9) and Y (0.85), then candidate B
    similar to Y (0.88) and Z (0.8), the union is X, Y, Z and Y keeps 0.88. *)
Theorem existingByID_last_write_wins :
  (forall mwc k,
     existingByID mwc !! k = existing_of <$> last_occ k (all_similar mwc)) /\
  (forall mwc, NoDup (ex_id <$> uniqueExisting mwc)) /\
  (forall mwc k,
     k ∈ ex_id <$> uniqueExisting mwc <-> k ∈ s_id <$> all_similar mwc) /\
  (forall mwc l1 s l2,
     all_similar mwc = l1 ++ s :: l2 -> s_id s ∉ s_id <$> l2 ->
     existingByID mwc !! s_id s = Some (existing_of s)) /\
  existingByID [candidateA; candidateB] =
    <["X" := existing_of (sim "X" "fact X" semantic (9 # 10))]>
      (<["Y" := existing_of (sim "Y" "fact Y" semantic (88 # 100))]>
         (<["Z" := existing_of (sim "Z" "fact Z" episodic (8 # 10))]> ∅)) /\
  length (uniqueExisting [candidateA; candidateB]) = 3%nat /\
  ex_similarity <$> existingByID [candidateA; candidateB] !! "Y" = Some (88 # 100).
Proof.
  split; [exact existingByID_lookup|].
  split. { intros mwc. rewrite uniqueExisting_ids. apply NoDup_fst_map_to_list. }
  split.
  { intros mwc k. rewrite uniqueExisting_ids.
    rewrite list_elem_of_fmap. split.
    - intros [[k' e] [-> Hin]]. simpl. apply elem_of_map_to_list in Hin.
      rewrite existingByID_lookup in Hin.
      destruct (last_occ k' (all_similar mwc)) as [s|] eqn:Hs; [|done].
      apply last_occ_id in Hs as [<- Hs]. apply list_elem_of_fmap. eauto.
    - intros Hk.
      destruct (last_occ k (all_similar mwc)) as [s|] eqn:Hs.
      + exists (k, existing_of s). split; [done|].
        apply elem_of_map_to_list. by rewrite existingByID_lookup, Hs.
      + apply last_occ_none in Hs. done. }
  split.
  { intros mwc l1 s l2 Hall Hn.
    rewrite existingByID_lookup, Hall. by rewrite (last_occ_app (s_id s)). }
  split; [by vm_compute|]. split; by vm_compute.
Qed.

Lemma existingByID_last_write_wins_witness :
  existingByID [candidateA; candidateB] !! "Y" =
  Some (existing_of (sim "Y" "fact Y" semantic (88 # 100))).
Proof.
  destruct existingByID_last_write_wins as (_ & _ & _ & H & _).
  apply (H [candidateA; candidateB]
           [sim "X" "fact X" semantic (9 # 10); sim "Y" "fact Y" semantic (85 # 100)]
           (sim "Y" "fact Y" semantic (88 # 100))
           [sim "Z" "fact Z" episodic (8 # 10)]).
  - reflexivity.
  - apply last_occ_none. reflexivity.
Defined.

(** ** Similarity search returns active facts only *)

Lemma db_get_some id tbl m :
  db_get id tbl = Some m -> m_id m = id /\ m ∈ tbl.
Proof.
  unfold db_get. intros H. apply List.find_some in H as [Hin Heq].
  apply String.eqb_eq in Heq. split; [done|]. by apply list_elem_of_In.
Qed.

Lemma falsy_stamp_absent tbl m :
  no_zero_stamp tbl -> m ∈ tbl ->
  JS.truthy_num (m_invalidAt m) = false -> m_invalidAt m = None.
Proof.
  intros Hz Hin Hf. unfold no_zero_stamp in Hz.
  rewrite Forall_forall in Hz. specialize (Hz m Hin).
  destruct (m_invalidAt m) as [t|]; [|done]. simpl in Hf.
  apply negb_false_iff, Z.eqb_eq in Hf. by subst.
Qed.

Lemma search_loop_spec hits acc w :
  exists res,
    search_loop hits acc w = (Ok (acc ++ res), w) /\
    Forall (fun r => db_get (m_id r.1) (tbl_memories w) = Some r.1 /\
                     JS.truthy_num (m_invalidAt r.1) = false) res.
Proof.
  revert acc. induction hits as [|[id sc] hits IH]; intros acc; simpl.
  - exists []. by rewrite app_nil_r.
  - unfold getById. simp_action.
    destruct (db_get id (tbl_memories w)) as [m|] eqn:Hg; [|apply IH].
    destruct (JS.truthy_num (m_invalidAt m)) eqn:Ht; simpl; [apply IH|].
    destruct (IH (acc ++ [(m, sc)])) as [res [Hres Hall]].
    exists ((m, sc) :: res). rewrite Hres. split.
    + by rewrite <- app_assoc.
    + constructor; [|done]. simpl. split; [|done].
      apply db_get_some in Hg as Hid. destruct Hid as [<- _]. done.
Qed.

Lemma similar_loop_spec hits acc w :
  exists res,
    similar_loop hits acc w = (Ok (acc ++ res), w) /\
    Forall (fun s => exists m,
              db_get (s_id s) (tbl_memories w) = Some m /\
              JS.truthy_num (m_invalidAt m) = false /\
              s_content s = m_content m /\ s_type s = m_type m) res.
Proof.
  revert acc. induction hits as [|[id sc] hits IH]; intros acc; simpl.
  - exists []. by rewrite app_nil_r.
  - unfold getById. simp_action.
    destruct (db_get id (tbl_memories w)) as [m|] eqn:Hg; [|apply IH].
    destruct (JS.truthy_num (m_invalidAt m)) eqn:Ht; simpl; [apply IH|].
    match goal with |- context [similar_loop _ (acc ++ [?s])] =>
      destruct (IH (acc ++ [s])) as [res [Hres Hall]]; exists (s :: res) end.
    rewrite Hres. split.
    + by rewrite <- app_assoc.
    + constructor; [|done]. simpl. exists m.
      apply db_get_some in Hg as Hid. destruct Hid as [<- _]. done.
Qed.

(** C2. In a store whose invalidation stamps are clock readings, every
    result of the public [search] is a stored fact with [invalidAt] absent,
    so a fact with [invalidAt] set is never returned, whatever the vector
    index answers (hits and scores are arbitrary); [search] returns whenever
    the index answers; and the similar set gathered for a candidate during
    reconciliation is filtered the same way. *)
Theorem search_returns_active_only (env : Env) (w : World) (userId : Id)
    (emb : Vec) (limit : option nat) :
  no_zero_stamp (tbl_memories w) ->
  (forall res w',
     search env userId emb limit w = (Ok res, w') ->
     tbl_memories w' = tbl_memories w /\
     Forall (fun r => active r.1 /\
                      db_get (m_id r.1) (tbl_memories w) = Some r.1) res /\
     (forall m, ~ active m -> m ∉ res.*1)) /\
  (forall hits,
     vector_index env (log (EvVectorSearch userId (default 10%nat limit)) w)
       emb (default 10%nat limit) userId = Some hits ->
     exists res,
       search env userId emb limit w =
         (Ok res, log (EvVectorSearch userId (default 10%nat limit)) w)) /\
  (forall mem c w',
     with_context env userId mem w = (Ok c, w') ->
     Forall (fun s => exists m,
               db_get (s_id s) (tbl_memories w) = Some m /\ active m /\
               s_content s = m_content m /\ s_type s = m_type m) (similar c) /\
     (forall id m, db_get id (tbl_memories w) = Some m -> ~ active m ->
                   id ∉ s_id <$> similar c)).
Proof.
  intros Hz. split; [|split].
  - intros res w'. unfold search, vectorSearch. simp_action.
    destruct (vector_index env _ emb _ userId) as [hits|]; [|done].
    destruct (search_loop_spec hits []
                (log (EvVectorSearch userId (default 10%nat limit)) w))
      as [res' [Hres Hall]].
    rewrite Hres. simpl. intros [= <- <-]. split; [done|].
    assert (Hact : Forall (fun r => active r.1 /\
                     db_get (m_id r.1) (tbl_memories w) = Some r.1) res').
    { eapply Forall_impl; [exact Hall|]. intros [m sc] [Hg Hf]. simpl in *.
      split; [|done]. apply db_get_some in Hg as [_ Hin].
      by eapply falsy_stamp_absent. }
    split; [done|]. intros m Hna Hin.
    apply list_elem_of_fmap in Hin as [[m' sc] [-> Hin]]. simpl in Hna.
    rewrite Forall_forall in Hact. by destruct (Hact _ Hin) as [? _].
  - intros hits Hh. unfold search, vectorSearch. simp_action. rewrite Hh.
    destruct (search_loop_spec hits []
                (log (EvVectorSearch userId (default 10%nat limit)) w))
      as [res' [Hres _]].
    exists res'. by rewrite Hres.
  - intros mem c w'. unfold with_context, generateEmbedding, vectorSearch. simp_action.
    destruct (embedding_model env _ _) as [v|]; [|done].
    destruct (vector_index env _ v _ userId) as [hits|]; [|done].
    match goal with |- context [similar_loop hits [] ?W] =>
      destruct (similar_loop_spec hits [] W) as [sims [Hs Hall]] end.
    rewrite Hs. simpl. intros [= <- <-]. simpl.
    assert (Hact : Forall (fun s => exists m,
               db_get (s_id s) (tbl_memories w) = Some m /\ active m /\
               s_content s = m_content m /\ s_type s = m_type m) sims).
    { eapply Forall_impl; [exact Hall|]. intros s (m & Hg & Hf & Hc & Ht).
      simpl in Hg. exists m. split; [done|]. split; [|done].
      apply db_get_some in Hg as [_ Hin]. by eapply falsy_stamp_absent. }
    split; [done|]. intros id m Hg Hna Hin.
    apply list_elem_of_fmap in Hin as [s [-> Hin]].
    rewrite Forall_forall in Hact. destruct (Hact _ Hin) as (m' & Hg' & Ha & _).
    congruence.
Qed.

Lemma search_returns_active_only_witness :
  search env_all_hits "user_1" [1 # 2] (Some 5%nat) world_two_facts =
    (Ok [(fact "F" "Partner withdraws during arguments" None, 9 # 10)],
     log (EvVectorSearch "user_1" 5) world_two_facts) /\
  fact "G" "Partner is named Jordan" (Some 5%Z) ∉
    [(fact "F" "Partner withdraws during arguments" None, 9 # 10)].*1.
Proof.
  assert (Hz : no_zero_stamp (tbl_memories world_two_facts)).
  { repeat constructor; simpl; discriminate. }
  destruct (search_returns_active_only env_all_hits world_two_facts "user_1"
              [1 # 2] (Some 5%nat) Hz) as [H _].
  assert (Hrun : search env_all_hits "user_1" [1 # 2] (Some 5%nat) world_two_facts =
    (Ok [(fact "F" "Partner withdraws during arguments" None, 9 # 10)],
     log (EvVectorSearch "user_1" 5) world_two_facts)) by reflexivity.
  split; [exact Hrun|].
  destruct (H _ _ Hrun) as (_ & _ & Hnever). apply Hnever.
  unfold active. simpl. discriminate.
Defined.

(** Writes keep the stamps non-zero as long as the clock is. *)
Lemma invalidateInternal_no_zero_stamp memoryId w :
  clock w <> 0%Z -> no_zero_stamp (tbl_memories w) ->
  no_zero_stamp (tbl_memories (after (invalidateInternal memoryId) w)).
Proof.
  intros Hc Hz. unfold after, invalidateInternal, db_patch_invalidAt. simp_action.
  destruct (db_get memoryId (tbl_memories w)); simpl; [|done].
  unfold no_zero_stamp, patch_invalidAt in *. rewrite Forall_forall in *.
  intros x Hin. apply list_elem_of_In, List.in_map_iff in Hin as [m0 [<- Hin]].
  destruct (String.eqb (m_id m0) memoryId); simpl.
  - congruence.
  - apply Hz. by apply list_elem_of_In.
Qed.

Lemma addInternal_no_zero_stamp u c e t k s w :
  no_zero_stamp (tbl_memories w) ->
  no_zero_stamp (tbl_memories (after (addInternal u c e t k s) w)).
Proof.
  intros Hz. unfold after, addInternal, db_insert_memory. simp_action. simpl.
  unfold no_zero_stamp in *. apply Forall_app. split; [done|].
  constructor; [|done]. simpl. discriminate.
Qed.

(** ** Executing one decision *)

Lemma events_of_app {A} (m : Action A) w es :
  trace (after m w) = trace w ++ es -> events_of m w = es.
Proof. intros H. unfold events_of. rewrite H. apply drop_app_length. Qed.

Lemma truthy_str_some o :
  JS.truthy_str o = true <-> exists s, o = Some s /\ s <> EmptyString.
Proof.
  destruct o as [s|]; simpl.
  - rewrite negb_true_iff. destruct (String.eqb_spec s EmptyString); split.
    + done.
    + intros (s' & [= <-] & ?). done.
    + intros _. eauto.
    + done.
  - split; [done|]. by intros (? & ? & _).
Qed.

Lemma db_get_patch_invalidAt id t tbl m :
  db_get id tbl = Some m ->
  db_get id (patch_invalidAt id t tbl) = Some (set_invalidAt t m).
Proof.
  unfold db_get, patch_invalidAt. induction tbl as [|x tbl IH]; simpl; [done|].
  destruct (String.eqb (m_id x) id) eqn:Hx; simpl.
  - rewrite Hx. by intros [= ->].
  - rewrite Hx. exact IH.
Qed.

Lemma db_get_app_l id tbl tbl' m :
  db_get id tbl = Some m -> db_get id (tbl ++ tbl') = Some m.
Proof.
  unfold db_get. induction tbl as [|x tbl IH]; simpl; [done|].
  destruct (String.eqb (m_id x) id); [done|]. exact IH.
Qed.

Lemma patch_invalidAt_content id t tbl :
  m_content <$> patch_invalidAt id t tbl = m_content <$> tbl.
Proof.
  induction tbl as [|x tbl IH]; [done|].
  change (patch_invalidAt id t (x :: tbl)) with
    ((if String.eqb (m_id x) id then set_invalidAt t x else x)
       :: patch_invalidAt id t tbl).
  rewrite !fmap_cons, IH. f_equal.
  by destruct (String.eqb (m_id x) id).
Qed.

(** The UPDATE branch when both calls succeed. *)
Lemma execute_update_ok env userId conv d entry tid merged target v w :
  action d = UPDATE ->
  target_memory_id d = Some tid -> tid <> EmptyString ->
  content d = Some merged -> merged <> EmptyString ->
  db_get tid (tbl_memories w) = Some target ->
  (forall w0, embedding_model env w0 merged = Some v) ->
  let newfact :=
    new_memory userId merged v (em_type (memory entry))
      (Some (em_keywords (memory entry))) (Some conv) (clock w)
      (pretty (next_id w)) in
  execute_action env userId conv d entry w =
    (Ok tt,
     {| tbl_memories := patch_invalidAt tid (clock w) (tbl_memories w) ++ [newfact];
        tbl_memoryQueue := tbl_memoryQueue w;
        tbl_coreMemoryBlocks := tbl_coreMemoryBlocks w;
        tbl_messages := tbl_messages w;
        clock := clock w; next_id := N.succ (next_id w);
        trace := trace w ++ [EvPatchMemory tid (clock w); EvEmbed merged;
                             EvInsertMemory newfact] |}).
Proof.
  intros Ha Ht Hte Hc Hce Hg Hemb newfact.
  unfold execute_action. rewrite Ha, Ht, Hc. simpl.
  destruct (String.eqb_spec tid EmptyString) as [|_]; [done|].
  destruct (String.eqb_spec merged EmptyString) as [|_]; [done|]. simpl.
  unfold invalidateInternal, db_patch_invalidAt, generateEmbedding,
    addInternal, db_insert_memory. simp_action. rewrite Hg. simp_action. simpl.
  rewrite Hemb. simp_action. world. do 2 f_equal.
  by rewrite <- !app_assoc.
Qed.

(** C1, as stated, fails in three ways: an UPDATE decision that carries a
    target id and a content makes no store write when its index is outside
    the batch or when its content is the empty string, and only the
    invalidation when the embedding call throws. *)
Lemma update_two_effects_counterexample :
  let d_far := decision 99 UPDATE (Some "merged text") (Some "F") in
  let d_empty := decision 0 UPDATE (Some "") (Some "F") in
  let d := decision 0 UPDATE (Some "merged text") (Some "F") in
  List.filter is_store_write
    (events_of (execute_decision env_all_hits "user_1" "conv_1" [candidateX] d_far)
       world_two_facts) = [] /\
  List.filter is_store_write
    (events_of (execute_decision env_all_hits "user_1" "conv_1" [candidateX] d_empty)
       world_two_facts) = [] /\
  List.filter is_store_write
    (events_of (execute_decision env_embed_down "user_1" "conv_1" [candidateX] d)
       world_two_facts) = [EvPatchMemory "F" 7].
Proof. repeat split; reflexivity. Qed.

(** C1 (amended). An UPDATE decision whose index names a candidate of the
    batch and whose target id and content are both non-empty, executed when
    the target exists and the embedding call succeeds, makes exactly two
    store writes: the patch that sets [invalidAt] on the target, then the
    insert of a new active fact with the decision's content and the embedding
    computed for it by a new call.  No stored content changes: the target
    keeps its content and embedding. *)
Theorem update_invalidates_then_inserts (env : Env) (userId conv : Id)
    (mwc : list MemoryWithContext) (d : MemoryDecision)
    (entry : MemoryWithContext) (tid merged : string) (target : Memory)
    (v : Vec) (w : World) :
  action d = UPDATE ->
  target_memory_id d = Some tid -> tid <> EmptyString ->
  content d = Some merged -> merged <> EmptyString ->
  JS.index mwc (new_memory_index d) = Some entry ->
  db_get tid (tbl_memories w) = Some target ->
  (forall w0, embedding_model env w0 merged = Some v) ->
  let exec := execute_decision env userId conv mwc d in
  let newfact :=
    new_memory userId merged v (em_type (memory entry))
      (Some (em_keywords (memory entry))) (Some conv) (clock w)
      (pretty (next_id w)) in
  exec w = (Ok tt, after exec w) /\
  events_of exec w =
    [EvPatchMemory tid (clock w); EvEmbed merged; EvInsertMemory newfact] /\
  List.filter is_store_write (events_of exec w) =
    [EvPatchMemory tid (clock w); EvInsertMemory newfact] /\
  tbl_memories (after exec w) =
    patch_invalidAt tid (clock w) (tbl_memories w) ++ [newfact] /\
  active newfact /\ m_content newfact = merged /\ m_embedding newfact = v /\
  db_get tid (tbl_memories (after exec w)) =
    Some (set_invalidAt (clock w) target) /\
  m_content (set_invalidAt (clock w) target) = m_content target /\
  m_embedding (set_invalidAt (clock w) target) = m_embedding target /\
  m_content <$> tbl_memories (after exec w) =
    (m_content <$> tbl_memories w) ++ [merged].
Proof.
  intros Ha Ht Hte Hc Hce Hi Hg Hemb exec newfact.
  assert (Hrun : exec w =
    (Ok tt,
     {| tbl_memories := patch_invalidAt tid (clock w) (tbl_memories w) ++ [newfact];
        tbl_memoryQueue := tbl_memoryQueue w;
        tbl_coreMemoryBlocks := tbl_coreMemoryBlocks w;
        tbl_messages := tbl_messages w;
        clock := clock w; next_id := N.succ (next_id w);
        trace := trace w ++ [EvPatchMemory tid (clock w); EvEmbed merged;
                             EvInsertMemory newfact] |})).
  { subst exec. unfold execute_decision. rewrite Hi.
    apply try_catch_ok. by eapply execute_update_ok. }
  assert (Hev : events_of exec w =
    [EvPatchMemory tid (clock w); EvEmbed merged; EvInsertMemory newfact]).
  { apply events_of_app. unfold after. by rewrite Hrun. }
  unfold after. rewrite Hev, Hrun. simpl.
  repeat split; try reflexivity.
  - apply db_get_app_l. by apply db_get_patch_invalidAt.
  - by rewrite fmap_app, patch_invalidAt_content.
Qed.

Lemma update_invalidates_then_inserts_witness :
  List.filter is_store_write
    (events_of
       (execute_decision env_all_hits "user_1" "conv_1" [candidateX]
          (decision 0 UPDATE (Some "merged text") (Some "F")))
       world_two_facts) =
  [EvPatchMemory "F" 7;
   EvInsertMemory
     (new_memory "user_1" "merged text" [1 # 2] semantic (Some ["k"])
        (Some "conv_1") 7 "2")].
Proof.
  refine (proj1 (proj2 (proj2
    (update_invalidates_then_inserts env_all_hits "user_1" "conv_1" [candidateX]
       (decision 0 UPDATE (Some "merged text") (Some "F")) candidateX
       "F" "merged text" (fact "F" "Partner withdraws during arguments" None)
       [1 # 2] world_two_facts _ _ _ _ _ _ _ _)))); try reflexivity;
    try discriminate.
Defined.

(** C5, as stated, fails when the decision carries the empty string as its
    content: the content is present, yet the fact is stored with the
    candidate's content and the candidate's embedding, without a new call. *)
Lemma add_final_content_counterexample :
  let d := decision 0 ADD (Some "") None in
  content d = Some EmptyString /\
  events_of (execute_decision env_all_hits "user_1" "conv_1" [candidateX] d)
    world_two_facts =
  [EvInsertMemory
     (new_memory "user_1" "X" [3 # 4] semantic (Some ["k"]) (Some "conv_1") 7 "2")].
Proof. split; reflexivity. Qed.

(** C5 (amended). For an ADD decision on a candidate of the batch, the
    final content is the decision's content when it is present and not the
    empty string, and the candidate's content otherwise.  When the final
    content equals the candidate's content the fact is inserted with the
    embedding computed during reconciliation and no embedding call is made;
    otherwise exactly one embedding call is made, for the final content, and
    the fact is inserted with its result (nothing is inserted when that call
    throws). *)
Theorem add_reuses_embedding_iff_unchanged (env : Env) (userId conv : Id)
    (mwc : list MemoryWithContext) (d : MemoryDecision)
    (entry : MemoryWithContext) (w : World) :
  action d = ADD ->
  JS.index mwc (new_memory_index d) = Some entry ->
  let original := em_content (memory entry) in
  let final := JS.or_str (content d) original in
  let exec := execute_decision env userId conv mwc d in
  let inserted emb :=
    new_memory userId final emb (em_type (memory entry))
      (Some (em_keywords (memory entry))) (Some conv) (clock w)
      (pretty (next_id w)) in
  (forall c, content d = Some c -> c <> EmptyString -> final = c) /\
  (content d = None \/ content d = Some EmptyString -> final = original) /\
  exec w = (Ok tt, after exec w) /\
  (final = original ->
     events_of exec w = [EvInsertMemory (inserted (embedding entry))]) /\
  (final <> original ->
     events_of exec w =
       match embedding_model env (log (EvEmbed final) w) final with
       | Some fresh => [EvEmbed final; EvInsertMemory (inserted fresh)]
       | None => [EvEmbed final]
       end) /\
  (List.filter is_embed_call (events_of exec w) = [] <-> final = original) /\
  (List.filter is_embed_call (events_of exec w) = [EvEmbed final] <->
     final <> original).
Proof.
  intros Ha Hi original final exec inserted.
  assert (Hfinal1 : forall c, content d = Some c -> c <> EmptyString -> final = c).
  { intros c Hc Hne. subst final. rewrite Hc. simpl.
    by destruct (String.eqb_spec c EmptyString). }
  assert (Hfinal2 : content d = None \/ content d = Some EmptyString ->
                    final = original).
  { subst final. by intros [-> | ->]. }
  assert (Hcases :
    exec w = (Ok tt, after exec w) /\
    events_of exec w =
      if String.eqb final original
      then [EvInsertMemory (inserted (embedding entry))]
      else match embedding_model env (log (EvEmbed final) w) final with
           | Some fresh => [EvEmbed final; EvInsertMemory (inserted fresh)]
           | None => [EvEmbed final]
           end).
  { unfold after. subst exec. unfold execute_decision. rewrite Hi.
    unfold events_of, after, try_catch, execute_action. rewrite Ha.
    fold original. fold final.
    destruct (String.eqb final original) eqn:He; simpl.
    - unfold addInternal, db_insert_memory. simp_action. world.
      split; [done|]. apply drop_app_length.
    - unfold generateEmbedding, addInternal, db_insert_memory. simp_action.
      destruct (embedding_model env (log (EvEmbed final) w) final) as [fresh|];
        simp_action; world; (split; [done|]).
      + rewrite <- ?app_assoc. apply drop_app_length.
      + apply drop_app_length. }
  destruct Hcases as [Hrun Hev].
  split; [done|]. split; [done|]. split; [done|].
  rewrite Hev.
  destruct (String.eqb_spec final original) as [Heq|Hne].
  - split; [done|]. split; [done|]. split; [done|]. simpl. split; [done|].
    intros Hn. done.
  - split; [done|]. split; [done|].
    destruct (embedding_model env (log (EvEmbed final) w) final); simpl;
      split; split; done.
Qed.

Lemma add_reuses_embedding_iff_unchanged_witness :
  events_of
    (execute_decision env_all_hits "user_1" "conv_1" [candidateX]
       (decision 0 ADD None None)) world_two_facts =
  [EvInsertMemory
     (new_memory "user_1" "X" [3 # 4] semantic (Some ["k"]) (Some "conv_1") 7 "2")]
  /\
  events_of
    (execute_decision env_all_hits "user_1" "conv_1" [candidateX]
       (decision 0 ADD (Some "Y") None)) world_two_facts =
  [EvEmbed "Y";
   EvInsertMemory
     (new_memory "user_1" "Y" [1 # 2] semantic (Some ["k"]) (Some "conv_1") 7 "2")].
Proof.
  split.
  - refine (proj1 (proj2 (proj2 (proj2
      (add_reuses_embedding_iff_unchanged env_all_hits "user_1" "conv_1"
         [candidateX] (decision 0 ADD None None) candidateX world_two_facts
         _ _)))) _); reflexivity.
  - refine (proj1 (proj2 (proj2 (proj2 (proj2
      (add_reuses_embedding_iff_unchanged env_all_hits "user_1" "conv_1"
         [candidateX] (decision 0 ADD (Some "Y") None) candidateX
         world_two_facts _ _))))) _); [reflexivity | reflexivity | discriminate].
Defined.

(** ** The ADD-all shortcut *)

Lemma index_of_nat {A} (l : list A) (i : nat) : JS.index l (Z.of_nat i) = l !! i.
Proof.
  unfold JS.index. destruct (Z.ltb_spec (Z.of_nat i) 0); [lia|].
  by rewrite Nat2Z.id.
Qed.

Lemma or_str_same c : JS.or_str (Some c) c = c.
Proof. simpl. by destruct (String.eqb c EmptyString). Qed.

(** Executing the synthesised decision of candidate [i] inserts its fact. *)
Lemma execute_add_decision env userId conv mwc why i m w :
  mwc !! i = Some m ->
  let f := new_memory userId (em_content (memory m)) (embedding m)
             (em_type (memory m)) (Some (em_keywords (memory m)))
             (Some conv) (clock w) (pretty (next_id w)) in
  execute_decision env userId conv mwc (add_decision why i m) w =
    (Ok tt,
     {| tbl_memories := tbl_memories w ++ [f];
        tbl_memoryQueue := tbl_memoryQueue w;
        tbl_coreMemoryBlocks := tbl_coreMemoryBlocks w;
        tbl_messages := tbl_messages w;
        clock := clock w; next_id := N.succ (next_id w);
        trace := trace w ++ [EvInsertMemory f] |}).
Proof.
  intros Hi f. unfold execute_decision, add_decision. cbn [new_memory_index].
  rewrite index_of_nat, Hi. unfold try_catch, execute_action.
  cbn [action content]. rewrite or_str_same, String.eqb_refl. simpl.
  unfold addInternal, db_insert_memory. simp_action. by world.
Qed.

Lemma add_all_imap why mwc : add_all why mwc = imap (add_decision why) mwc.
Proof. reflexivity. Qed.

Lemma execute_add_all_from env userId conv why mwc suf :
  forall pre w,
    mwc = pre ++ suf ->
    for_of (imap (fun i m => add_decision why (length pre + i) m) suf)
      (execute_decision env userId conv mwc) w =
    (Ok tt,
     {| tbl_memories :=
          tbl_memories w ++ added_facts userId conv (clock w) (next_id w) suf;
        tbl_memoryQueue := tbl_memoryQueue w;
        tbl_coreMemoryBlocks := tbl_coreMemoryBlocks w;
        tbl_messages := tbl_messages w;
        clock := clock w;
        next_id := (next_id w + N.of_nat (length suf))%N;
        trace := trace w ++
                 (EvInsertMemory <$>
                    added_facts userId conv (clock w) (next_id w) suf) |}).
Proof.
  induction suf as [|m suf IH]; intros pre w Hmwc.
  - simpl. unfold ret. rewrite !app_nil_r, N.add_0_r. by destruct w.
  - rewrite imap_cons. cbn [for_of].
    rewrite Nat.add_0_r.
    erewrite bind_ok; last first.
    { apply execute_add_decision. rewrite Hmwc.
      by rewrite lookup_app_r, Nat.sub_diag by lia. }
    erewrite imap_ext; last first.
    { intros j x _. simpl.
      replace (length pre + S j)%nat with (length (pre ++ [m]) + j)%nat
        by (rewrite length_app; simpl; lia).
      reflexivity. }
    rewrite (IH (pre ++ [m])); [|by rewrite <- app_assoc].
    cbn [tbl_memories tbl_memoryQueue tbl_coreMemoryBlocks tbl_messages clock
         next_id trace added_facts length].
    rewrite fmap_cons, <- !app_assoc. simpl.
    do 2 f_equal. lia.
Qed.

Lemma execute_add_all env userId conv why mwc w :
  execute_decisions env userId conv mwc (add_all why mwc) w =
    (Ok tt,
     {| tbl_memories :=
          tbl_memories w ++ added_facts userId conv (clock w) (next_id w) mwc;
        tbl_memoryQueue := tbl_memoryQueue w;
        tbl_coreMemoryBlocks := tbl_coreMemoryBlocks w;
        tbl_messages := tbl_messages w;
        clock := clock w;
        next_id := (next_id w + N.of_nat (length mwc))%N;
        trace := trace w ++
                 (EvInsertMemory <$>
                    added_facts userId conv (clock w) (next_id w) mwc) |}).
Proof.
  unfold execute_decisions. rewrite add_all_imap.
  exact (execute_add_all_from env userId conv why mwc mwc [] w eq_refl).
Qed.

Lemma added_facts_length u c t n mwc :
  length (added_facts u c t n mwc) = length mwc.
Proof. revert n. induction mwc as [|m mwc IH]; intros n; simpl; [done|]. by rewrite IH. Qed.

Lemma added_facts_active u c t n mwc : Forall active (added_facts u c t n mwc).
Proof.
  revert n. induction mwc as [|m mwc IH]; intros n; simpl; constructor; [done|].
  apply IH.
Qed.

Lemma added_facts_content u c t n mwc :
  m_content <$> added_facts u c t n mwc = (fun m => em_content (memory m)) <$> mwc.
Proof.
  revert n. induction mwc as [|m mwc IH]; intros n; [done|].
  cbn [added_facts]. rewrite !fmap_cons. simpl. by rewrite IH.
Qed.

Lemma uniqueExisting_empty mwc : existingByID mwc = ∅ -> uniqueExisting mwc = [].
Proof. intros H. unfold uniqueExisting. rewrite H. by rewrite map_to_list_empty. Qed.

(** C3. When the deduplicated union of similar facts of a batch is empty,
    the decision step makes no LLM call (it leaves the world and the trace
    untouched) and returns one ADD decision per candidate, in order, each
    with the candidate's index, the candidate's own content and the reason
    "No similar existing memories found"; executing them makes no embedding
    or LLM call and inserts exactly one new active fact per candidate, with
    the candidate's content and embedding. *)
Theorem add_all_when_nothing_similar (env : Env) (userId conv : Id)
    (mwc : list MemoryWithContext) (w : World) :
  existingByID mwc = ∅ ->
  let why := "No similar existing memories found"%string in
  let decisions := imap (add_decision why) mwc in
  let new := added_facts userId conv (clock w) (next_id w) mwc in
  let exec := decide_and_execute env userId conv mwc in
  decide_operations env mwc w = (Ok decisions, w) /\
  length decisions = length mwc /\
  (forall i m, mwc !! i = Some m ->
     decisions !! i =
       Some {| new_memory_index := Z.of_nat i; action := ADD;
               content := Some (em_content (memory m));
               target_memory_id := None; reason := why |}) /\
  Forall (fun d => JS.toLowerCase (reason d) =
                   "no similar existing memories found"%string) decisions /\
  exec w = (Ok tt, after exec w) /\
  events_of exec w = EvInsertMemory <$> new /\
  tbl_memories (after exec w) = tbl_memories w ++ new /\
  length new = length mwc /\
  Forall active new /\
  m_content <$> new = (fun m => em_content (memory m)) <$> mwc.
Proof.
  intros Hempty why decisions new exec.
  assert (Hdec : decide_operations env mwc w = (Ok decisions, w)).
  { unfold decide_operations. by rewrite (uniqueExisting_empty _ Hempty). }
  assert (Hrun : exec w =
    (Ok tt,
     {| tbl_memories := tbl_memories w ++ new;
        tbl_memoryQueue := tbl_memoryQueue w;
        tbl_coreMemoryBlocks := tbl_coreMemoryBlocks w;
        tbl_messages := tbl_messages w;
        clock := clock w;
        next_id := (next_id w + N.of_nat (length mwc))%N;
        trace := trace w ++ (EvInsertMemory <$> new) |})).
  { subst exec. unfold decide_and_execute. erewrite bind_ok by exact Hdec.
    apply execute_add_all. }
  split; [done|].
  split. { subst decisions. by rewrite length_imap. }
  split. { intros i m Hi. subst decisions. rewrite list_lookup_imap, Hi. done. }
  split. { subst decisions. apply Forall_forall. intros d Hd.
           apply elem_of_lookup_imap in Hd as (i & m & -> & _). reflexivity. }
  split. { unfold after. by rewrite Hrun. }
  split. { apply events_of_app. unfold after. by rewrite Hrun. }
  split. { unfold after. by rewrite Hrun. }
  split. { apply added_facts_length. }
  split. { apply added_facts_active. }
  apply added_facts_content.
Qed.

Lemma add_all_when_nothing_similar_witness :
  events_of (decide_and_execute env_all_hits "user_1" "conv_1" two_new_facts)
    world0 =
  [EvInsertMemory
     (new_memory "user_1" "User has an anxious attachment style" [] semantic
        (Some []) (Some "conv_1") 1 "0");
   EvInsertMemory
     (new_memory "user_1" "Partner Jordan tends to withdraw during arguments"
        [] semantic (Some []) (Some "conv_1") 1 "1")].
Proof.
  refine (proj1 (proj2 (proj2 (proj2 (proj2 (proj2
    (add_all_when_nothing_similar env_all_hits "user_1" "conv_1" two_new_facts
       world0 _))))))).
  reflexivity.
Defined.

(** The end-to-end scenario through the whole handler: no stored fact, two
    extracted facts, empty search results; the only LLM call is the
    extraction and two active facts are inserted. *)
Example two_new_facts_end_to_end :
  let exec := extractAndStoreMemories (env_payload payload_two_facts)
               "user_1" "conv_1" [("user", "I am anxious; Jordan withdraws")] in
  List.filter is_llm_call (events_of exec world0) =
    [EvGenerateExtraction
       (extraction_prompt "user_1" [("user", "I am anxious; Jordan withdraws")]
          world0)] /\
  tbl_memories (after exec world0) =
    [new_memory "user_1" "User has an anxious attachment style" [1 # 2]
       semantic (Some []) (Some "conv_1") 1 "0";
     new_memory "user_1" "Partner Jordan tends to withdraw during arguments"
       [1 # 2] semantic (Some []) (Some "conv_1") 1 "1"].
Proof. split; reflexivity. Qed.

(** ** Candidates whose embedding or search throws *)

Lemma same_store_refl w : same_store w w.
Proof. by repeat split. Qed.

Lemma only_lookups_refl w : only_lookups w w.
Proof.
  split; [apply same_store_refl|]. exists []. by rewrite app_nil_r.
Qed.

Lemma only_lookups_trans w1 w2 w3 :
  only_lookups w1 w2 -> only_lookups w2 w3 -> only_lookups w1 w3.
Proof.
  intros [(?&?&?&?&?&?) (es1 & Ht1 & Hf1)] [(?&?&?&?&?&?) (es2 & Ht2 & Hf2)].
  split; [repeat split; congruence|].
  exists (es1 ++ es2). split; [by rewrite Ht2, Ht1, app_assoc|].
  by apply Forall_app.
Qed.

Lemma only_lookups_log e w :
  is_store_write e = false -> is_llm_call e = false -> only_lookups w (log e w).
Proof.
  intros H1 H2. split; [by repeat split|]. exists [e]. split; [done|].
  by repeat constructor.
Qed.

Lemma with_context_lookups env userId m w :
  only_lookups w (after (with_context env userId m) w).
Proof.
  unfold after, with_context, generateEmbedding, vectorSearch. simp_action.
  pose proof (only_lookups_log (EvEmbed (em_content m)) w eq_refl eq_refl) as H1.
  destruct (embedding_model env _ _) as [v|]; [|exact H1].
  pose proof (only_lookups_log (EvVectorSearch userId 5)
                (log (EvEmbed (em_content m)) w) eq_refl eq_refl) as H2.
  destruct (vector_index env _ v _ userId) as [hits|]; simpl;
    [|by eapply only_lookups_trans].
  match goal with |- context [similar_loop hits [] ?W] =>
    destruct (similar_loop_spec hits [] W) as [sims [Hs _]] end.
  rewrite Hs. simpl. by eapply only_lookups_trans.
Qed.

Lemma with_context_memory env userId m w c w' :
  with_context env userId m w = (Ok c, w') -> memory c = m.
Proof.
  unfold with_context, generateEmbedding, vectorSearch. simp_action.
  destruct (embedding_model env _ _) as [v|]; [|done].
  destruct (vector_index env _ v _ userId) as [hits|]; [|done].
  match goal with |- context [similar_loop hits [] ?W] =>
    destruct (similar_loop_spec hits [] W) as [sims [Hs _]] end.
  rewrite Hs. by intros [= <- _].
Qed.

(** One step of the loop of step 5. *)
Lemma gather_context_cons env userId m rest acc w :
  gather_context env userId (m :: rest) acc w =
  match with_context env userId m w with
  | (Ok c, w1) => gather_context env userId rest (acc ++ [c]) w1
  | (Throw, w1) => gather_context env userId rest acc w1
  end.
Proof.
  cbn [gather_context]. simp_action.
  by destruct (with_context env userId m w) as [[c|] w1].
Qed.

Lemma gather_context_spec env userId ms :
  forall acc w, exists survivors w',
    gather_context env userId ms acc w = (Ok (acc ++ survivors), w') /\
    sublist (memory <$> survivors) ms /\ only_lookups w w'.
Proof.
  induction ms as [|m ms IH]; intros acc w.
  - exists [], w. simpl. unfold ret. rewrite app_nil_r.
    split; [done|]. split; [done|]. apply only_lookups_refl.
  - rewrite gather_context_cons.
    pose proof (with_context_lookups env userId m w) as Hq. unfold after in Hq.
    destruct (with_context env userId m w) as [[c|] w1] eqn:Hc; simpl in Hq.
    + destruct (IH (acc ++ [c]) w1) as (sv & w' & Hg & Hsub & Hq').
      exists (c :: sv), w'. rewrite Hg, <- app_assoc. split; [done|].
      split; [|by eapply only_lookups_trans].
      rewrite fmap_cons, (with_context_memory _ _ _ _ _ _ Hc).
      by apply sublist_skip.
    + destruct (IH acc w1) as (sv & w' & Hg & Hsub & Hq').
      exists sv, w'. split; [done|].
      split; [by apply sublist_cons | by eapply only_lookups_trans].
Qed.

Lemma gather_context_all_throw env userId ms :
  (forall m, m ∈ ms -> forall w0, (with_context env userId m w0).1 = Throw) ->
  forall acc w, exists w',
    gather_context env userId ms acc w = (Ok acc, w') /\ only_lookups w w'.
Proof.
  induction ms as [|m ms IH]; intros Hall acc w.
  - exists w. split; [done|]. apply only_lookups_refl.
  - rewrite gather_context_cons.
    pose proof (with_context_lookups env userId m w) as Hq. unfold after in Hq.
    pose proof (Hall m (list_elem_of_here _ _) w) as Ht.
    destruct (with_context env userId m w) as [[c|] w1]; simpl in *; [done|].
    destruct (IH (fun x Hx => Hall x (list_elem_of_further _ _ _ Hx)) acc w1)
      as (w' & Hg & Hq').
    exists w'. split; [done|]. by eapply only_lookups_trans.
Qed.

Lemma with_context_embed_throws env userId m w :
  embedding_model env (log (EvEmbed (em_content m)) w) (em_content m) = None ->
  with_context env userId m w = (Throw, log (EvEmbed (em_content m)) w).
Proof.
  intros H. unfold with_context, generateEmbedding. simp_action. by rewrite H.
Qed.

Lemma with_context_search_throws env userId m w v :
  embedding_model env (log (EvEmbed (em_content m)) w) (em_content m) = Some v ->
  vector_index env (log (EvVectorSearch userId 5) (log (EvEmbed (em_content m)) w))
    v 5%nat userId = None ->
  with_context env userId m w =
    (Throw, log (EvVectorSearch userId 5) (log (EvEmbed (em_content m)) w)).
Proof.
  intros H1 H2. unfold with_context, generateEmbedding, vectorSearch. simp_action.
  rewrite H1. simp_action. by rewrite H2.
Qed.

Lemma filter_none {A} (p : A -> bool) (l : list A) :
  Forall (fun x => p x = false) l -> List.filter p l = [].
Proof. induction 1 as [|x l Hx _ IH]; simpl; [done|]. by rewrite Hx. Qed.

Lemma only_lookups_events {A} (m : Action A) w :
  only_lookups w (after m w) ->
  List.filter is_store_write (events_of m w) = [] /\
  List.filter is_llm_call (events_of m w) = [].
Proof.
  intros [_ (es & Ht & Hf)]. rewrite (events_of_app _ _ _ Ht).
  split; apply filter_none; eapply Forall_impl; try exact Hf; by intros ? [? ?].
Qed.

Lemma with_context_throws_iff env userId m w :
  (with_context env userId m w).1 = Throw <->
  embedding_model env (log (EvEmbed (em_content m)) w) (em_content m) = None \/
  exists v,
    embedding_model env (log (EvEmbed (em_content m)) w) (em_content m) = Some v /\
    vector_index env
      (log (EvVectorSearch userId 5) (log (EvEmbed (em_content m)) w))
      v 5%nat userId = None.
Proof.
  destruct (embedding_model env (log (EvEmbed (em_content m)) w) (em_content m))
    as [v|] eqn:He.
  2:{ rewrite (with_context_embed_throws _ _ _ _ He). split; [by left|done]. }
  destruct (vector_index env
              (log (EvVectorSearch userId 5) (log (EvEmbed (em_content m)) w))
              v 5%nat userId) as [hits|] eqn:Hv.
  2:{ rewrite (with_context_search_throws _ _ _ _ _ He Hv).
      split; [|done]. intros _. right. by exists v. }
  split.
  - unfold with_context, generateEmbedding, vectorSearch. simp_action.
    rewrite He. simp_action. rewrite Hv. simp_action.
    match goal with |- context [similar_loop hits [] ?W] =>
      destruct (similar_loop_spec hits [] W) as [sims [Hs _]] end.
    by rewrite Hs.
  - intros [|(v' & Hv' & Hn)]; [done|]. congruence.
Qed.

Lemma survivors_of_cons env userId m rest w :
  survivors_of env userId (m :: rest) w =
  match with_context env userId m w with
  | (Ok c, w1) =>
      (c :: (survivors_of env userId rest w1).1,
       (survivors_of env userId rest w1).2)
  | (Throw, w1) => survivors_of env userId rest w1
  end.
Proof. reflexivity. Qed.

Lemma gather_context_survivors env userId ms :
  forall acc w,
    gather_context env userId ms acc w =
      (Ok (acc ++ (survivors_of env userId ms w).1),
       (survivors_of env userId ms w).2).
Proof.
  induction ms as [|m ms IH]; intros acc w.
  - simpl. unfold ret. by rewrite app_nil_r.
  - rewrite gather_context_cons, survivors_of_cons.
    destruct (with_context env userId m w) as [[c|] w1]; rewrite IH; [|done].
    cbn [fst snd]. by rewrite <- app_assoc.
Qed.

Lemma survivors_of_lookups env userId ms :
  forall w, only_lookups w (survivors_of env userId ms w).2.
Proof.
  induction ms as [|m ms IH]; intros w; [apply only_lookups_refl|].
  rewrite survivors_of_cons.
  pose proof (with_context_lookups env userId m w) as Hq. unfold after in Hq.
  destruct (with_context env userId m w) as [[c|] w1]; cbn [fst snd] in *;
    eapply only_lookups_trans; try exact Hq; apply IH.
Qed.

Lemma survivors_of_app env userId pre post :
  forall w,
    survivors_of env userId (pre ++ post) w =
      ((survivors_of env userId pre w).1 ++
       (survivors_of env userId post (survivors_of env userId pre w).2).1,
       (survivors_of env userId post (survivors_of env userId pre w).2).2).
Proof.
  induction pre as [|m pre IH]; intros w.
  - simpl. by destruct (survivors_of env userId post w).
  - rewrite <- app_comm_cons, !survivors_of_cons.
    destruct (with_context env userId m w) as [[c|] w1]; rewrite IH; done.
Qed.

Lemma survivors_of_sublist env userId ms :
  forall w, sublist (memory <$> (survivors_of env userId ms w).1) ms.
Proof.
  induction ms as [|m ms IH]; intros w; [done|].
  rewrite survivors_of_cons.
  destruct (with_context env userId m w) as [[c|] w1] eqn:Hc; cbn [fst snd].
  - rewrite fmap_cons, (with_context_memory _ _ _ _ _ _ Hc).
    apply sublist_skip, IH.
  - apply sublist_cons, IH.
Qed.

Lemma reconcile_survivors env userId conv ms w :
  reconcile env userId conv ms w =
    (if (length (survivors_of env userId ms w).1 =? 0)%nat
     then (Ok tt, (survivors_of env userId ms w).2)
     else decide_and_execute env userId conv (survivors_of env userId ms w).1
            (survivors_of env userId ms w).2).
Proof.
  unfold reconcile.
  erewrite bind_ok by apply (gather_context_survivors env userId ms []).
  cbn [app]. by destruct (length _ =? 0)%nat.
Qed.

Lemma execute_decision_beyond env userId conv mwc d :
  (Z.of_nat (length mwc) <= new_memory_index d)%Z ->
  execute_decision env userId conv mwc d = ret tt.
Proof.
  intros H. unfold execute_decision, JS.index.
  destruct (Z.ltb_spec (new_memory_index d) 0); [done|].
  rewrite lookup_ge_None_2; [done|lia].
Qed.

(** C10. A candidate whose embedding call or vector search throws is left
    out of [memoriesWithContext] and the loop goes on with the next one,
    without any store write; nothing else makes a candidate fail.  The batch
    that reaches the decision step is the list of surviving candidates in
    extraction order, each with the context it got: a candidate that fails
    anywhere in the list contributes nothing, and the candidates before and
    after it contribute what they contribute without it being there.
    Reconciliation decides and executes on exactly that list (when nothing
    similar exists it inserts one fact per survivor and none for a dropped
    candidate), so a decision index is a position in the list of survivors:
    when the first extracted memory fails and the second succeeds, index 0 is
    the second memory, and an index at or beyond the number of survivors is
    skipped even when it is a position of the extraction.  When every
    candidate fails, or no candidate survives, reconciliation returns
    normally having asked for no decision and written nothing. *)
Theorem failed_candidates_are_dropped (env : Env) (userId conv : Id) :
  (forall m w,
     embedding_model env (log (EvEmbed (em_content m)) w) (em_content m) = None ->
     (with_context env userId m w).1 = Throw) /\
  (forall m w v,
     embedding_model env (log (EvEmbed (em_content m)) w) (em_content m) = Some v ->
     vector_index env
       (log (EvVectorSearch userId 5) (log (EvEmbed (em_content m)) w))
       v 5%nat userId = None ->
     (with_context env userId m w).1 = Throw) /\
  (forall m rest acc w w1,
     with_context env userId m w = (Throw, w1) ->
     same_store w w1 /\
     gather_context env userId (m :: rest) acc w =
       gather_context env userId rest acc w1) /\
  (forall ms w, exists mwc w',
     gather_context env userId ms [] w = (Ok mwc, w') /\
     sublist (memory <$> mwc) ms /\ only_lookups w w') /\
  (forall m0 m1 rest w w1 c1 w2,
     with_context env userId m0 w = (Throw, w1) ->
     with_context env userId m1 w1 = (Ok c1, w2) ->
     exists mwc w',
       gather_context env userId (m0 :: m1 :: rest) [] w = (Ok mwc, w') /\
       JS.index mwc 0 = Some c1 /\ memory c1 = m1 /\
       forall d, new_memory_index d = 0%Z ->
         execute_decision env userId conv mwc d =
           try_catch (execute_action env userId conv d c1) (ret tt)) /\
  (forall ms w,
     (forall m, m ∈ ms ->
        (forall w0, embedding_model env w0 (em_content m) = None) \/
        (forall w0 v, vector_index env w0 v 5%nat userId = None)) ->
     let exec := reconcile env userId conv ms in
     exec w = (Ok tt, after exec w) /\
     only_lookups w (after exec w) /\
     List.filter is_store_write (events_of exec w) = [] /\
     List.filter is_llm_call (events_of exec w) = []) /\
  (forall m w,
     (with_context env userId m w).1 = Throw ->
     embedding_model env (log (EvEmbed (em_content m)) w) (em_content m) = None \/
     exists v,
       embedding_model env (log (EvEmbed (em_content m)) w) (em_content m) =
         Some v /\
       vector_index env
         (log (EvVectorSearch userId 5) (log (EvEmbed (em_content m)) w))
         v 5%nat userId = None) /\
  (forall pre m post w,
     let wp := (survivors_of env userId pre w).2 in
     let wm := (with_context env userId m wp).2 in
     ((with_context env userId m wp).1 = Throw ->
        same_store wp wm /\
        (survivors_of env userId (pre ++ m :: post) w).1 =
          (survivors_of env userId pre w).1 ++
          (survivors_of env userId post wm).1) /\
     (forall c, (with_context env userId m wp).1 = Ok c ->
        memory c = m /\
        (survivors_of env userId (pre ++ m :: post) w).1 =
          (survivors_of env userId pre w).1 ++
          c :: (survivors_of env userId post wm).1)) /\
  (forall ms w,
     let mwc := (survivors_of env userId ms w).1 in
     let w' := (survivors_of env userId ms w).2 in
     let exec := reconcile env userId conv ms in
     gather_context env userId ms [] w = (Ok mwc, w') /\
     same_store w w' /\
     (mwc = [] ->
        exec w = (Ok tt, w') /\
        List.filter is_store_write (events_of exec w) = [] /\
        List.filter is_llm_call (events_of exec w) = []) /\
     (mwc <> [] -> exec w = decide_and_execute env userId conv mwc w') /\
     (forall decisions w1,
        mwc <> [] ->
        decide_operations env mwc w' = (Ok decisions, w1) ->
        exec w = for_of decisions (execute_decision env userId conv mwc) w1) /\
     (existingByID mwc = ∅ ->
        let new := added_facts userId conv (clock w) (next_id w) mwc in
        exec w = (Ok tt, after exec w) /\
        tbl_memories (after exec w) = tbl_memories w ++ new /\
        length new = length mwc /\
        m_content <$> new = (fun c => em_content (memory c)) <$> mwc /\
        List.filter is_llm_call (events_of exec w) = [])) /\
  (forall mwc d,
     (forall c, JS.index mwc (new_memory_index d) = Some c ->
        execute_decision env userId conv mwc d =
          try_catch (execute_action env userId conv d c) (ret tt)) /\
     ((Z.of_nat (length mwc) <= new_memory_index d)%Z ->
        execute_decision env userId conv mwc d = ret tt)).
Proof.
  split. { intros m w H. by rewrite (with_context_embed_throws _ _ _ _ H). }
  split. { intros m w v H1 H2.
           by rewrite (with_context_search_throws _ _ _ _ _ H1 H2). }
  split.
  { intros m rest acc w w1 Hc. split.
    - pose proof (with_context_lookups env userId m w) as [Hs _].
      unfold after in Hs. by rewrite Hc in Hs.
    - by rewrite gather_context_cons, Hc. }
  split.
  { intros ms w. destruct (gather_context_spec env userId ms [] w)
      as (sv & w' & Hg & Hsub & Hq). by exists sv, w'. }
  split.
  { intros m0 m1 rest w w1 c1 w2 H0 H1.
    destruct (gather_context_spec env userId rest [c1] w2)
      as (sv & w' & Hg & _ & _).
    exists ([c1] ++ sv), w'.
    rewrite gather_context_cons, H0, gather_context_cons, H1.
    split; [exact Hg|].
    split; [done|]. split; [by eapply with_context_memory|].
    intros d Hd. unfold execute_decision. by rewrite Hd. }
  split.
  { intros ms w Hfail exec.
    assert (Hthrow : forall m, m ∈ ms ->
              forall w0, (with_context env userId m w0).1 = Throw).
    { intros m Hm w0. destruct (Hfail m Hm) as [He|Hv].
      - by rewrite (with_context_embed_throws _ _ _ _ (He _)).
      - destruct (embedding_model env (log (EvEmbed (em_content m)) w0)
                    (em_content m)) as [v|] eqn:He.
        + by rewrite (with_context_search_throws _ _ _ _ _ He (Hv _ _)).
        + by rewrite (with_context_embed_throws _ _ _ _ He). }
    destruct (gather_context_all_throw env userId ms Hthrow [] w)
      as (w' & Hg & Hq).
    assert (Hrun : exec w = (Ok tt, w')).
    { subst exec. unfold reconcile. erewrite bind_ok by exact Hg. done. }
    assert (Hafter : after exec w = w') by (unfold after; by rewrite Hrun).
    rewrite Hafter. split; [done|]. split; [done|].
    apply only_lookups_events. by rewrite Hafter. }
  split. { intros m w. apply with_context_throws_iff. }
  split.
  { intros pre m post w wp wm. rewrite survivors_of_app. fold wp.
    rewrite survivors_of_cons. cbn [fst].
    pose proof (with_context_lookups env userId m wp) as [Hs _].
    unfold after in Hs. fold wm in Hs. subst wm.
    destruct (with_context env userId m wp) as [[c|] w1] eqn:Hc; cbn [fst snd] in *.
    - split; [done|]. intros c' [= <-].
      split; [by eapply with_context_memory|done].
    - split; [done|]. by intros c' [=]. }
  split.
  { intros ms w mwc w' exec.
    pose proof (survivors_of_lookups env userId ms w) as Hq. fold w' in Hq.
    pose proof (reconcile_survivors env userId conv ms w) as Hrec.
    fold mwc w' exec in Hrec.
    split. { exact (gather_context_survivors env userId ms [] w). }
    split. { by destruct Hq. }
    split.
    { intros Hnil. rewrite Hnil in Hrec. cbn [length Nat.eqb] in Hrec.
      split; [done|]. apply only_lookups_events.
      unfold after. by rewrite Hrec. }
    split.
    { intros Hne. destruct mwc; [done|]. exact Hrec. }
    split.
    { intros decisions w1 Hne Hdec. destruct mwc as [|c cs] eqn:Hm; [done|].
      rewrite Hrec. cbn [length Nat.eqb]. unfold decide_and_execute.
      erewrite bind_ok by exact Hdec. done. }
    intros Hempty new.
    destruct Hq as [(Ht & _ & _ & _ & Hclock & Hnext) (es & Htr & Hes)].
    assert (Hrun : exec w =
      (Ok tt,
       {| tbl_memories := tbl_memories w ++ new;
          tbl_memoryQueue := tbl_memoryQueue w';
          tbl_coreMemoryBlocks := tbl_coreMemoryBlocks w';
          tbl_messages := tbl_messages w';
          clock := clock w';
          next_id := (next_id w' + N.of_nat (length mwc))%N;
          trace := trace w ++ es ++ (EvInsertMemory <$> new) |})).
    { rewrite Hrec. subst new.
      destruct (Nat.eqb_spec (length mwc) 0) as [Hl|Hl].
      - rewrite Hl. apply nil_length_inv in Hl. rewrite Hl.
        cbn [added_facts fmap list_fmap].
        rewrite !app_nil_r, <- Ht, <- Htr, N.add_0_r. by destruct w'.
      - unfold decide_and_execute.
        erewrite bind_ok.
        2:{ unfold decide_operations. rewrite (uniqueExisting_empty _ Hempty).
            reflexivity. }
        rewrite execute_add_all.
        by rewrite Ht, Hclock, Hnext, Htr, <- app_assoc. }
    split. { unfold after. by rewrite Hrun. }
    split. { unfold after. by rewrite Hrun. }
    split. { apply added_facts_length. }
    split. { apply added_facts_content. }
    rewrite (events_of_app exec w (es ++ (EvInsertMemory <$> new)))
      by (unfold after; by rewrite Hrun).
    rewrite List.filter_app. rewrite (filter_none is_llm_call es).
    2:{ eapply Forall_impl; [exact Hes|]. by intros ? [? ?]. }
    apply filter_none, Forall_fmap, Forall_forall. by intros. }
  intros mwc d. split.
  - intros c Hc. unfold execute_decision. by rewrite Hc.
  - apply execute_decision_beyond.
Qed.

Lemma failed_candidates_are_dropped_witness :
  reconcile env_embed_down "user_1" "conv_1" [extracted "a"; extracted "b"]
    world_two_facts =
  (Ok tt,
   after (reconcile env_embed_down "user_1" "conv_1" [extracted "a"; extracted "b"])
     world_two_facts) /\
  (exists mwc w',
     gather_context env_bad_text "user_1" [extracted "bad"; extracted "good"] []
       world0 = (Ok mwc, w') /\
     JS.index mwc 0 =
       Some {| memory := extracted "good"; embedding := [1 # 2];
               similar := [] |}) /\
  m_content <$>
    tbl_memories
      (after (reconcile env_bad_text "user_1" "conv_1"
                [extracted "first"; extracted "bad"; extracted "last"])
         world0) = ["first"; "last"].
Proof.
  split; [|split].
  - refine (proj1 (proj1 (proj2 (proj2 (proj2 (proj2 (proj2
      (failed_candidates_are_dropped env_embed_down "user_1" "conv_1"))))))
      [extracted "a"; extracted "b"] world_two_facts _)).
    intros m _. left. reflexivity.
  - destruct (proj1 (proj2 (proj2 (proj2 (proj2
      (failed_candidates_are_dropped env_bad_text "user_1" "conv_1")))))
      (extracted "bad") (extracted "good") [] world0
      (log (EvEmbed "bad") world0)
      {| memory := extracted "good"; embedding := [1 # 2]; similar := [] |}
      (log (EvVectorSearch "user_1" 5)
         (log (EvEmbed "good") (log (EvEmbed "bad") world0)))
      eq_refl eq_refl) as (mwc & w' & Hg & Hi & _).
    exists mwc, w'. split; [exact Hg|]. exact Hi.
  - destruct (proj1 (proj2 (proj2 (proj2 (proj2 (proj2 (proj2 (proj2 (proj2
      (failed_candidates_are_dropped env_bad_text "user_1" "conv_1")))))))))
      [extracted "first"; extracted "bad"; extracted "last"] world0)
      as (_ & _ & _ & _ & _ & Hadd).
    destruct (Hadd eq_refl) as (_ & Ht & _ & Hc & _).
    rewrite Ht. cbn [tbl_memories world0 app]. rewrite Hc. reflexivity.
Defined.

(** ** Unknown labels in the extraction output *)






(** ** The direct insert path *)

Lemma addFromTool_duplicate env trim lower sha userId c t k w m :
  m ∈ tbl_memories w ->
  active_with_hash userId (computeContentHash trim lower sha c) m = true ->
  exists reason,
    addFromTool env trim lower sha userId c t k w = (Ok (Duplicate reason), w).
Proof.
  intros Hin Hm. unfold addFromTool. simp_action.
  destruct (List.find _ (tbl_memories w)) eqn:Hf; [eauto|].
  apply list_elem_of_In in Hin.
  pose proof (List.find_none _ _ Hf m Hin) as Hn. congruence.
Qed.

(** C9. Whatever the runtime's [trim], [toLowerCase] and digest are,
    [addFromTool] on content of which the owner has no active fact with the
    same normalized hash computes one embedding, inserts one active fact
    carrying the content hash and returns its id; a later call for the same
    owner with content that is equal after trimming and lower-casing, made
    while an active fact with that hash is stored (in particular right after
    the first call), reports a duplicate and leaves the world untouched: no
    insert and no embedding call. *)
Theorem addFromTool_rejects_duplicate (env : Env)
    (trim lower sha : string -> string)
    (userId : Id) (c1 c2 : string) (t1 t2 : MemoryType)
    (k1 k2 : option (list string)) (w : World) (v : Vec) :
  lower (trim c1) = lower (trim c2) ->
  List.find (active_with_hash userId (computeContentHash trim lower sha c1))
    (tbl_memories w) = None ->
  embedding_model env (log (EvEmbed c1) w) c1 = Some v ->
  let first := addFromTool env trim lower sha userId c1 t1 k1 in
  let w1 := after first w in
  let id := pretty (next_id w) in
  let saved :=
    with_contentHash (computeContentHash trim lower sha c1)
      (new_memory userId c1 v t1 k1 None (clock w) id) in
  first w = (Ok (Saved id), w1) /\
  tbl_memories w1 = tbl_memories w ++ [saved] /\
  active saved /\
  events_of first w = [EvEmbed c1; EvInsertMemory saved] /\
  (exists reason,
     addFromTool env trim lower sha userId c2 t2 k2 w1 =
       (Ok (Duplicate reason), w1)) /\
  (forall w2 m,
     m ∈ tbl_memories w2 ->
     active_with_hash userId (computeContentHash trim lower sha c1) m = true ->
     exists reason,
       addFromTool env trim lower sha userId c2 t2 k2 w2 =
         (Ok (Duplicate reason), w2)).
Proof.
  intros Hnorm Hfresh Hemb first w1 id saved.
  assert (Hhash : computeContentHash trim lower sha c2 =
                  computeContentHash trim lower sha c1).
  { unfold computeContentHash. by rewrite Hnorm. }
  assert (Hrun : first w =
    (Ok (Saved id),
     {| tbl_memories := tbl_memories w ++ [saved];
        tbl_memoryQueue := tbl_memoryQueue w;
        tbl_coreMemoryBlocks := tbl_coreMemoryBlocks w;
        tbl_messages := tbl_messages w;
        clock := clock w; next_id := N.succ (next_id w);
        trace := trace w ++ [EvEmbed c1; EvInsertMemory saved] |})).
  { subst first. unfold addFromTool. simp_action. rewrite Hfresh.
    unfold generateEmbedding, db_insert_memory. simp_action. rewrite Hemb. simp_action. world.
    by rewrite <- app_assoc. }
  assert (Hw1 : w1 = (first w).2) by done.
  rewrite Hrun in Hw1. simpl in Hw1.
  assert (Hsaved : active_with_hash userId
                     (computeContentHash trim lower sha c1) saved = true).
  { unfold active_with_hash. simpl. by rewrite !String.eqb_refl. }
  split; [by rewrite Hrun, Hw1|]. split; [by rewrite Hw1|]. split; [done|].
  split. { apply events_of_app. fold w1. by rewrite Hw1. }
  split.
  - rewrite <- Hhash in Hsaved.
    apply (addFromTool_duplicate env trim lower sha userId c2 t2 k2 w1 saved);
      [|done].
    rewrite Hw1. simpl. apply list_elem_of_In, List.in_or_app. right. by left.
  - intros w2 m Hin Hm. rewrite <- Hhash in Hm.
    by eapply addFromTool_duplicate.
Qed.

Lemma addFromTool_rejects_duplicate_witness :
  exists reason,
    addFromTool env_all_hits JS.trim JS.toLowerCase toy_digest "user_1"
      "  USER LIKES TEA " episodic None
      (after (addFromTool env_all_hits JS.trim JS.toLowerCase toy_digest "user_1"
                "User likes tea" semantic (Some ["tea"])) world0) =
    (Ok (Duplicate reason),
     after (addFromTool env_all_hits JS.trim JS.toLowerCase toy_digest "user_1"
              "User likes tea" semantic (Some ["tea"])) world0).
Proof.
  refine (proj1 (proj2 (proj2 (proj2 (proj2
    (addFromTool_rejects_duplicate env_all_hits JS.trim JS.toLowerCase toy_digest
       "user_1" "User likes tea" "  USER LIKES TEA " semantic episodic
       (Some ["tea"]) None world0 [1 # 2] _ _ _)))))); reflexivity.
Defined.

(** ** The conversation window *)

Lemma getConversationMessages_all conversationId w :
  getConversationMessages conversationId w =
    (Ok (List.filter (fun m => String.eqb (msg_conversationId m) conversationId)
           (tbl_messages w)), w).
Proof. reflexivity. Qed.

(** C7 on a conversation of 21 messages: [processQueue] hands all 21 turns
    to the extraction, and the prompt starts with the oldest turn, which a
    window of the last 20 would leave out. *)
Lemma extraction_window_not_capped :
  let all := turns (tbl_messages world_21_messages) in
  length all = 21%nat /\
  events_of (processQueue env_all_hits) world_21_messages =
    [EvPatchQueue "q1" processing None;
     EvGenerateExtraction
       {| coreMemoryText := ""; conversationText := render_conversation all |};
     EvPatchQueue "q1" completed (Some 50%Z)] /\
  render_conversation all <> render_conversation (drop 1 all) /\
  String.prefix "USER: Message 0" (render_conversation all) = true.
Proof.
  split; [reflexivity|]. split; [by vm_compute|].
  split; [|by vm_compute]. vm_compute. discriminate.
Qed.

(** ** A small logic for actions *)

Section ActionLogic.

Variable R : World -> World -> Prop.
Hypothesis R_refl : forall w, R w w.
Hypothesis R_trans : forall w1 w2 w3, R w1 w2 -> R w2 w3 -> R w1 w3.

Lemma preserves_ret {A} (a : A) : preserves R (ret a).
Proof using R_refl. intros w. apply R_refl. Qed.

Lemma preserves_throw {A} : preserves R (@throw A).
Proof using R_refl. intros w. apply R_refl. Qed.

Lemma preserves_get_world : preserves R get_world.
Proof using R_refl. intros w. apply R_refl. Qed.

Lemma preserves_Date_now : preserves R Date_now.
Proof using R_refl. intros w. apply R_refl. Qed.

Lemma preserves_bind {A B} (m : Action A) (k : A -> Action B) :
  preserves R m -> (forall a, preserves R (k a)) -> preserves R (bind m k).
Proof using R_trans.
  intros Hm Hk w. unfold after, bind. specialize (Hm w). unfold after in Hm.
  destruct (m w) as [[a|] w1]; simpl in *; [|done].
  eapply R_trans; [exact Hm|]. apply Hk.
Qed.

Lemma preserves_try_catch {A} (m h : Action A) :
  preserves R m -> preserves R h -> preserves R (try_catch m h).
Proof using R_trans.
  intros Hm Hh w. unfold after, try_catch. specialize (Hm w). unfold after in Hm.
  destruct (m w) as [[a|] w1]; simpl in *; [done|].
  eapply R_trans; [exact Hm|]. apply Hh.
Qed.

Lemma preserves_for_of {A} (xs : list A) (body : A -> Action unit) :
  (forall x, preserves R (body x)) -> preserves R (for_of xs body).
Proof using R_refl R_trans.
  intros Hb. induction xs as [|x xs IH]; simpl.
  - apply preserves_ret.
  - apply preserves_bind; [apply Hb | intros _; exact IH].
Qed.

Lemma preserves_modify (f : World -> World) :
  (forall w, R w (f w)) -> preserves R (modify f).
Proof. intros Hf w. apply Hf. Qed.

End ActionLogic.

Lemma never_throws_ret {A} (a : A) : never_throws (ret a).
Proof. intros w. by exists a. Qed.

Lemma never_throws_bind {A B} (m : Action A) (k : A -> Action B) :
  never_throws m -> (forall a, never_throws (k a)) -> never_throws (bind m k).
Proof.
  intros Hm Hk w. unfold bind. destruct (Hm w) as [a Ha].
  destruct (m w) as [[a'|] w1]; simpl in *; [|done]. apply Hk.
Qed.

Lemma never_throws_try_catch {A} (m h : Action A) :
  never_throws h -> never_throws (try_catch m h).
Proof.
  intros Hh w. unfold try_catch.
  destruct (m w) as [[a|] w1]; simpl; [by exists a|]. apply Hh.
Qed.

Lemma never_throws_for_of {A} (xs : list A) (body : A -> Action unit) :
  (forall x, never_throws (body x)) -> never_throws (for_of xs body).
Proof.
  intros Hb. induction xs as [|x xs IH]; simpl.
  - apply never_throws_ret.
  - apply never_throws_bind; [apply Hb | intros _; exact IH].
Qed.

Lemma never_throws_run {A} (m : Action A) w :
  never_throws m -> exists a, m w = (Ok a, after m w).
Proof.
  intros H. destruct (H w) as [a Ha]. exists a. unfold after.
  destruct (m w) as [r w']. simpl in *. by subst.
Qed.

(** ** The pipeline keeps the history of the store *)

Lemma ages_to_refl m : ages_to m m.
Proof. by split. Qed.

Lemma ages_to_trans m1 m2 m3 : ages_to m1 m2 -> ages_to m2 m3 -> ages_to m1 m3.
Proof. intros [E1 S1] [E2 S2]. split; [congruence | auto]. Qed.

Lemma ages_to_set_invalidAt t m : ages_to m (set_invalidAt t m).
Proof. split; [done|]. intros _. simpl. discriminate. Qed.

Lemma keeps_history_refl tbl : keeps_history tbl tbl.
Proof.
  exists tbl, []. split; [by rewrite app_nil_r|].
  apply Forall2_same_length_lookup_2; [done|].
  intros i x y Hx Hy. rewrite Hx in Hy. injection Hy as <-. apply ages_to_refl.
Qed.

Lemma Forall2_ages_to_trans l1 l2 l3 :
  Forall2 ages_to l1 l2 -> Forall2 ages_to l2 l3 -> Forall2 ages_to l1 l3.
Proof.
  intros H12. revert l3. induction H12 as [|x y l1 l2 Hxy _ IH]; intros l3 H23.
  - by inversion H23.
  - inversion H23 as [|? z ? l3' Hyz Hrest]; subst. constructor.
    + by eapply ages_to_trans.
    + by apply IH.
Qed.

Lemma keeps_history_trans t1 t2 t3 :
  keeps_history t1 t2 -> keeps_history t2 t3 -> keeps_history t1 t3.
Proof.
  intros (o1 & n1 & -> & H1) (o2 & n2 & -> & H2).
  apply Forall2_app_inv_l in H2 as (o2a & o2b & Ha & Hb & ->).
  exists o2a, (o2b ++ n2). split; [by rewrite app_assoc|].
  by eapply Forall2_ages_to_trans.
Qed.

Lemma keeps_history_patch id t tbl : keeps_history tbl (patch_invalidAt id t tbl).
Proof.
  exists (patch_invalidAt id t tbl), []. split; [by rewrite app_nil_r|].
  unfold patch_invalidAt. induction tbl as [|m tbl IH]; simpl; constructor; [|done].
  destruct (String.eqb (m_id m) id); [apply ages_to_set_invalidAt | apply ages_to_refl].
Qed.

Lemma keeps_history_insert tbl m : keeps_history tbl (tbl ++ [m]).
Proof.
  destruct (keeps_history_refl tbl) as (old & new & Heq & Hf).
  exists tbl, [m]. split; [done|].
  apply Forall2_same_length_lookup_2; [done|].
  intros i x y Hx Hy. rewrite Hx in Hy. injection Hy as <-. apply ages_to_refl.
Qed.

Lemma pipeline_step_refl w : pipeline_step w w.
Proof.
  split; [apply keeps_history_refl|]. repeat split; try done.
  exists []. by rewrite app_nil_r.
Qed.

Lemma pipeline_step_trans w1 w2 w3 :
  pipeline_step w1 w2 -> pipeline_step w2 w3 -> pipeline_step w1 w3.
Proof.
  intros (H1 & Q1 & M1 & C1 & B1 & (e1 & T1)) (H2 & Q2 & M2 & C2 & B2 & (e2 & T2)).
  split; [by eapply keeps_history_trans|].
  repeat split; try congruence.
  exists (e1 ++ e2). by rewrite T2, T1, app_assoc.
Qed.

Lemma pipeline_step_log e w : pipeline_step w (log e w).
Proof.
  split; [apply keeps_history_refl|]. repeat split; try done. by exists [e].
Qed.

Lemma pipeline_step_next_id n w : pipeline_step w (with_next_id n w).
Proof.
  split; [apply keeps_history_refl|]. repeat split; try done.
  exists []. simpl. by rewrite app_nil_r.
Qed.

Lemma pipeline_step_patch id t w :
  pipeline_step w (with_memories (patch_invalidAt id t) w).
Proof.
  split; [apply keeps_history_patch|]. repeat split; try done.
  exists []. simpl. by rewrite app_nil_r.
Qed.

Lemma pipeline_step_insert m w :
  pipeline_step w (with_memories (fun tbl => tbl ++ [m]) w).
Proof.
  split; [apply keeps_history_insert|]. repeat split; try done.
  exists []. simpl. by rewrite app_nil_r.
Qed.

Lemma pipeline_step_core id c t w :
  pipeline_step w
    (with_coreMemoryBlocks
       (List.map (fun b => if String.eqb (cb_id b) id
                           then set_core_content c t b else b)) w).
Proof.
  split; [apply keeps_history_refl|]. repeat split; try done.
  - simpl. induction (tbl_coreMemoryBlocks w) as [|b l IH]; [done|].
    cbn [List.map]. rewrite !fmap_cons. f_equal; [|exact IH].
    by destruct (String.eqb (cb_id b) id).
  - exists []. simpl. by rewrite app_nil_r.
Qed.

Create HintDb step.

Ltac step_tac :=
  repeat first
    [ solve [auto with step nocore]
    | apply (preserves_ret _ pipeline_step_refl)
    | apply (preserves_throw _ pipeline_step_refl)
    | apply (preserves_get_world _ pipeline_step_refl)
    | apply (preserves_Date_now _ pipeline_step_refl)
    | apply preserves_modify; intros ?;
      first [ apply pipeline_step_log | apply pipeline_step_next_id
            | apply pipeline_step_patch | apply pipeline_step_insert
            | apply pipeline_step_core ]
    | apply (preserves_bind _ pipeline_step_trans); [|intros ?]
    | apply (preserves_try_catch _ pipeline_step_trans)
    | apply (preserves_for_of _ pipeline_step_refl pipeline_step_trans); intros ?
    | match goal with
      | |- preserves _ (match ?x with _ => _ end) => destruct x
      | |- preserves _ (emit _) => unfold emit
      end
    | assumption ].

Lemma step_new_id : preserves pipeline_step new_id.
Proof. intros w. unfold after, new_id. simpl. apply pipeline_step_next_id. Qed.
#[local] Hint Resolve step_new_id : step.

Lemma step_generateEmbedding env text :
  preserves pipeline_step (generateEmbedding env text).
Proof. unfold generateEmbedding. step_tac. Qed.
#[local] Hint Resolve step_generateEmbedding : step.

Lemma step_vectorSearch env v n u :
  preserves pipeline_step (vectorSearch env v n u).
Proof. unfold vectorSearch. step_tac. Qed.
#[local] Hint Resolve step_vectorSearch : step.

Lemma step_getById id : preserves pipeline_step (getById id).
Proof. unfold getById. step_tac. Qed.
#[local] Hint Resolve step_getById : step.

Lemma step_addInternal u c e t k s :
  preserves pipeline_step (addInternal u c e t k s).
Proof.
  unfold addInternal, db_insert_memory. step_tac.
Qed.
#[local] Hint Resolve step_addInternal : step.

Lemma step_invalidateInternal id : preserves pipeline_step (invalidateInternal id).
Proof. unfold invalidateInternal, db_patch_invalidAt. step_tac. Qed.
#[local] Hint Resolve step_invalidateInternal : step.

Lemma step_updateCoreMemoryInternal u l c :
  preserves pipeline_step (updateCoreMemoryInternal u l c).
Proof. unfold updateCoreMemoryInternal. step_tac. Qed.
#[local] Hint Resolve step_updateCoreMemoryInternal : step.

Lemma step_similar_loop hits acc : preserves pipeline_step (similar_loop hits acc).
Proof.
  intros w. unfold after.
  destruct (similar_loop_spec hits acc w) as [res [-> _]]. apply pipeline_step_refl.
Qed.
#[local] Hint Resolve step_similar_loop : step.

Lemma step_search_loop hits acc : preserves pipeline_step (search_loop hits acc).
Proof.
  intros w. unfold after.
  destruct (search_loop_spec hits acc w) as [res [-> _]]. apply pipeline_step_refl.
Qed.
#[local] Hint Resolve step_search_loop : step.

Lemma step_with_context env u m : preserves pipeline_step (with_context env u m).
Proof.
  unfold with_context. step_tac.
Qed.
#[local] Hint Resolve step_with_context : step.

Lemma step_gather_context env u ms :
  forall acc, preserves pipeline_step (gather_context env u ms acc).
Proof.
  induction ms as [|m ms IH]; intros acc; cbn [gather_context]; step_tac;
    apply IH.
Qed.
#[local] Hint Resolve step_gather_context : step.

Lemma step_generate_extraction env p : preserves pipeline_step (generate_extraction env p).
Proof. unfold generate_extraction. step_tac. Qed.
#[local] Hint Resolve step_generate_extraction : step.

Lemma step_generate_decisions env p : preserves pipeline_step (generate_decisions env p).
Proof. unfold generate_decisions. step_tac. Qed.
#[local] Hint Resolve step_generate_decisions : step.

Lemma step_decide_operations env mwc : preserves pipeline_step (decide_operations env mwc).
Proof. unfold decide_operations. step_tac. Qed.
#[local] Hint Resolve step_decide_operations : step.

Lemma step_execute_action env u c d entry :
  preserves pipeline_step (execute_action env u c d entry).
Proof. unfold execute_action. step_tac. Qed.
#[local] Hint Resolve step_execute_action : step.

Lemma step_execute_decision env u c mwc d :
  preserves pipeline_step (execute_decision env u c mwc d).
Proof. unfold execute_decision. step_tac. Qed.
#[local] Hint Resolve step_execute_decision : step.

Lemma step_execute_decisions env u c mwc ds :
  preserves pipeline_step (execute_decisions env u c mwc ds).
Proof. unfold execute_decisions. step_tac. Qed.
#[local] Hint Resolve step_execute_decisions : step.

Lemma step_reconcile env u c ms : preserves pipeline_step (reconcile env u c ms).
Proof. unfold reconcile, decide_and_execute. step_tac. Qed.
#[local] Hint Resolve step_reconcile : step.

Lemma step_apply_core_updates u us : preserves pipeline_step (apply_core_updates u us).
Proof. unfold apply_core_updates. step_tac. Qed.
#[local] Hint Resolve step_apply_core_updates : step.

Lemma step_extractAndStoreMemories env u c msgs :
  preserves pipeline_step (extractAndStoreMemories env u c msgs).
Proof. unfold extractAndStoreMemories, getCoreMemoryBlocks. step_tac. Qed.

(** Nothing escapes the handler. *)

Lemma never_throws_updateCoreMemoryInternal u l c :
  never_throws (updateCoreMemoryInternal u l c).
Proof.
  intros w. unfold updateCoreMemoryInternal. simp_action.
  destruct (List.find _ (tbl_coreMemoryBlocks w)); eauto.
Qed.

Lemma never_throws_apply_core_updates u us : never_throws (apply_core_updates u us).
Proof.
  unfold apply_core_updates. apply never_throws_for_of. intros x.
  destruct (JS.includes validLabels (cu_label x)).
  - apply never_throws_updateCoreMemoryInternal.
  - apply never_throws_ret.
Qed.

Lemma never_throws_gather_context env u ms acc :
  never_throws (gather_context env u ms acc).
Proof.
  intros w. destruct (gather_context_spec env u ms acc w) as (sv & w' & -> & _).
  eauto.
Qed.

Lemma never_throws_decide_operations env mwc : never_throws (decide_operations env mwc).
Proof.
  unfold decide_operations. destruct (length (uniqueExisting mwc) =? 0)%nat.
  - apply never_throws_ret.
  - apply never_throws_try_catch, never_throws_ret.
Qed.

Lemma never_throws_execute_decision env u c mwc d :
  never_throws (execute_decision env u c mwc d).
Proof.
  unfold execute_decision. destruct (JS.index mwc (new_memory_index d)).
  - apply never_throws_try_catch, never_throws_ret.
  - apply never_throws_ret.
Qed.

Lemma never_throws_execute_decisions env u c mwc ds :
  never_throws (execute_decisions env u c mwc ds).
Proof. apply never_throws_for_of. intros d. apply never_throws_execute_decision. Qed.

Lemma never_throws_reconcile env u c ms : never_throws (reconcile env u c ms).
Proof.
  unfold reconcile. apply never_throws_bind; [apply never_throws_gather_context|].
  intros mwc. destruct (length mwc =? 0)%nat; [apply never_throws_ret|].
  unfold decide_and_execute.
  apply never_throws_bind; [apply never_throws_decide_operations|].
  intros ds. apply never_throws_execute_decisions.
Qed.

Lemma never_throws_extractAndStoreMemories env u c msgs :
  never_throws (extractAndStoreMemories env u c msgs).
Proof.
  unfold extractAndStoreMemories.
  apply never_throws_bind; [intros w; by eexists|]. intros blocks.
  apply never_throws_bind; [apply never_throws_try_catch, never_throws_ret|].
  intros [e|]; [|apply never_throws_ret].
  destruct (negb (0 <? length (memories e))%nat &&
            negb (0 <? length (core_memory_updates e))%nat);
    [apply never_throws_ret|].
  apply never_throws_bind; [apply never_throws_apply_core_updates|]. intros _.
  destruct (negb (0 <? length (memories e))%nat); [apply never_throws_ret|].
  apply never_throws_reconcile.
Qed.

Lemma extractAndStoreMemories_never_throws_aux env userId conv messages w :
  extractAndStoreMemories env userId conv messages w =
    (Ok tt, after (extractAndStoreMemories env userId conv messages) w).
Proof.
  destruct (never_throws_run _ w
              (never_throws_extractAndStoreMemories env userId conv messages))
    as [[] H].
  exact H.
Qed.

(** X1. Whatever the embedding model, the vector index and the LLM do,
    [extractAndStoreMemories] returns normally: every failure is caught
    inside the handler. *)
Theorem extractAndStoreMemories_never_throws (env : Env) (userId conv : Id)
    (messages : list (string * string)) (w : World) :
  extractAndStoreMemories env userId conv messages w =
    (Ok tt, after (extractAndStoreMemories env userId conv messages) w).
Proof.
  destruct (never_throws_run _ w
              (never_throws_extractAndStoreMemories env userId conv messages))
    as [[] H].
  exact H.
Qed.

Lemma keeps_history_lookup tbl tbl' i m :
  keeps_history tbl tbl' -> tbl !! i = Some m ->
  exists m', tbl' !! i = Some m' /\ ages_to m m'.
Proof.
  intros (old & new & -> & Hf) Hi.
  destruct (Forall2_lookup_l _ _ _ _ _ Hf Hi) as (m' & Hm' & Hage).
  exists m'. split; [|done]. by apply lookup_app_l_Some.
Qed.

Lemma keeps_history_length tbl tbl' :
  keeps_history tbl tbl' -> (length tbl <= length tbl')%nat.
Proof.
  intros (old & new & -> & Hf). rewrite length_app.
  apply Forall2_length in Hf. lia.
Qed.

(** X2. A run of [extractAndStoreMemories] never deletes a stored fact and
    never changes anything of it but the invalidation stamp: every fact keeps
    its position, id, owner, content, embedding, type and creation time, a
    fact that was invalidated stays invalidated, and new facts are appended.
    The run leaves the queue, the messages and the clock alone and keeps the
    id, owner and label of every core memory block. *)
Theorem extractAndStoreMemories_keeps_history (env : Env) (userId conv : Id)
    (messages : list (string * string)) (w : World) :
  let w' := after (extractAndStoreMemories env userId conv messages) w in
  (length (tbl_memories w) <= length (tbl_memories w'))%nat /\
  (forall i m, tbl_memories w !! i = Some m ->
     exists m', tbl_memories w' !! i = Some m' /\
       m_id m' = m_id m /\ m_userId m' = m_userId m /\
       m_content m' = m_content m /\ m_embedding m' = m_embedding m /\
       m_type m' = m_type m /\ m_createdAt m' = m_createdAt m /\
       (m_invalidAt m <> None -> m_invalidAt m' <> None)) /\
  tbl_memoryQueue w' = tbl_memoryQueue w /\
  tbl_messages w' = tbl_messages w /\
  clock w' = clock w /\
  (fun b => (cb_id b, cb_userId b, cb_label b)) <$> tbl_coreMemoryBlocks w' =
    (fun b => (cb_id b, cb_userId b, cb_label b)) <$> tbl_coreMemoryBlocks w.
Proof.
  intros w'.
  destruct (step_extractAndStoreMemories env userId conv messages w)
    as (Hh & Hq & Hm & Hc & Hb & _).
  fold w' in Hh, Hq, Hm, Hc, Hb.
  split; [by apply keeps_history_length|].
  split; [|done].
  intros i m Hi. destruct (keeps_history_lookup _ _ _ _ Hh Hi) as (m' & Hm' & He & Hs).
  exists m'. split; [done|].
  assert (Hf : forall {B} (f : Memory -> B),
             (forall x, f (erase_invalidAt x) = f x) -> f m' = f m).
  { intros B f Hfx. by rewrite <- (Hfx m'), He, Hfx. }
  repeat split; try (apply Hf; reflexivity). done.
Qed.

(** ** Decisions that change nothing *)

Lemma index_out_of_range {A} (l : list A) (i : Z) :
  (i < 0 \/ Z.of_nat (length l) <= i)%Z -> JS.index l i = None.
Proof.
  intros H. unfold JS.index. destruct (Z.ltb_spec i 0); [done|].
  apply lookup_ge_None. lia.
Qed.

(** X3. A decision whose [new_memory_index] is negative or not below the
    size of the batch is skipped, whatever its action: executing it changes
    nothing, and the decisions after it are executed as if it were absent. *)
Theorem out_of_range_decision_skipped (env : Env) (userId conv : Id)
    (mwc : list MemoryWithContext) (d : MemoryDecision)
    (rest : list MemoryDecision) (w : World) :
  (new_memory_index d < 0 \/ Z.of_nat (length mwc) <= new_memory_index d)%Z ->
  execute_decision env userId conv mwc d w = (Ok tt, w) /\
  execute_decisions env userId conv mwc (d :: rest) w =
    execute_decisions env userId conv mwc rest w.
Proof.
  intros Hr.
  assert (H : execute_decision env userId conv mwc d w = (Ok tt, w)).
  { unfold execute_decision. by rewrite (index_out_of_range _ _ Hr). }
  split; [done|]. unfold execute_decisions. cbn [for_of].
  by erewrite bind_ok by exact H.
Qed.

Lemma out_of_range_decision_skipped_witness :
  execute_decisions env_all_hits "user_1" "conv_1" [candidateX]
    [decision 99 ADD (Some "Ghost memory") None; decision 0 ADD None None]
    world_two_facts =
  execute_decisions env_all_hits "user_1" "conv_1" [candidateX]
    [decision 0 ADD None None] world_two_facts.
Proof.
  refine (proj2 (out_of_range_decision_skipped env_all_hits "user_1" "conv_1"
                   [candidateX] (decision 99 ADD (Some "Ghost memory") None)
                   [decision 0 ADD None None] world_two_facts _)).
  right. simpl. lia.
Defined.

(** X4. A NOOP decision, an INVALIDATE decision without a non-empty target
    id, and an UPDATE decision that lacks a non-empty target id or a
    non-empty content change nothing: no store write, no embedding call, and
    in particular an incomplete UPDATE is not turned into an ADD. *)
Theorem incomplete_decision_is_noop (env : Env) (userId conv : Id)
    (mwc : list MemoryWithContext) (d : MemoryDecision) (w : World) :
  action d = NOOP \/
  (action d = INVALIDATE /\ JS.truthy_str (target_memory_id d) = false) \/
  (action d = UPDATE /\
   (JS.truthy_str (target_memory_id d) = false \/
    JS.truthy_str (content d) = false)) ->
  execute_decision env userId conv mwc d w = (Ok tt, w).
Proof.
  intros H. unfold execute_decision.
  destruct (JS.index mwc (new_memory_index d)) as [entry|]; [|done].
  unfold try_catch, execute_action.
  destruct H as [-> | [[-> Ht] | [-> [Ht | Hc]]]]; try done.
  - by rewrite Ht.
  - by rewrite Ht.
  - rewrite Hc. by rewrite andb_false_r.
Qed.

Lemma incomplete_decision_is_noop_witness :
  execute_decision env_all_hits "user_1" "conv_1" [candidateX]
    (decision 0 UPDATE (Some "Merged content") None) world_two_facts =
  (Ok tt, world_two_facts).
Proof.
  apply (incomplete_decision_is_noop env_all_hits "user_1" "conv_1" [candidateX]
           (decision 0 UPDATE (Some "Merged content") None) world_two_facts).
  right. right. split; [reflexivity|]. left. reflexivity.
Defined.

(** ** INVALIDATE *)

(** X5. An INVALIDATE decision on a candidate of the batch with a
    non-empty target id makes exactly one store write when the target exists:
    the patch that stamps [invalidAt] with the current time on the target; no
    fact is inserted and no embedding is computed.  When no fact has the
    target id the patch throws, the error is caught and the world is left
    unchanged. *)
Theorem invalidate_decision_patches_target (env : Env) (userId conv : Id)
    (mwc : list MemoryWithContext) (d : MemoryDecision)
    (entry : MemoryWithContext) (tid : string) (w : World) :
  action d = INVALIDATE ->
  target_memory_id d = Some tid -> tid <> EmptyString ->
  JS.index mwc (new_memory_index d) = Some entry ->
  let exec := execute_decision env userId conv mwc d in
  (forall target,
     db_get tid (tbl_memories w) = Some target ->
     exec w = (Ok tt, after exec w) /\
     events_of exec w = [EvPatchMemory tid (clock w)] /\
     tbl_memories (after exec w) = patch_invalidAt tid (clock w) (tbl_memories w) /\
     length (tbl_memories (after exec w)) = length (tbl_memories w) /\
     db_get tid (tbl_memories (after exec w)) =
       Some (set_invalidAt (clock w) target)) /\
  (db_get tid (tbl_memories w) = None -> exec w = (Ok tt, w)).
Proof.
  intros Ha Ht Hne Hi exec.
  assert (Hexec : exec w =
    match db_get tid (tbl_memories w) with
    | Some _ =>
        (Ok tt, log (EvPatchMemory tid (clock w))
                  (with_memories (patch_invalidAt tid (clock w)) w))
    | None => (Ok tt, w)
    end).
  { subst exec. unfold execute_decision. rewrite Hi.
    unfold try_catch, execute_action. rewrite Ha, Ht. simpl.
    destruct (String.eqb_spec tid EmptyString) as [|_]; [done|]. simpl.
    unfold invalidateInternal, db_patch_invalidAt. simp_action.
    by destruct (db_get tid (tbl_memories w)). }
  split.
  - intros target Hg. rewrite Hg in Hexec.
    assert (Hafter : after exec w =
                     log (EvPatchMemory tid (clock w))
                       (with_memories (patch_invalidAt tid (clock w)) w)).
    { unfold after. by rewrite Hexec. }
    rewrite Hafter. split; [done|].
    split. { apply events_of_app. by rewrite Hafter. }
    split; [done|]. simpl.
    split. { unfold patch_invalidAt. by rewrite List.length_map. }
    by apply db_get_patch_invalidAt.
  - intros Hg. by rewrite Hg in Hexec.
Qed.

Lemma invalidate_decision_patches_target_witness :
  events_of
    (execute_decision env_all_hits "user_1" "conv_1" [candidateX]
       (decision 0 INVALIDATE None (Some "F"))) world_two_facts =
  [EvPatchMemory "F" 7].
Proof.
  refine (proj1 (proj2 (proj1
    (invalidate_decision_patches_target env_all_hits "user_1" "conv_1"
       [candidateX] (decision 0 INVALIDATE None (Some "F")) candidateX "F"
       world_two_facts _ _ _ _)
    (fact "F" "Partner withdraws during arguments" None) _)));
    try reflexivity. discriminate.
Defined.

(** ** The decision call fails *)

Lemma decisionSchema_unknown_action raw r :
  r ∈ raw -> parse_action (rd_action r) = None -> decisionSchema raw = None.
Proof.
  intros Hin Hbad. unfold decisionSchema. apply mapM_None.
  apply Exists_exists. exists r. split; [done|].
  unfold parse_decision. by rewrite Hbad.
Qed.

(** X6. When similar facts exist and the decision call throws, or returns
    a decision whose action is not ADD, UPDATE, INVALIDATE or NOOP, the step
    falls back to one ADD decision per candidate with the candidate's own
    content and the reason "Decision LLM call failed, defaulting to ADD";
    executing the fallback inserts one active fact per candidate without any
    further call, so nothing that was extracted is lost. *)
Theorem decision_failure_defaults_to_add (env : Env) (userId conv : Id)
    (mwc : list MemoryWithContext) (w : World) :
  existingByID mwc <> ∅ ->
  let p := decision_prompt mwc in
  let w1 := log (EvGenerateDecision p) w in
  let fallback :=
    imap (add_decision "Decision LLM call failed, defaulting to ADD") mwc in
  let new := added_facts userId conv (clock w) (next_id w) mwc in
  (llm_decision env w1 p = None \/
   exists raw r, llm_decision env w1 p = Some raw /\ r ∈ raw /\
                 parse_action (rd_action r) = None) ->
  decide_operations env mwc w = (Ok fallback, w1) /\
  events_of (decide_and_execute env userId conv mwc) w =
    EvGenerateDecision p :: (EvInsertMemory <$> new) /\
  tbl_memories (after (decide_and_execute env userId conv mwc) w) =
    tbl_memories w ++ new /\
  length new = length mwc /\ Forall active new.
Proof.
  intros Hne p w1 fallback new Hfail.
  assert (Hlen : (length (uniqueExisting mwc) =? 0)%nat = false).
  { apply Nat.eqb_neq. intros Hz. apply Hne.
    unfold uniqueExisting in Hz. rewrite length_fmap in Hz.
    apply length_zero_iff_nil in Hz. by apply map_to_list_empty_iff in Hz. }
  assert (Hdec : decide_operations env mwc w = (Ok fallback, w1)).
  { unfold decide_operations. rewrite Hlen. fold (decision_prompt mwc). fold p.
    unfold try_catch, generate_decisions. simp_action. fold w1.
    destruct Hfail as [-> | (raw & r & -> & Hin & Hbad)]; [done|].
    by rewrite (decisionSchema_unknown_action raw r Hin Hbad). }
  assert (Hrun : decide_and_execute env userId conv mwc w =
    (Ok tt,
     {| tbl_memories := tbl_memories w ++ new;
        tbl_memoryQueue := tbl_memoryQueue w;
        tbl_coreMemoryBlocks := tbl_coreMemoryBlocks w;
        tbl_messages := tbl_messages w;
        clock := clock w;
        next_id := (next_id w + N.of_nat (length mwc))%N;
        trace := (trace w ++ [EvGenerateDecision p]) ++ (EvInsertMemory <$> new) |})).
  { unfold decide_and_execute. erewrite bind_ok by exact Hdec.
    subst fallback. rewrite <- add_all_imap. by rewrite execute_add_all. }
  split; [done|].
  split. { apply events_of_app. unfold after. rewrite Hrun. simpl.
           by rewrite <- app_assoc. }
  split. { unfold after. by rewrite Hrun. }
  split; [apply added_facts_length | apply added_facts_active].
Qed.

Lemma decision_failure_defaults_to_add_witness :
  events_of (decide_and_execute env_decision_down "user_1" "conv_1" [candidateF])
    world_two_facts =
  [EvGenerateDecision (decision_prompt [candidateF]);
   EvInsertMemory
     (new_memory "user_1" "Partner withdraws when arguing" [1 # 3] semantic
        (Some []) (Some "conv_1") 7 "2")].
Proof.
  refine (proj1 (proj2
    (decision_failure_defaults_to_add env_decision_down "user_1" "conv_1"
       [candidateF] world_two_facts _ _))).
  - intros H. apply (f_equal (fun m => m !! "F")) in H. vm_compute in H.
    discriminate.
  - left. reflexivity.
Defined.

(** ** Extractions that store nothing, and core-only extractions *)

Lemma extractionSchema_unknown_type raw r :
  r ∈ raw_memories raw -> parse_type (rm_type r) = None ->
  extractionSchema raw = None.
Proof.
  intros Hin Hbad. unfold extractionSchema.
  assert (Hnone : mapM parse_memory (raw_memories raw) = None).
  { apply mapM_None. apply Exists_exists. exists r. split; [done|].
    unfold parse_memory. by rewrite Hbad. }
  by rewrite Hnone.
Qed.

(** X7. When the extraction call throws, when a memory of its output has
    a type other than episodic, semantic or procedural, or when the output
    has neither memories nor core memory updates, [extractAndStoreMemories]
    returns normally right after the call: no core block is touched, nothing
    is embedded or searched, no fact is written. *)
Theorem failed_or_empty_extraction_stores_nothing (env : Env) (userId conv : Id)
    (messages : list (string * string)) (w : World) :
  let p := extraction_prompt userId messages w in
  let w1 := log (EvGenerateExtraction p) w in
  llm_extraction env w1 p = None \/
  (exists raw r, llm_extraction env w1 p = Some raw /\ r ∈ raw_memories raw /\
                 parse_type (rm_type r) = None) \/
  llm_extraction env w1 p =
    Some {| raw_memories := []; raw_core_memory_updates := [] |} ->
  extractAndStoreMemories env userId conv messages w = (Ok tt, w1).
Proof.
  intros p w1 H.
  unfold extractAndStoreMemories, getCoreMemoryBlocks, generate_extraction.
  simp_action. fold (extraction_prompt userId messages w). fold p. fold w1.
  destruct H as [-> | [(raw & r & -> & Hin & Hbad) | ->]]; [done| |done].
  by rewrite (extractionSchema_unknown_type raw r Hin Hbad).
Qed.

Lemma failed_or_empty_extraction_stores_nothing_witness :
  extractAndStoreMemories env_extraction_down "user_1" "conv_1"
    [("user", "hello")] world_two_facts =
  (Ok tt,
   log (EvGenerateExtraction
          (extraction_prompt "user_1" [("user", "hello")] world_two_facts))
     world_two_facts).
Proof.
  apply (failed_or_empty_extraction_stores_nothing env_extraction_down "user_1"
           "conv_1" [("user", "hello")] world_two_facts).
  left. reflexivity.
Defined.

Lemma apply_core_updates_memories u us w :
  tbl_memories (after (apply_core_updates u us) w) = tbl_memories w /\
  next_id (after (apply_core_updates u us) w) = next_id w /\
  Forall (fun e => match e with EvPatchCoreMemory _ _ _ => True | _ => False end)
    (events_of (apply_core_updates u us) w).
Proof.
  revert w. induction us as [|x us IH]; intros w.
  - unfold events_of, after. simpl. by rewrite drop_all.
  - unfold apply_core_updates in *. cbn [for_of].
    assert (Hx : exists w1,
      (if JS.includes validLabels (cu_label x)
       then updateCoreMemoryInternal u (cu_label x) (cu_content x)
       else ret tt) w = (Ok tt, w1) /\
      tbl_memories w1 = tbl_memories w /\ next_id w1 = next_id w /\
      exists es, trace w1 = trace w ++ es /\
        Forall (fun e => match e with EvPatchCoreMemory _ _ _ => True
                                 | _ => False end) es).
    { destruct (JS.includes validLabels (cu_label x)).
      - unfold updateCoreMemoryInternal. simp_action.
        destruct (List.find _ (tbl_coreMemoryBlocks w)) as [b|].
        + eexists. split; [reflexivity|]. world. repeat split.
          eexists. split; [reflexivity|]. by repeat constructor.
        + exists w. repeat split. exists []. by rewrite app_nil_r.
      - exists w. repeat split. exists []. by rewrite app_nil_r. }
    destruct Hx as (w1 & Hrun & Hm & Hn & es & Ht & Hes).
    destruct (IH w1) as (IHm & IHn & IHe).
    unfold events_of, after in *. unfold bind. rewrite Hrun.
    split; [congruence|]. split; [congruence|].
    set (w2 := (for_of us _ w1).2) in *.
    assert (Hpre : exists es2, trace w2 = trace w1 ++ es2).
    { destruct (step_apply_core_updates u us w1) as (_ & _ & _ & _ & _ & Hes2).
      exact Hes2. }
    destruct Hpre as [es2 Ht2]. rewrite Ht2, drop_app_length in IHe.
    rewrite Ht2, Ht, <- app_assoc, drop_app_length. by apply Forall_app.
Qed.

(** X8. When the extraction has core memory updates and no memory, only
    the core blocks are patched: the handler stops after the updates, makes
    no embedding call, no vector search and no decision call, and leaves the
    memories table as it was. *)
Theorem core_only_extraction_skips_reconciliation (env : Env) (userId conv : Id)
    (messages : list (string * string)) (w : World) (raw : RawExtraction)
    (e : Extraction) :
  let p := extraction_prompt userId messages w in
  let w1 := log (EvGenerateExtraction p) w in
  llm_extraction env w1 p = Some raw ->
  extractionSchema raw = Some e ->
  memories e = [] -> core_memory_updates e <> [] ->
  let exec := extractAndStoreMemories env userId conv messages in
  after exec w = after (apply_core_updates userId (core_memory_updates e)) w1 /\
  tbl_memories (after exec w) = tbl_memories w /\
  exists patches,
    events_of exec w = EvGenerateExtraction p :: patches /\
    Forall (fun ev => match ev with EvPatchCoreMemory _ _ _ => True
                                | _ => False end) patches.
Proof.
  intros p w1 Hllm Hschema Hmem Hcore exec.
  destruct (never_throws_run _ w1
              (never_throws_apply_core_updates userId (core_memory_updates e)))
    as [[] Happly].
  assert (Hrun : exec w =
            (Ok tt, after (apply_core_updates userId (core_memory_updates e)) w1)).
  { subst exec.
    unfold extractAndStoreMemories, getCoreMemoryBlocks, generate_extraction.
    simp_action. fold (extraction_prompt userId messages w). fold p. fold w1.
    rewrite Hllm, Hschema, Hmem. simpl.
    destruct (core_memory_updates e) as [|x us] eqn:Hus; [done|]. simpl.
    rewrite <- Hus in *. by rewrite Happly. }
  assert (Hafter : after exec w =
            after (apply_core_updates userId (core_memory_updates e)) w1).
  { unfold after at 1. by rewrite Hrun. }
  destruct (apply_core_updates_memories userId (core_memory_updates e) w1)
    as (Hm & _ & Hev).
  split; [done|]. split; [by rewrite Hafter, Hm|].
  exists (events_of (apply_core_updates userId (core_memory_updates e)) w1).
  split; [|done].
  destruct (step_apply_core_updates userId (core_memory_updates e) w1)
    as (_ & _ & _ & _ & _ & (es & Hes)).
  rewrite (events_of_app _ _ _ Hes). apply events_of_app.
  rewrite Hafter, Hes. subst w1. simpl. by rewrite <- app_assoc.
Qed.

Lemma core_only_extraction_skips_reconciliation_witness :
  (events_of
    (extractAndStoreMemories (env_payload payload_core_only) "user_1" "conv_1"
       [("user", "My name is Alex")]) world_profile =
  [EvGenerateExtraction
     (extraction_prompt "user_1" [("user", "My name is Alex")] world_profile);
   EvPatchCoreMemory "b1" "Name: Alex" 9]) /\
  tbl_memories
    (after (extractAndStoreMemories (env_payload payload_core_only) "user_1"
              "conv_1" [("user", "My name is Alex")]) world_profile) =
  tbl_memories world_profile.
Proof.
  destruct (core_only_extraction_skips_reconciliation
              (env_payload payload_core_only) "user_1" "conv_1"
              [("user", "My name is Alex")] world_profile payload_core_only
              {| memories := [];
                 core_memory_updates :=
                   [{| cu_label := "user_profile"; cu_content := "Name: Alex" |}] |}
              eq_refl eq_refl eq_refl ltac:(discriminate))
    as (_ & Hmem & _).
  split; [reflexivity | exact Hmem].
Defined.

(** ** The store: invalidate, add, look up *)

Lemma db_get_none_ids id tbl :
  db_get id tbl = None <-> Forall (fun m => String.eqb (m_id m) id = false) tbl.
Proof.
  unfold db_get. induction tbl as [|m tbl IH]; simpl.
  - split; [constructor | done].
  - destruct (String.eqb (m_id m) id) eqn:He.
    + split; [done|]. intros H. inversion H; congruence.
    + rewrite IH. split; [by constructor | by inversion 1].
Qed.

Lemma patch_invalidAt_absent id t tbl :
  db_get id tbl = None -> patch_invalidAt id t tbl = tbl.
Proof.
  rewrite db_get_none_ids. unfold patch_invalidAt.
  induction 1 as [|m tbl Hm _ IH]; simpl; [done|]. by rewrite Hm, IH.
Qed.

Lemma db_get_patch_other id id' t tbl :
  id' <> id -> db_get id' (patch_invalidAt id t tbl) = db_get id' tbl.
Proof.
  intros Hne. unfold db_get, patch_invalidAt.
  induction tbl as [|m tbl IH]; simpl; [done|].
  destruct (String.eqb_spec (m_id m) id) as [Hid|Hid]; simpl.
  - destruct (String.eqb_spec (m_id m) id'); [congruence|]. exact IH.
  - destruct (String.eqb (m_id m) id'); [done|]. exact IH.
Qed.

Lemma db_get_app_r id tbl tbl' :
  db_get id tbl = None -> db_get id (tbl ++ tbl') = db_get id tbl'.
Proof.
  unfold db_get. induction tbl as [|x tbl IH]; simpl; [done|].
  destruct (String.eqb (m_id x) id); [done|]. exact IH.
Qed.

(** X9. [invalidateInternal] throws and changes nothing when no fact has
    the id.  Otherwise it stamps the fact with the current time and leaves
    every fact with another id as it was; the stamp is written whether or not
    the fact was already invalidated, so invalidating again replaces the
    earlier stamp. *)
Theorem invalidateInternal_restamps (memoryId : Id) (w : World) :
  (db_get memoryId (tbl_memories w) = None ->
     invalidateInternal memoryId w = (Throw, w)) /\
  (forall target,
     db_get memoryId (tbl_memories w) = Some target ->
     let w' := after (invalidateInternal memoryId) w in
     invalidateInternal memoryId w = (Ok tt, w') /\
     db_get memoryId (tbl_memories w') = Some (set_invalidAt (clock w) target) /\
     m_invalidAt (set_invalidAt (clock w) target) = Some (clock w) /\
     (forall id', id' <> memoryId ->
        db_get id' (tbl_memories w') = db_get id' (tbl_memories w)) /\
     length (tbl_memories w') = length (tbl_memories w)) /\
  (forall t1 t2 tbl,
     patch_invalidAt memoryId t2 (patch_invalidAt memoryId t1 tbl) =
     patch_invalidAt memoryId t2 tbl).
Proof.
  split; [|split].
  - intros Hg. unfold invalidateInternal, db_patch_invalidAt. simp_action.
    by rewrite Hg.
  - intros target Hg w'.
    assert (Hrun : invalidateInternal memoryId w =
      (Ok tt, log (EvPatchMemory memoryId (clock w))
                (with_memories (patch_invalidAt memoryId (clock w)) w))).
    { unfold invalidateInternal, db_patch_invalidAt. simp_action. by rewrite Hg. }
    assert (Hw' : w' = log (EvPatchMemory memoryId (clock w))
                         (with_memories (patch_invalidAt memoryId (clock w)) w)).
    { subst w'. unfold after. by rewrite Hrun. }
    rewrite Hw'. split; [done|]. simpl.
    split; [by apply db_get_patch_invalidAt|]. split; [done|].
    split; [intros id' Hne; by apply db_get_patch_other|].
    unfold patch_invalidAt. by rewrite List.length_map.
  - intros t1 t2 tbl. unfold patch_invalidAt. rewrite List.map_map.
    apply List.map_ext. intros m.
    destruct (String.eqb (m_id m) memoryId) eqn:He; simpl; by rewrite He.
Qed.

Lemma invalidateInternal_restamps_witness :
  db_get "G" (tbl_memories (after (invalidateInternal "G") world_two_facts)) =
  Some (set_invalidAt 7 (fact "G" "Partner is named Jordan" (Some 5%Z))).
Proof.
  refine (proj1 (proj2
    (proj1 (proj2 (invalidateInternal_restamps "G" world_two_facts))
       (fact "G" "Partner is named Jordan" (Some 5%Z)) _))).
  reflexivity.
Defined.

Lemma valid_of_app u t1 t2 : valid_of u (t1 ++ t2) = valid_of u t1 ++ valid_of u t2.
Proof. apply List.filter_app. Qed.

(** X10. When the id drawn from the supply is not yet used in the table,
    [addInternal] returns that id, [getById] on it returns the inserted fact,
    which is active and is the last of the owner's facts listed by
    [listValid]; invalidating it afterwards succeeds, takes it out of
    [listValid] again (the list is the one from before the insert) while
    [getById] still returns it, now stamped; no other fact is affected. *)
Theorem add_get_invalidate_round_trip (userId : Id) (c : string) (e : Vec)
    (t : MemoryType) (k : option (list string)) (s : option Id) (w : World) :
  let id := pretty (next_id w) in
  db_get id (tbl_memories w) = None ->
  let f := new_memory userId c e t k s (clock w) id in
  let w1 := after (addInternal userId c e t k s) w in
  let w2 := after (invalidateInternal id) w1 in
  addInternal userId c e t k s w = (Ok id, w1) /\
  getById id w1 = (Ok (Some f), w1) /\
  active f /\
  listValid userId w = (Ok (valid_of userId (tbl_memories w)), w) /\
  listValid userId w1 = (Ok (valid_of userId (tbl_memories w) ++ [f]), w1) /\
  invalidateInternal id w1 = (Ok tt, w2) /\
  listValid userId w2 = (Ok (valid_of userId (tbl_memories w)), w2) /\
  getById id w2 = (Ok (Some (set_invalidAt (clock w) f)), w2) /\
  (forall id', id' <> id ->
     db_get id' (tbl_memories w2) = db_get id' (tbl_memories w)).
Proof.
  intros id Hfresh f w1 w2.
  assert (Hadd : addInternal userId c e t k s w =
    (Ok id, log (EvInsertMemory f)
              (with_memories (fun tbl => tbl ++ [f])
                 (with_next_id (N.succ (next_id w)) w)))).
  { unfold addInternal, db_insert_memory. by simp_action. }
  assert (Hw1 : w1 = log (EvInsertMemory f)
                       (with_memories (fun tbl => tbl ++ [f])
                          (with_next_id (N.succ (next_id w)) w))).
  { subst w1. unfold after. by rewrite Hadd. }
  assert (Hget1 : db_get id (tbl_memories w1) = Some f).
  { rewrite Hw1. simpl. rewrite (db_get_app_r _ _ _ Hfresh).
    unfold db_get. simpl. by rewrite String.eqb_refl. }
  assert (Hinv : invalidateInternal id w1 =
    (Ok tt, log (EvPatchMemory id (clock w1))
              (with_memories (patch_invalidAt id (clock w1)) w1))).
  { unfold invalidateInternal, db_patch_invalidAt. simp_action. by rewrite Hget1. }
  assert (Hw2 : w2 = log (EvPatchMemory id (clock w1))
                       (with_memories (patch_invalidAt id (clock w1)) w1)).
  { subst w2. unfold after. by rewrite Hinv. }
  assert (Hc1 : clock w1 = clock w) by (by rewrite Hw1).
  assert (Htbl2 : tbl_memories w2 =
                  tbl_memories w ++ [set_invalidAt (clock w) f]).
  { rewrite Hw2. unfold log, with_memories. cbn [tbl_memories].
    rewrite Hc1, Hw1. simpl.
    unfold patch_invalidAt. rewrite List.map_app.
    fold (patch_invalidAt id (clock w) (tbl_memories w)).
    rewrite (patch_invalidAt_absent _ _ _ Hfresh). simpl.
    by rewrite String.eqb_refl. }
  split; [by rewrite Hadd, Hw1|].
  split. { unfold getById. simp_action. by rewrite Hget1. }
  split; [done|]. split; [done|].
  split. { unfold listValid. simp_action. fold (valid_of userId (tbl_memories w1)).
           rewrite Hw1 at 1. simpl. rewrite valid_of_app. simpl.
           rewrite String.eqb_refl. done. }
  split; [by rewrite Hinv, Hw2|].
  split. { unfold listValid. simp_action. fold (valid_of userId (tbl_memories w2)).
           rewrite Htbl2, valid_of_app. simpl.
           by rewrite andb_false_r, app_nil_r. }
  split. { unfold getById. simp_action. rewrite Htbl2.
           rewrite (db_get_app_r _ _ _ Hfresh). unfold db_get. simpl.
           by rewrite String.eqb_refl. }
  intros id' Hne. rewrite Htbl2.
  destruct (db_get id' (tbl_memories w)) as [m|] eqn:Hg.
  - by apply db_get_app_l.
  - rewrite (db_get_app_r _ _ _ Hg). unfold db_get. simpl.
    by destruct (String.eqb_spec id id').
Qed.

Lemma add_get_invalidate_round_trip_witness :
  listValid "user_1"
    (after (invalidateInternal "2")
       (after (addInternal "user_1" "User likes tea" [] semantic None None)
          world_two_facts)) =
  (Ok [fact "F" "Partner withdraws during arguments" None],
   after (invalidateInternal "2")
     (after (addInternal "user_1" "User likes tea" [] semantic None None)
        world_two_facts)).
Proof.
  refine (proj1 (proj2 (proj2 (proj2 (proj2 (proj2 (proj2
    (add_get_invalidate_round_trip "user_1" "User likes tea" [] semantic None
       None world_two_facts _)))))))).
  reflexivity.
Defined.

(** ** Core memory blocks *)

Lemma find_map_preserved {A} (p : A -> bool) (f : A -> A) (l : list A) :
  (forall x, p (f x) = p x) -> List.find p (List.map f l) = f <$> List.find p l.
Proof.
  intros Hp. induction l as [|x l IH]; simpl; [done|].
  rewrite Hp. by destruct (p x).
Qed.

(** X11. [updateCoreMemoryInternal] never creates a block: when the owner
    has no block with the label it changes nothing.  When the block exists
    its content is replaced wholesale and [updatedAt] is set to the current
    time, the owner's block for that label is afterwards the updated one,
    blocks with another id are untouched, and a second update of the same
    label overwrites the first. *)
Theorem updateCoreMemoryInternal_overwrites (userId : Id) (label c1 c2 : string)
    (w : World) :
  (find_block userId label w = None ->
     updateCoreMemoryInternal userId label c1 w = (Ok tt, w)) /\
  (forall b,
     find_block userId label w = Some b ->
     let w1 := after (updateCoreMemoryInternal userId label c1) w in
     let w2 := after (updateCoreMemoryInternal userId label c2) w1 in
     updateCoreMemoryInternal userId label c1 w = (Ok tt, w1) /\
     events_of (updateCoreMemoryInternal userId label c1) w =
       [EvPatchCoreMemory (cb_id b) c1 (clock w)] /\
     find_block userId label w1 = Some (set_core_content c1 (clock w) b) /\
     length (tbl_coreMemoryBlocks w1) = length (tbl_coreMemoryBlocks w) /\
     (forall b', b' ∈ tbl_coreMemoryBlocks w -> cb_id b' <> cb_id b ->
                 b' ∈ tbl_coreMemoryBlocks w1) /\
     tbl_memories w1 = tbl_memories w /\
     find_block userId label w2 = Some (set_core_content c2 (clock w) b)).
Proof.
  split.
  - intros Hf. unfold updateCoreMemoryInternal. simp_action.
    unfold find_block in Hf. by rewrite Hf.
  - intros b Hf w1 w2.
    assert (Hupd : forall c w0 b0,
      find_block userId label w0 = Some b0 ->
      updateCoreMemoryInternal userId label c w0 =
        (Ok tt,
         log (EvPatchCoreMemory (cb_id b0) c (clock w0))
           (with_coreMemoryBlocks
              (List.map (fun x => if String.eqb (cb_id x) (cb_id b0)
                                  then set_core_content c (clock w0) x else x))
              w0))).
    { intros c w0 b0 H0. unfold updateCoreMemoryInternal. simp_action.
      unfold find_block in H0. by rewrite H0. }
    assert (Hfind : forall c w0 b0,
      find_block userId label w0 = Some b0 ->
      find_block userId label
        (after (updateCoreMemoryInternal userId label c) w0) =
      Some (set_core_content c (clock w0) b0)).
    { intros c w0 b0 H0. unfold after. rewrite (Hupd c w0 b0 H0).
      unfold find_block in *. simpl. rewrite find_map_preserved.
      - rewrite H0. simpl. by rewrite String.eqb_refl.
      - intros x. by destruct (String.eqb (cb_id x) (cb_id b0)). }
    assert (Hw1 : w1 = log (EvPatchCoreMemory (cb_id b) c1 (clock w))
           (with_coreMemoryBlocks
              (List.map (fun x => if String.eqb (cb_id x) (cb_id b)
                                  then set_core_content c1 (clock w) x else x))
              w)).
    { subst w1. unfold after. by rewrite (Hupd c1 w b Hf). }
    split. { rewrite (Hupd c1 w b Hf). by rewrite Hw1. }
    split. { apply events_of_app. fold w1. by rewrite Hw1. }
    split. { subst w1. by apply Hfind. }
    split. { rewrite Hw1. simpl. by rewrite List.length_map. }
    split. { intros b' Hin Hne. rewrite Hw1. simpl.
             apply list_elem_of_In, List.in_map_iff. exists b'.
             split; [|by apply list_elem_of_In].
             by destruct (String.eqb_spec (cb_id b') (cb_id b)). }
    split. { by rewrite Hw1. }
    subst w2. rewrite (Hfind c2 w1 _ (Hfind c1 w b Hf)).
    f_equal. rewrite Hw1. reflexivity.
Qed.

Lemma updateCoreMemoryInternal_overwrites_witness :
  find_block "user_1" "user_profile"
    (after (updateCoreMemoryInternal "user_1" "user_profile" "Name: Sam")
       (after (updateCoreMemoryInternal "user_1" "user_profile" "Name: Alex")
          world_profile)) =
  Some {| cb_id := "b1"; cb_userId := "user_1"; cb_label := "user_profile";
          cb_content := "Name: Sam"; cb_updatedAt := 9 |}.
Proof.
  refine (proj2 (proj2 (proj2 (proj2 (proj2 (proj2
    (proj2 (updateCoreMemoryInternal_overwrites "user_1" "user_profile"
              "Name: Alex" "Name: Sam" world_profile)
       {| cb_id := "b1"; cb_userId := "user_1"; cb_label := "user_profile";
          cb_content := ""; cb_updatedAt := 0 |} _))))))).
  reflexivity.
Defined.

(** ** Draining the queue *)

Lemma find_queue_map id (f : QueueItem -> QueueItem) tbl :
  (forall q, q_id (f q) = q_id q) ->
  is_Some (List.find (fun q => String.eqb (q_id q) id) tbl) ->
  is_Some (List.find (fun q => String.eqb (q_id q) id) (List.map f tbl)).
Proof.
  intros Hf. rewrite find_map_preserved; [|intros q; by rewrite Hf].
  intros [x ->]. by eexists.
Qed.

Lemma find_queue_elem q tbl :
  q ∈ tbl -> is_Some (List.find (fun x => String.eqb (q_id x) (q_id q)) tbl).
Proof.
  intros Hin. destruct (List.find _ tbl) eqn:Hf; [by eexists|].
  apply list_elem_of_In in Hin.
  pose proof (List.find_none _ _ Hf q Hin) as Hn. simpl in Hn.
  by rewrite String.eqb_refl in Hn.
Qed.

Lemma db_patch_queue_ok id s p w :
  is_Some (List.find (fun q => String.eqb (q_id q) id) (tbl_memoryQueue w)) ->
  db_patch_queue id s p w =
    (Ok tt,
     log (EvPatchQueue id s p)
       (with_memoryQueue
          (List.map (fun q => if String.eqb (q_id q) id
                              then set_status s p q else q)) w)).
Proof.
  intros [x Hx]. unfold db_patch_queue. simp_action. by rewrite Hx.
Qed.

Lemma set_status_id s p q : q_id (set_status s p q) = q_id q.
Proof. done. Qed.

Lemma drained_id ids t q : q_id (drained ids t q) = q_id q.
Proof. unfold drained. by destruct (existsb (String.eqb (q_id q)) ids). Qed.

Lemma drained_snoc ids id t q :
  let x := if String.eqb (q_id (drained ids t q)) id
           then set_status processing None (drained ids t q)
           else drained ids t q in
  (if String.eqb (q_id x) id then set_status completed (Some t) x else x) =
  drained (ids ++ [id]) t q.
Proof.
  intros x.
  assert (Hx : q_id x = q_id q).
  { subst x. rewrite drained_id.
    destruct (String.eqb (q_id q) id); [|apply drained_id].
    rewrite set_status_id. apply drained_id. }
  rewrite Hx. subst x. rewrite drained_id. unfold drained. rewrite existsb_app.
  cbn [existsb]. rewrite orb_false_r. unfold Id in *.
  generalize (existsb (String.eqb (q_id q)) ids).
  generalize (String.eqb (q_id q) id).
  by intros [] [].
Qed.

(** One iteration of the loop of [processQueue], for an item of the table. *)
Lemma processQueue_item env item ids w0 w :
  tbl_memoryQueue w = List.map (drained ids (clock w0)) (tbl_memoryQueue w0) ->
  clock w = clock w0 -> tbl_messages w = tbl_messages w0 ->
  keeps_history (tbl_memories w0) (tbl_memories w) ->
  item ∈ tbl_memoryQueue w0 ->
  exists w',
    try_catch
      (markProcessing (q_id item) ;;;
       messages <- getConversationMessages (q_conversationId item) ;;
       (if (0 <? length messages)%nat
        then extractAndStoreMemories env (q_userId item) (q_conversationId item)
               (List.map (fun m => (msg_role m, msg_content m)) messages)
        else ret tt) ;;;
       markCompleted (q_id item))
      (markFailed (q_id item)) w = (Ok tt, w') /\
    tbl_memoryQueue w' =
      List.map (drained (ids ++ [q_id item]) (clock w0)) (tbl_memoryQueue w0) /\
    clock w' = clock w0 /\ tbl_messages w' = tbl_messages w0 /\
    keeps_history (tbl_memories w0) (tbl_memories w').
Proof.
  intros Hq Hc Hm Hh Hin.
  assert (Hfind : is_Some (List.find (fun q => String.eqb (q_id q) (q_id item))
                             (tbl_memoryQueue w))).
  { rewrite Hq. apply find_queue_map; [apply drained_id|].
    by apply find_queue_elem. }
  set (w1 := log (EvPatchQueue (q_id item) processing None)
               (with_memoryQueue
                  (List.map (fun q => if String.eqb (q_id q) (q_id item)
                                      then set_status processing None q else q))
                  w)).
  assert (H1 : markProcessing (q_id item) w = (Ok tt, w1)).
  { unfold markProcessing. by apply db_patch_queue_ok. }
  set (msgs := List.filter
                 (fun m => String.eqb (msg_conversationId m) (q_conversationId item))
                 (tbl_messages w1)).
  set (mid := if (0 <? length msgs)%nat
              then extractAndStoreMemories env (q_userId item)
                     (q_conversationId item)
                     (List.map (fun m => (msg_role m, msg_content m)) msgs)
              else ret tt).
  assert (H2 : exists w2, mid w1 = (Ok tt, w2) /\ pipeline_step w1 w2).
  { subst mid. destruct (0 <? length msgs)%nat.
    - eexists. split; [apply extractAndStoreMemories_never_throws_aux|].
      apply step_extractAndStoreMemories.
    - exists w1. split; [done | apply pipeline_step_refl]. }
  destruct H2 as (w2 & H2 & Hh2 & Hq2 & Hm2 & Hc2 & _ & _).
  assert (Hfind2 : is_Some (List.find (fun q => String.eqb (q_id q) (q_id item))
                              (tbl_memoryQueue w2))).
  { rewrite Hq2. subst w1. simpl. apply find_queue_map; [|done].
    intros q. by destruct (String.eqb (q_id q) (q_id item)). }
  assert (H3 : markCompleted (q_id item) w2 =
    (Ok tt,
     log (EvPatchQueue (q_id item) completed (Some (clock w2)))
       (with_memoryQueue
          (List.map (fun q => if String.eqb (q_id q) (q_id item)
                              then set_status completed (Some (clock w2)) q
                              else q)) w2))).
  { unfold markCompleted. simp_action. by apply db_patch_queue_ok. }
  eexists. split.
  { apply try_catch_ok. erewrite bind_ok by exact H1.
    erewrite (bind_ok (getConversationMessages (q_conversationId item)))
      by reflexivity.
    erewrite bind_ok by exact H2. exact H3. }
  simpl. rewrite Hc2, Hq2, Hm2. subst w1. simpl. rewrite Hc, Hm, Hq.
  split.
  { rewrite !List.map_map. apply List.map_ext. intros q. apply drained_snoc. }
  split; [done|]. split; [done|].
  eapply keeps_history_trans; [exact Hh|]. exact Hh2.
Qed.

Lemma processQueue_loop env items w0 :
  forall ids w,
    tbl_memoryQueue w = List.map (drained ids (clock w0)) (tbl_memoryQueue w0) ->
    clock w = clock w0 -> tbl_messages w = tbl_messages w0 ->
    keeps_history (tbl_memories w0) (tbl_memories w) ->
    (forall item, item ∈ items -> item ∈ tbl_memoryQueue w0) ->
    exists w',
      for_of items (fun item =>
        try_catch
          (markProcessing (q_id item) ;;;
           messages <- getConversationMessages (q_conversationId item) ;;
           (if (0 <? length messages)%nat
            then extractAndStoreMemories env (q_userId item)
                   (q_conversationId item)
                   (List.map (fun m => (msg_role m, msg_content m)) messages)
            else ret tt) ;;;
           markCompleted (q_id item))
          (markFailed (q_id item))) w = (Ok tt, w') /\
      tbl_memoryQueue w' =
        List.map (drained (ids ++ (q_id <$> items)) (clock w0)) (tbl_memoryQueue w0) /\
      clock w' = clock w0 /\ tbl_messages w' = tbl_messages w0 /\
      keeps_history (tbl_memories w0) (tbl_memories w').
Proof.
  induction items as [|item items IH]; intros ids w Hq Hc Hm Hh Hin.
  - exists w. rewrite app_nil_r. by repeat split.
  - destruct (processQueue_item env item ids w0 w Hq Hc Hm Hh)
      as (w1 & Hrun & Hq1 & Hc1 & Hm1 & Hh1).
    { apply Hin. by left. }
    destruct (IH (ids ++ [q_id item]) w1 Hq1 Hc1 Hm1 Hh1) as (w' & Hrest & Hfin).
    { intros x Hx. apply Hin. by right. }
    exists w'. cbn [for_of]. erewrite bind_ok by exact Hrun.
    split; [exact Hrest|]. rewrite fmap_cons.
    by rewrite <- app_assoc in Hfin.
Qed.

Lemma filter_sublist {A} (p : A -> bool) (l : list A) : sublist (List.filter p l) l.
Proof.
  induction l as [|x l IH]; simpl; [done|].
  destruct (p x); [by apply sublist_skip | by apply sublist_cons].
Qed.

Lemma elem_of_filter_list {A} (p : A -> bool) (l : list A) x :
  x ∈ List.filter p l <-> x ∈ l /\ p x = true.
Proof. rewrite !list_elem_of_In. apply List.filter_In. Qed.

Lemma existsb_id_elem (q : QueueItem) (l : list QueueItem) :
  q ∈ l -> existsb (String.eqb (q_id q)) (q_id <$> l) = true.
Proof.
  intros Hin. apply List.existsb_exists. exists (q_id q).
  split; [|apply String.eqb_refl].
  apply list_elem_of_In, list_elem_of_fmap. eauto.
Qed.

Lemma existsb_id_not_elem (id : Id) (ids : list Id) :
  id ∉ ids -> existsb (String.eqb id) ids = false.
Proof.
  intros Hn. destruct (existsb (String.eqb id) ids) eqn:He; [|done].
  apply List.existsb_exists in He as (x & Hx & Heq).
  apply String.eqb_eq in Heq. subst. by apply list_elem_of_In in Hx.
Qed.

Lemma drained_nil t tbl : List.map (drained [] t) tbl = tbl.
Proof. induction tbl as [|q tbl IH]; simpl; [done|]. by rewrite IH. Qed.

(** X12. One run of [processQueue] returns normally and takes the first
    ten pending items at most; in the queue it leaves, every item whose id is
    in that batch is completed with [processedAt] set to the current time and
    every other item is as before, whatever the collaborators did while the
    conversations were processed (no item ends up failed or processing).  So
    with at most ten pending items none is pending afterwards, and with
    pairwise different ids the pending items beyond the tenth are left
    untouched for the next run.  Messages are not modified and the memories
    table keeps its history. *)
Theorem processQueue_completes_batch (env : Env) (w : World) :
  let batch := pending_batch w in
  let w' := after (processQueue env) w in
  let all_pending :=
    List.filter (fun q => QueueStatus_eqb (q_status q) pending)
      (tbl_memoryQueue w) in
  processQueue env w = (Ok tt, w') /\
  (length batch <= 10)%nat /\
  tbl_memoryQueue w' =
    List.map (drained (q_id <$> batch) (clock w)) (tbl_memoryQueue w) /\
  (forall q, q ∈ batch ->
     set_status completed (Some (clock w)) q ∈ tbl_memoryQueue w') /\
  ((length all_pending <= 10)%nat ->
     Forall (fun q => q_status q <> pending) (tbl_memoryQueue w')) /\
  (NoDup (q_id <$> tbl_memoryQueue w) ->
     forall q, q ∈ drop 10 all_pending -> q ∈ tbl_memoryQueue w') /\
  tbl_messages w' = tbl_messages w /\
  keeps_history (tbl_memories w) (tbl_memories w').
Proof.
  intros batch w' all_pending.
  assert (Hbatch : batch = take 10 all_pending) by done.
  assert (Hsub : forall q, q ∈ batch -> q ∈ tbl_memoryQueue w).
  { intros q Hq. rewrite Hbatch in Hq.
    apply (subseteq_take 10 all_pending) in Hq.
    by apply elem_of_filter_list in Hq as [? _]. }
  destruct (processQueue_loop env batch w [] w) as (w1 & Hrun & Hq1 & Hc1 & Hm1 & Hh1);
    [by rewrite drained_nil | done | done | apply keeps_history_refl | exact Hsub |].
  assert (Hpq : processQueue env w = (Ok tt, w1)).
  { unfold processQueue.
    erewrite (bind_ok getPendingQueue) by reflexivity. exact Hrun. }
  assert (Hw' : w' = w1) by (subst w'; unfold after; by rewrite Hpq).
  rewrite Hw'. simpl in Hq1.
  split; [done|].
  split. { rewrite Hbatch, length_take. lia. }
  split; [done|].
  split.
  { intros q Hq. rewrite Hq1. apply list_elem_of_In, List.in_map_iff.
    exists q. split; [|by apply list_elem_of_In, Hsub].
    unfold drained. by rewrite (existsb_id_elem q batch Hq). }
  split.
  { intros Hle. rewrite Hq1. apply Forall_forall. intros x Hx.
    apply list_elem_of_In, List.in_map_iff in Hx as (q & <- & Hq).
    apply list_elem_of_In in Hq.
    unfold drained.
    destruct (existsb (String.eqb (q_id q)) (q_id <$> batch)) eqn:He; [done|].
    intros Hp.
    assert (Hqb : q ∈ batch).
    { rewrite Hbatch, take_ge by lia. apply elem_of_filter_list.
      split; [done|]. by rewrite Hp. }
    by rewrite (existsb_id_elem q batch Hqb) in He. }
  split; [|done].
  intros Hnd q Hq. rewrite Hq1.
  assert (Hqin : q ∈ tbl_memoryQueue w).
  { apply (subseteq_drop 10 all_pending) in Hq.
    by apply elem_of_filter_list in Hq as [? _]. }
  assert (Hnd' : NoDup (q_id <$> (take 10 all_pending ++ drop 10 all_pending))).
  { rewrite take_drop. eapply sublist_NoDup; [exact Hnd|].
    apply fmap_sublist, filter_sublist. }
  rewrite fmap_app in Hnd'. apply NoDup_app in Hnd' as (_ & Hdisj & _).
  assert (Hnot : q_id q ∉ q_id <$> batch).
  { intros Hin. apply (Hdisj (q_id q)); [by rewrite <- Hbatch|].
    apply list_elem_of_fmap. eauto. }
  apply list_elem_of_In, List.in_map_iff. exists q.
  split; [|by apply list_elem_of_In].
  unfold drained. by rewrite (existsb_id_not_elem _ _ Hnot).
Qed.

Lemma processQueue_completes_batch_witness :
  queue_item_n 10 ∈ tbl_memoryQueue (after (processQueue env_all_hits) world_12_pending)
  /\
  set_status completed (Some 60%Z) (queue_item_n 0)
    ∈ tbl_memoryQueue (after (processQueue env_all_hits) world_12_pending).
Proof.
  pose proof (processQueue_completes_batch env_all_hits world_12_pending)
    as (_ & _ & _ & Hdone & _ & Hleft & _).
  split.
  - apply Hleft.
    + vm_compute. repeat (constructor; [rewrite ?list_elem_of_In; simpl; intuition discriminate|]).
      constructor.
    + vm_compute. by left.
  - apply Hdone. vm_compute. by left.
Defined.

(** ** messages.getRecent *)

Lemma rev_take_rev {A} (l : list A) (n : nat) :
  List.rev (take n (List.rev l)) = drop (length l - n) l.
Proof. rewrite List.firstn_rev. by rewrite List.rev_involutive. Qed.

(** X13. [messages.getRecent] returns the conversation's messages as
    [messages.list] does, oldest first, cut down to the last [limit] of them
    (the last 20 when no limit is given): all of them when the conversation
    has no more than [limit] messages, nothing for limit 0. *)
Theorem getRecent_last_messages (conversationId : Id) (limit : option nat)
    (w : World) (all : list Message) :
  messages_list conversationId w = (Ok all, w) ->
  let n := default 20%nat limit in
  messages_getRecent conversationId limit w =
    (Ok (drop (length all - n) all), w) /\
  length (drop (length all - n) all) = Nat.min n (length all) /\
  ((length all <= n)%nat -> drop (length all - n) all = all) /\
  (forall older, all = older ++ drop (length all - n) all ->
     length older = (length all - n)%nat).
Proof.
  intros Hlist n. unfold messages_list in Hlist. simp_action.
  injection Hlist as <-.
  split; [|split; [|split]].
  - unfold messages_getRecent. simp_action. fold n. by rewrite rev_take_rev.
  - rewrite length_drop. lia.
  - intros Hle. replace (length _ - n)%nat with 0%nat by lia. done.
  - intros older Holder. apply (f_equal length) in Holder.
    rewrite length_app, length_drop in Holder. lia.
Qed.

Lemma getRecent_last_messages_witness :
  messages_getRecent "conv_1" None world_21_messages =
  (Ok (message_n <$> seq 1 20), world_21_messages).
Proof.
  refine (proj1 (getRecent_last_messages "conv_1" None world_21_messages
                   (message_n <$> seq 0 21) _)).
  reflexivity.
Defined.

(** ** The memory tools *)

Lemma search_cases env userId emb limit w :
  (exists res w',
     search env userId emb limit w = (Ok res, w') /\
     same_store w w' /\
     Forall (fun r => db_get (m_id r.1) (tbl_memories w) = Some r.1 /\
                      JS.truthy_num (m_invalidAt r.1) = false) res) \/
  (exists w', search env userId emb limit w = (Throw, w') /\ same_store w w').
Proof.
  unfold search, vectorSearch. simp_action.
  destruct (vector_index env _ emb _ userId) as [hits|].
  - left.
    match goal with |- context [search_loop hits [] ?W] =>
      destruct (search_loop_spec hits [] W) as [res [Hres Hall]] end.
    do 2 eexists. split; [exact Hres|]. split; [by repeat split|]. exact Hall.
  - right. eexists. split; [reflexivity|]. by repeat split.
Qed.

(** X14. The tool [recallMemory] never throws.  Without a user id
    (absent or empty) it answers not-found without calling the embedding
    model or the store.  Otherwise it asks for at most 5 memories; it answers
    found exactly when it returns a non-empty list, and in a store whose
    invalidation stamps are clock readings every memory it returns is the
    content, type and keywords of a stored fact that is not invalidated.  It
    writes nothing to the store. *)
Theorem recallMemory_reports_active_memories (env : Env) (query : string)
    (userId : option string) (w : World) :
  let exec := recallMemory env query userId in
  (exists r, exec w = (Ok r, after exec w) /\
     rr_query r = query /\
     (rr_found r = true <->
      exists ms, rr_memories r = Some ms /\ ms <> []) /\
     (no_zero_stamp (tbl_memories w) ->
      forall ms fm, rr_memories r = Some ms -> fm ∈ ms ->
        exists m, m ∈ tbl_memories w /\ active m /\
                  fm_content fm = m_content m /\ fm_type fm = m_type m /\
                  fm_keywords fm = m_keywords m)) /\
  same_store w (after exec w) /\
  (JS.truthy_str userId = false ->
     exists r, exec w = (Ok r, w) /\ rr_found r = false /\ rr_memories r = None) /\
  (forall uid, userId = Some uid -> uid <> EmptyString ->
     forall e, e ∈ events_of exec w ->
       e = EvEmbed query \/ e = EvVectorSearch uid 5).
Proof.
  intros exec. subst exec. unfold recallMemory, after, events_of, after, try_catch.
  destruct (JS.truthy_str userId) eqn:Hu; simpl.
  2:{ split; [|split; [apply same_store_refl|split]].
      - eexists. split; [reflexivity|]. split; [done|]. split.
        + split; [done|]. by intros (ms & [=] & _).
        + intros _ ms fm [=].
      - intros _. eexists. by split.
      - intros uid -> Hne. simpl in Hu.
        by destruct (String.eqb_spec uid EmptyString). }
  apply truthy_str_some in Hu as (uid & -> & Hne). simpl.
  unfold getEmbedding. simp_action.
  destruct (embedding_model env (log (EvEmbed query) w) query) as [v|]; simp_action.
  2:{ split; [|split; [by repeat split|split]].
      - eexists. split; [reflexivity|]. split; [done|]. split.
        + split; [done|]. by intros (ms & [=] & _).
        + intros _ ms fm [=].
      - by destruct (String.eqb_spec uid EmptyString).
      - intros ? [= <-] _ e. world. rewrite drop_app_length.
        intros He. apply list_elem_of_In in He. simpl in He. intuition. }
  destruct (search_cases env uid v (Some 5%nat) (log (EvEmbed query) w))
    as [(res & w' & Hs & Hst & Hall) | (w' & Hs & Hst)]; rewrite Hs.
  - assert (Htr : trace w' = trace w ++ [EvEmbed query; EvVectorSearch uid 5]).
    { revert Hs. unfold search, vectorSearch. simp_action.
      destruct (vector_index env _ v _ uid) as [hits|]; [|done].
      match goal with |- context [search_loop hits [] ?W] =>
        destruct (search_loop_spec hits [] W) as [res' [-> _]] end.
      intros [= _ <-]. world. by rewrite <- app_assoc. }
    assert (Hst' : same_store w w').
    { destruct Hst as (?&?&?&?&?&?). by repeat split. }
    destruct res as [|r res]; simpl.
    + split; [|split; [done|split]].
      * eexists. split; [reflexivity|]. split; [done|]. split.
        -- split; [done|]. by intros (ms & [=] & _).
        -- intros _ ms fm [=].
      * by destruct (String.eqb_spec uid EmptyString).
      * intros ? [= <-] _ e. rewrite Htr, drop_app_length.
        intros He. apply list_elem_of_In in He. simpl in He. intuition.
    + split; [|split; [done|split]].
      * eexists. split; [reflexivity|]. split; [done|]. split.
        -- split; [|done]. intros _. eexists. split; [done|]. done.
        -- intros Hz ms fm [= <-] Hfm.
           apply list_elem_of_In in Hfm.
           change (In fm (List.map format_memory (r :: res))) in Hfm.
           apply List.in_map_iff in Hfm as (x & <- & Hx).
           apply list_elem_of_In in Hx. rewrite Forall_forall in Hall.
           destruct (Hall x Hx) as [Hg Hf]. simpl in Hg.
           apply db_get_some in Hg as [_ Hin].
           exists x.1. split; [done|]. split; [|done].
           by eapply falsy_stamp_absent.
      * by destruct (String.eqb_spec uid EmptyString).
      * intros ? [= <-] _ e. rewrite Htr, drop_app_length.
        intros He. apply list_elem_of_In in He. simpl in He. intuition.
  - assert (Htr : trace w' = trace w ++ [EvEmbed query; EvVectorSearch uid 5]).
    { revert Hs. unfold search, vectorSearch. simp_action.
      destruct (vector_index env _ v _ uid) as [hits|].
      - match goal with |- context [search_loop hits [] ?W] =>
          destruct (search_loop_spec hits [] W) as [res' [-> _]] end. done.
      - intros [= <-]. world. by rewrite <- app_assoc. }
    assert (Hst' : same_store w w').
    { destruct Hst as (?&?&?&?&?&?). by repeat split. }
    simpl. split; [|split; [done|split]].
    + eexists. split; [reflexivity|]. split; [done|]. split.
      * split; [done|]. by intros (ms & [=] & _).
      * intros _ ms fm [=].
    + by destruct (String.eqb_spec uid EmptyString).
    + intros ? [= <-] _ e. rewrite Htr, drop_app_length.
      intros He. apply list_elem_of_In in He. simpl in He. intuition.
Qed.

Lemma recallMemory_reports_active_memories_witness :
  recallMemory env_all_hits "partner" (Some "user_1") world_two_facts =
  (Ok {| rr_found := true; rr_query := "partner"; rr_message := None;
         rr_error := None;
         rr_memories :=
           Some [{| fm_content := "Partner withdraws during arguments";
                    fm_type := semantic; fm_keywords := None;
                    fm_relevance := 9 # 10 |}] |},
   after (recallMemory env_all_hits "partner" (Some "user_1")) world_two_facts)
  /\
  (exists m, m ∈ tbl_memories world_two_facts /\ active m /\
             m_content m = "Partner withdraws during arguments"%string).
Proof.
  destruct (recallMemory_reports_active_memories env_all_hits "partner"
              (Some "user_1") world_two_facts) as ((r & Hr & _ & _ & Hact) & _).
  assert (Hrun : recallMemory env_all_hits "partner" (Some "user_1") world_two_facts =
    (Ok {| rr_found := true; rr_query := "partner"; rr_message := None;
           rr_error := None;
           rr_memories :=
             Some [{| fm_content := "Partner withdraws during arguments";
                      fm_type := semantic; fm_keywords := None;
                      fm_relevance := 9 # 10 |}] |},
     after (recallMemory env_all_hits "partner" (Some "user_1")) world_two_facts))
    by reflexivity.
  split; [exact Hrun|].
  rewrite Hrun in Hr. injection Hr as <-.
  destruct (Hact ltac:(repeat constructor; simpl; discriminate) _
              {| fm_content := "Partner withdraws during arguments";
                 fm_type := semantic; fm_keywords := None;
                 fm_relevance := 9 # 10 |} eq_refl ltac:(by left))
    as (m & Hin & Ha & Hc & _).
  exists m. split; [done|]. split; [done|]. by rewrite <- Hc.
Defined.

(** X15. The tool [saveMemory] never throws, whatever the action it calls
    does.  Without a user id (absent or empty) it does not call the action
    and reports that nothing was saved.  Otherwise it calls the action once
    with the given content: a saved result is reported with the new id, a
    duplicate result as not saved with the action's reason and the message
    "This information is already saved.", and a thrown error as not saved
    with the error text, keeping whatever the action had already done. *)
Theorem saveMemory_reports_outcome
    (act : Id -> string -> MemoryType -> option (list string) ->
           Action AddFromToolResult)
    (content : string) (type : MemoryType) (keywords : option (list string))
    (userId : option string) (w : World) :
  let exec := saveMemory act content type keywords userId in
  (exists r, exec w = (Ok r, after exec w)) /\
  (JS.truthy_str userId = false ->
     exists r, exec w = (Ok r, w) /\ sr_saved r = false /\
               sr_memoryId r = None /\ sr_error r = None) /\
  (forall uid, userId = Some uid -> uid <> EmptyString ->
     let call := act uid content type keywords in
     after exec w = after call w /\
     (forall id, (call w).1 = Ok (Saved id) ->
        exists r, (exec w).1 = Ok r /\ sr_saved r = true /\
                  sr_memoryId r = Some id) /\
     (forall why, (call w).1 = Ok (Duplicate why) ->
        exists r, (exec w).1 = Ok r /\ sr_saved r = false /\
                  sr_reason r = Some why /\
                  sr_message r = Some "This information is already saved."%string) /\
     ((call w).1 = Throw ->
        exists r, (exec w).1 = Ok r /\ sr_saved r = false /\
                  sr_error r = Some "Failed to save memory"%string)).
Proof.
  intros exec. subst exec. unfold saveMemory, after, try_catch.
  destruct (JS.truthy_str userId) eqn:Hu; simpl.
  - apply truthy_str_some in Hu as (uid & -> & Hne). simpl. unfold bind.
    destruct (act uid content type keywords w) as [[[id|why]|] w1] eqn:Hcall;
      simpl.
    + split; [by eexists|]. split; [done|].
      intros ? [= <-] _. rewrite Hcall. simpl. split; [done|].
      split; [intros ? [= <-]; by eexists|]. split; [done|done].
    + split; [by eexists|]. split; [done|].
      intros ? [= <-] _. rewrite Hcall. simpl. split; [done|].
      split; [done|]. split; [intros ? [= <-]; by eexists|done].
    + split; [by eexists|]. split; [done|].
      intros ? [= <-] _. rewrite Hcall. simpl. split; [done|].
      split; [done|]. split; [done|]. intros _. by eexists.
  - split; [by eexists|]. split; [intros _; by eexists|].
    intros uid -> Hne. simpl in Hu.
    by destruct (String.eqb_spec uid EmptyString).
Qed.

Lemma saveMemory_reports_outcome_witness :
  (exists r,
     (saveMemory addFromTool_throws "User likes tea" semantic None (Some "user_1")
        world0).1 = Ok r /\
     sr_saved r = false /\ sr_error r = Some "Failed to save memory"%string) /\
  (exists r,
     saveMemory addFromTool_saves "User likes tea" semantic None None world0 =
       (Ok r, world0) /\ sr_saved r = false).
Proof.
  pose proof (saveMemory_reports_outcome addFromTool_throws "User likes tea"
                semantic None (Some "user_1") world0) as (_ & _ & H).
  pose proof (saveMemory_reports_outcome addFromTool_saves "User likes tea"
                semantic None None world0) as (_ & Hg & _).
  split.
  - destruct (H "user_1" eq_refl ltac:(discriminate)) as (_ & _ & _ & Ht).
    exact (Ht eq_refl).
  - destruct (Hg eq_refl) as (r & Hr & Hs & _). by exists r.
Defined.

(** ** messages.add and the trigger of the pipeline *)

Lemma get_conversation_updated c t tbl cv :
  get_conversation c tbl = Some cv ->
  get_conversation c
    (List.map (fun x => if String.eqb (cv_id x) c then set_updatedAt t x else x) tbl) =
  Some (set_updatedAt t cv).
Proof.
  unfold get_conversation. intros H. rewrite find_map_preserved.
  - rewrite H. apply List.find_some in H as [_ Hid]. simpl in *.
    by rewrite Hid.
  - intros x. destruct (String.eqb (cv_id x) c) eqn:He; simpl; exact He.
Qed.

(** X16. [messages.add] on a conversation that does not exist throws and
    leaves every table as it was.  On an existing conversation it returns the
    new id, appends the message with the current time as the last message of
    that conversation (other conversations read the same as before), stamps
    the conversation's [updatedAt], and schedules [queueForProcessing] for
    the conversation and its owner with no delay when the role is assistant;
    a user message schedules nothing.  The queue and the memories are not
    touched by the mutation itself. *)
Theorem messages_add_appends_and_schedules (conversationId : Id) (role : Role)
    (content : string) (s : Site) :
  let w := site_world s in
  let r := messages_add conversationId role content s in
  let message :=
    {| msg_id := pretty (next_id w); msg_conversationId := conversationId;
       msg_role := role_string role; msg_content := content;
       msg_createdAt := clock w |} in
  (get_conversation conversationId (site_conversations s) = None ->
     r = (Throw, s)) /\
  (forall cv,
     get_conversation conversationId (site_conversations s) = Some cv ->
     let w' := site_world r.2 in
     r.1 = Ok (pretty (next_id w)) /\
     (forall old, messages_list conversationId w = (Ok old, w) ->
        messages_list conversationId w' = (Ok (old ++ [message]), w')) /\
     (forall c' old, c' <> conversationId ->
        messages_list c' w = (Ok old, w) -> messages_list c' w' = (Ok old, w')) /\
     get_conversation conversationId (site_conversations r.2) =
       Some (set_updatedAt (clock w) cv) /\
     site_scheduled r.2 =
       site_scheduled s ++
       match role with
       | role_assistant =>
           [(0%Z, Call_queueForProcessing (cv_userId cv) conversationId)]
       | role_user => []
       end /\
     tbl_memoryQueue w' = tbl_memoryQueue w /\
     tbl_memories w' = tbl_memories w /\
     site_users r.2 = site_users s).
Proof.
  intros w r message. subst r. unfold messages_add. fold w. split.
  - intros ->. done.
  - intros cv Hcv. rewrite Hcv.
    rewrite (get_conversation_updated _ (clock w) _ _ Hcv). simpl.
    split; [done|].
    split.
    { intros old Hold. unfold messages_list in *. simp_action.
      injection Hold as <-. simpl. rewrite List.filter_app. simpl.
      by rewrite String.eqb_refl. }
    split.
    { intros c' old Hne Hold. unfold messages_list in *. simp_action.
      injection Hold as <-. simpl. rewrite List.filter_app. simpl.
      destruct (String.eqb_spec conversationId c'); [congruence|].
      by rewrite app_nil_r. }
    split; [by apply get_conversation_updated|].
    split; [|done]. destruct role; simpl; [by rewrite app_nil_r | done].
Qed.

Lemma messages_add_appends_and_schedules_witness :
  site_scheduled (messages_add "conv_1" role_assistant "I hear you." site0).2 =
  [(0%Z, Call_queueForProcessing "user_1" "conv_1")].
Proof.
  refine (proj1 (proj2 (proj2 (proj2 (proj2
    (proj2 (messages_add_appends_and_schedules "conv_1" role_assistant
              "I hear you." site0)
       {| cv_id := "conv_1"; cv_userId := "user_1"; cv_title := None;
          cv_createdAt := 0; cv_updatedAt := 0 |} _)))))).
  reflexivity.
Defined.

Lemma messages_add_frame c role content s cv :
  get_conversation c (site_conversations s) = Some cv ->
  let s' := (messages_add c role content s).2 in
  tbl_memoryQueue (site_world s') = tbl_memoryQueue (site_world s) /\
  clock (site_world s') = clock (site_world s) /\
  next_id (site_world s') = N.succ (next_id (site_world s)) /\
  get_conversation c (site_conversations s') =
    Some (set_updatedAt (clock (site_world s)) cv) /\
  site_scheduled s' =
    site_scheduled s ++
    match role with
    | role_assistant => [(0%Z, Call_queueForProcessing (cv_userId cv) c)]
    | role_user => []
    end.
Proof.
  intros Hcv s'. subst s'. unfold messages_add. rewrite Hcv.
  rewrite (get_conversation_updated _ (clock (site_world s)) _ _ Hcv). simpl.
  repeat split; try done.
  - by apply get_conversation_updated.
  - destruct role; simpl; [by rewrite app_nil_r | done].
Qed.

(** X17. Two assistant messages added to a conversation that has no
    pending queue item schedule two calls of [queueForProcessing]; once the
    scheduler has run both, the queue holds exactly one more item: a pending
    item for that conversation and its owner. *)
Theorem assistant_turns_enqueue_once (conversationId : Id)
    (content1 content2 : string) (s : Site) (cv : Conversation) :
  get_conversation conversationId (site_conversations s) = Some cv ->
  site_scheduled s = [] ->
  List.find (is_pending_for conversationId) (tbl_memoryQueue (site_world s)) = None ->
  let s1 := (messages_add conversationId role_assistant content1 s).2 in
  let s2 := (messages_add conversationId role_assistant content2 s1).2 in
  let exec := run_scheduled (site_scheduled s2) in
  let w3 := after exec (site_world s2) in
  site_scheduled s2 =
    [(0%Z, Call_queueForProcessing (cv_userId cv) conversationId);
     (0%Z, Call_queueForProcessing (cv_userId cv) conversationId)] /\
  exec (site_world s2) = (Ok tt, w3) /\
  count_pending conversationId w3 = 1%nat /\
  exists item,
    tbl_memoryQueue w3 = tbl_memoryQueue (site_world s) ++ [item] /\
    q_userId item = cv_userId cv /\ q_conversationId item = conversationId /\
    q_status item = pending.
Proof.
  intros Hcv Hsched Hnone s1 s2 exec w3.
  destruct (messages_add_frame conversationId role_assistant content1 s cv Hcv)
    as (Hq1 & Hc1 & Hn1 & Hcv1 & Hs1).
  fold s1 in Hq1, Hc1, Hn1, Hcv1, Hs1.
  destruct (messages_add_frame conversationId role_assistant content2 s1 _ Hcv1)
    as (Hq2 & Hc2 & Hn2 & _ & Hs2).
  fold s2 in Hq2, Hc2, Hn2, Hs2.
  rewrite Hs1, Hsched in Hs2. simpl in Hs2.
  assert (Hnone2 : List.find (is_pending_for conversationId)
                     (tbl_memoryQueue (site_world s2)) = None).
  { by rewrite Hq2, Hq1. }
  pose proof (queueForProcessing_fresh (cv_userId cv) conversationId
                (site_world s2) Hnone2) as Hfirst. simpl in Hfirst.
  set (item := {| q_id := pretty (next_id (site_world s2));
                  q_userId := cv_userId cv; q_conversationId := conversationId;
                  q_status := pending; q_createdAt := clock (site_world s2);
                  q_processedAt := None |}) in *.
  match type of Hfirst with _ = (Ok tt, ?W) => set (wa := W) in * end.
  assert (Hsecond : queueForProcessing (cv_userId cv) conversationId wa = (Ok tt, wa)).
  { destruct (find_app_found (is_pending_for conversationId)
                (tbl_memoryQueue (site_world s2)) item
                (is_pending_for_refl _ _ _ _)) as [y Hy].
    by eapply queueForProcessing_pending. }
  assert (Hexec : exec (site_world s2) = (Ok tt, wa)).
  { subst exec. rewrite Hs2. unfold run_scheduled. cbn [for_of run_call snd].
    erewrite bind_ok by exact Hfirst. erewrite bind_ok by exact Hsecond. done. }
  assert (Hw3 : w3 = wa) by (subst w3; unfold after; by rewrite Hexec).
  rewrite Hw3. split; [done|]. split; [done|].
  split.
  { unfold count_pending. subst wa. simpl. rewrite filter_app_list.
    rewrite (find_none_filter _ _ Hnone2). simpl.
    pose proof (is_pending_for_refl (cv_userId cv) conversationId
                  (clock (site_world s2)) (pretty (next_id (site_world s2))))
      as Hp.
    fold item in Hp. by rewrite Hp. }
  exists item. subst wa. simpl. rewrite Hq2, Hq1. done.
Qed.

Lemma assistant_turns_enqueue_once_witness :
  count_pending "conv_1"
    (after (run_scheduled
              (site_scheduled
                 (messages_add "conv_1" role_assistant "Tell me more."
                    (messages_add "conv_1" role_assistant "I hear you." site0).2).2))
       (site_world
          (messages_add "conv_1" role_assistant "Tell me more."
             (messages_add "conv_1" role_assistant "I hear you." site0).2).2)) =
  1%nat.
Proof.
  refine (proj1 (proj2 (proj2
    (assistant_turns_enqueue_once "conv_1" "I hear you." "Tell me more." site0
       {| cv_id := "conv_1"; cv_userId := "user_1"; cv_title := None;
          cv_createdAt := 0; cv_updatedAt := 0 |} _ _ _)))); reflexivity.
Defined.

(** ** users.create *)

Lemma find_app_none {A} (p : A -> bool) (l1 l2 : list A) :
  List.find p l1 = None -> List.find p (l1 ++ l2) = List.find p l2.
Proof.
  induction l1 as [|x l1 IH]; simpl; [done|]. destruct (p x); [done|]. exact IH.
Qed.

Lemma filter_none_forall {A} (p : A -> bool) (l : list A) :
  Forall (fun x => p x = false) l -> List.filter p l = [].
Proof. apply filter_none. Qed.

Lemma includes_validLabels label :
  JS.includes validLabels label = true <->
  label = "user_profile"%string \/ label = "partner_info"%string \/
  label = "relationship_context"%string \/ label = "preferences"%string.
Proof.
  unfold JS.includes, validLabels. simpl. rewrite !orb_true_iff, !String.eqb_eq.
  intuition discriminate.
Qed.

Lemma users_create_initialises_core_memory_aux (style : AttachmentStyle) (s : Site) :
  let w := site_world s in
  let userId := (users_create style s).1 in
  let s' := (users_create style s).2 in
  let w' := site_world s' in
  let blocks := initial_blocks userId (clock w) (N.succ (next_id w)) in
  userId = pretty (next_id w) /\
  site_users s' =
    site_users s ++ [{| usr_id := userId; usr_attachmentStyle := style;
                        usr_createdAt := clock w |}] /\
  tbl_coreMemoryBlocks w' = tbl_coreMemoryBlocks w ++ blocks /\
  cb_label <$> blocks = validLabels /\
  tbl_memories w' = tbl_memories w /\ tbl_memoryQueue w' = tbl_memoryQueue w /\
  (Forall (fun b => cb_userId b <> userId) (tbl_coreMemoryBlocks w) ->
     getCoreMemoryBlocks userId w' = (Ok blocks, w') /\
     render_coreMemory blocks =
       ("[user_profile]: (empty)" +:+ nl +:+ "[partner_info]: (empty)" +:+ nl +:+
        "[relationship_context]: (empty)" +:+ nl +:+ "[preferences]: (empty)") /\
     (forall label, JS.includes validLabels label = true ->
        exists b, find_block userId label w' = Some b /\ b ∈ blocks /\
                  cb_label b = label /\ cb_content b = EmptyString) /\
     (forall label, JS.includes validLabels label = false ->
        find_block userId label w' = None)).
Proof.
  intros w userId s' w' blocks.
  assert (Hu : userId = pretty (next_id w)) by done.
  assert (Hblocks : tbl_coreMemoryBlocks w' = tbl_coreMemoryBlocks w ++ blocks).
  { subst w' s' blocks. unfold users_create, after, insert_core_blocks. simpl.
    simp_action. world. by rewrite <- !app_assoc. }
  split; [done|]. split; [done|]. split; [done|]. split; [done|].
  split. { subst w' s'. unfold users_create, after, insert_core_blocks. simpl.
           by simp_action. }
  split. { subst w' s'. unfold users_create, after, insert_core_blocks. simpl.
           by simp_action. }
  intros Hfresh.
  assert (Hold : forall p : CoreMemoryBlock -> bool,
            List.find (fun b => String.eqb (cb_userId b) userId && p b)
              (tbl_coreMemoryBlocks w) = None).
  { intros p. destruct (List.find _ (tbl_coreMemoryBlocks w)) as [b|] eqn:Hf; [|done].
    apply List.find_some in Hf as [Hin Hb]. apply andb_true_iff in Hb as [Hb _].
    apply String.eqb_eq in Hb. rewrite Forall_forall in Hfresh.
    by destruct (Hfresh b (proj2 (list_elem_of_In _ _) Hin)). }
  split.
  { unfold getCoreMemoryBlocks. simp_action. rewrite Hblocks, List.filter_app.
    rewrite filter_none_forall.
    - subst blocks. simpl. by rewrite !String.eqb_refl.
    - eapply Forall_impl; [exact Hfresh|]. intros b Hb.
      by destruct (String.eqb_spec (cb_userId b) userId). }
  split; [reflexivity|].
  split.
  { intros label Hl. unfold find_block. rewrite Hblocks.
    rewrite (find_app_none _ _ _ (Hold (fun b => String.eqb (cb_label b) label))).
    apply includes_validLabels in Hl as [-> | [-> | [-> | ->]]];
      subst blocks; simpl; rewrite !String.eqb_refl; simpl;
      eexists; (split; [reflexivity|]); (split; [|done]);
      apply list_elem_of_In; simpl; tauto. }
  intros label Hl. unfold find_block. rewrite Hblocks.
  rewrite (find_app_none _ _ _ (Hold (fun b => String.eqb (cb_label b) label))).
  unfold JS.includes, validLabels in Hl. simpl in Hl.
  rewrite !orb_false_iff in Hl. destruct Hl as (H1 & H2 & H3 & H4 & _).
  subst blocks. unfold initial_blocks. cbn [List.find cb_userId cb_label].
  rewrite !String.eqb_refl. cbn [andb].
  rewrite (String.eqb_sym "user_profile" label), H1.
  rewrite (String.eqb_sym "partner_info" label), H2.
  rewrite (String.eqb_sym "relationship_context" label), H3.
  by rewrite (String.eqb_sym "preferences" label), H4.
Qed.

(** X18. [users.create] returns the id drawn from the supply, appends the
    user and appends four core memory blocks for it, one per label in the
    order user_profile, partner_info, relationship_context, preferences, each
    with empty content; existing blocks are not touched.  When the new id is
    not already the owner of a block, these four are the user's blocks: the
    extraction prompt renders them as four "(empty)" lines, the block of
    every valid label is found, so a core memory update for it takes effect,
    and no block is found for any other label. *)
Theorem users_create_initialises_core_memory (style : AttachmentStyle) (s : Site) :
  let w := site_world s in
  let userId := (users_create style s).1 in
  let s' := (users_create style s).2 in
  let w' := site_world s' in
  let blocks := initial_blocks userId (clock w) (N.succ (next_id w)) in
  userId = pretty (next_id w) /\
  site_users s' =
    site_users s ++ [{| usr_id := userId; usr_attachmentStyle := style;
                        usr_createdAt := clock w |}] /\
  tbl_coreMemoryBlocks w' = tbl_coreMemoryBlocks w ++ blocks /\
  cb_label <$> blocks = validLabels /\
  tbl_memories w' = tbl_memories w /\ tbl_memoryQueue w' = tbl_memoryQueue w /\
  (Forall (fun b => cb_userId b <> userId) (tbl_coreMemoryBlocks w) ->
     getCoreMemoryBlocks userId w' = (Ok blocks, w') /\
     render_coreMemory blocks =
       ("[user_profile]: (empty)" +:+ nl +:+ "[partner_info]: (empty)" +:+ nl +:+
        "[relationship_context]: (empty)" +:+ nl +:+ "[preferences]: (empty)") /\
     (forall label, JS.includes validLabels label = true ->
        exists b, find_block userId label w' = Some b /\ b ∈ blocks /\
                  cb_label b = label /\ cb_content b = EmptyString) /\
     (forall label, JS.includes validLabels label = false ->
        find_block userId label w' = None)).
Proof. apply users_create_initialises_core_memory_aux. Qed.

Lemma users_create_initialises_core_memory_witness :
  getCoreMemoryBlocks "0" (site_world (users_create anxious site0).2) =
  (Ok (initial_blocks "0" 1 1), site_world (users_create anxious site0).2).
Proof.
  refine (proj1 (proj2 (proj2 (proj2 (proj2 (proj2 (proj2
    (users_create_initialises_core_memory anxious site0)))))) _)).
  constructor.
Defined.

(** ** users.getWithCoreMemory *)

Lemma foldl_label_lookup (blocks : list CoreMemoryBlock) (m0 : gmap string string)
    (l : string) :
  foldl (fun acc block => <[cb_label block := cb_content block]> acc) m0 blocks !! l =
  match last_block l blocks with
  | Some b => Some (cb_content b)
  | None => m0 !! l
  end.
Proof.
  revert m0. induction blocks as [|b blocks IH]; intros m0; simpl; [done|].
  rewrite IH. destruct (last_block l blocks); [done|].
  destruct (String.eqb_spec (cb_label b) l) as [->|Hne].
  - by rewrite lookup_insert_eq.
  - by rewrite lookup_insert_ne.
Qed.

(** X19. [users.getWithCoreMemory] returns nothing for an id that no user
    has.  For a user it returns the user with a map that has, for each label,
    the content of the last of the owner's blocks with that label, and no
    entry for a label the owner has no block for.  Right after
    [users.create], with an id that was not in use, the map of the new user
    has exactly the four labels, each with empty content. *)
Theorem getWithCoreMemory_reads_last_block (userId : Id) (s : Site) :
  (users_get userId s = None -> users_getWithCoreMemory userId s = None) /\
  (forall user,
     users_get userId s = Some user ->
     exists coreMemory,
       users_getWithCoreMemory userId s = Some (user, coreMemory) /\
       forall l, coreMemory !! l =
                 cb_content <$> last_block l (blocks_of userId (site_world s))) /\
  (forall style,
     let new := (users_create style s).1 in
     let s' := (users_create style s).2 in
     Forall (fun u => usr_id u <> new) (site_users s) ->
     Forall (fun b => cb_userId b <> new) (tbl_coreMemoryBlocks (site_world s)) ->
     exists user,
       users_getWithCoreMemory new s' =
         Some (user,
               <["user_profile" := EmptyString]>
                 (<["partner_info" := EmptyString]>
                    (<["relationship_context" := EmptyString]>
                       (<["preferences" := EmptyString]> ∅)))) /\
       usr_id user = new /\ usr_attachmentStyle user = style).
Proof.
  split; [|split].
  - intros H. unfold users_getWithCoreMemory. by rewrite H.
  - intros user H. unfold users_getWithCoreMemory. rewrite H.
    eexists. split; [reflexivity|]. intros l.
    fold (blocks_of userId (site_world s)). rewrite foldl_label_lookup.
    destruct (last_block l (blocks_of userId (site_world s))); [done|].
    apply lookup_empty.
  - intros style new s' Hu Hb.
    destruct (users_create_initialises_core_memory_aux style s)
      as (Hnew & Husers & _ & _ & _ & _ & Hget).
    fold new in Hnew, Husers, Hget. fold s' in Husers, Hget.
    assert (Hblocks : blocks_of new (site_world s') =
              initial_blocks new (clock (site_world s))
                (N.succ (next_id (site_world s)))).
    { destruct (Hget Hb) as (Hblk & _).
      unfold getCoreMemoryBlocks, bind, get_world, ret in Hblk.
      injection Hblk. intros Heq. exact Heq. }
    assert (Hfind : users_get new s' =
              Some {| usr_id := new; usr_attachmentStyle := style;
                      usr_createdAt := clock (site_world s) |}).
    { unfold users_get. rewrite Husers. rewrite find_app_none.
      - simpl. by rewrite String.eqb_refl.
      - destruct (List.find _ (site_users s)) as [u|] eqn:Hf; [|done].
        apply List.find_some in Hf as [Hin Heq]. apply String.eqb_eq in Heq.
        rewrite Forall_forall in Hu.
        by destruct (Hu u (proj2 (list_elem_of_In _ _) Hin)). }
    exists {| usr_id := new; usr_attachmentStyle := style;
              usr_createdAt := clock (site_world s) |}.
    unfold users_getWithCoreMemory. rewrite Hfind.
    change (List.filter _ (tbl_coreMemoryBlocks (site_world s')))
      with (blocks_of new (site_world s')).
    rewrite Hblocks.
    split; [|done]. by do 2 f_equal.
Qed.

Lemma getWithCoreMemory_reads_last_block_witness :
  users_getWithCoreMemory "nobody" site0 = None /\
  exists user,
    users_getWithCoreMemory "0" (users_create anxious site0).2 =
      Some (user,
            <["user_profile" := EmptyString]>
              (<["partner_info" := EmptyString]>
                 (<["relationship_context" := EmptyString]>
                    (<["preferences" := EmptyString]> ∅)))).
Proof.
  split.
  - apply (proj1 (getWithCoreMemory_reads_last_block "nobody" site0)). reflexivity.
  - destruct (proj2 (proj2 (getWithCoreMemory_reads_last_block "0" site0)) anxious)
      as (user & H & _).
    + repeat constructor. discriminate.
    + vm_compute. constructor.
    + exists user. exact H.
Defined.


(** ** knowledge.ts: searching *)

Lemma getConceptById_id kb id c : getConceptById kb id = Some c -> cn_id c = id /\ c ∈ tbl_concepts kb.
Proof.
  unfold getConceptById. intros H. apply List.find_some in H as [Hin Heq].
  apply String.eqb_eq in Heq. split; [done|]. by apply list_elem_of_In.
Qed.

Lemma chunks_loop_app kb hits acc :
  chunks_loop kb hits acc = acc ++ chunks_loop kb hits [].
Proof.
  revert acc. induction hits as [|[id sc] hits IH]; intros acc; simpl.
  - by rewrite app_nil_r.
  - destruct (getBookChunkById kb id) as [c|]; [|apply IH].
    rewrite (IH (acc ++ [(c, sc)])), (IH [(c, sc)]). by rewrite <- app_assoc.
Qed.

Lemma knowledge_concepts_loop_spec kb hits cs ls :
  knowledge_concepts_loop kb hits cs ls =
  (concepts_loop kb hits cs,
   ls ++ concat ((fun c => getLinkedConceptsInternal kb (cn_id c.1))
                   <$> concepts_loop kb hits [])).
Proof.
  revert cs ls. induction hits as [|[id sc] hits IH]; intros cs ls; simpl.
  - by rewrite app_nil_r.
  - destruct (getConceptById kb id) as [c|] eqn:Hc; [|apply IH].
    rewrite IH. f_equal.
    assert (Happ : forall acc, concepts_loop kb hits acc =
                               acc ++ concepts_loop kb hits []).
    { clear. induction hits as [|[id sc] hits IH]; intros acc; simpl.
      - by rewrite app_nil_r.
      - destruct (getConceptById kb id) as [c|]; [|apply IH].
        rewrite (IH (acc ++ [(c, sc)])), (IH [(c, sc)]). by rewrite <- app_assoc. }
    rewrite (Happ [(c, sc)]). rewrite fmap_app, concat_app. simpl.
    apply getConceptById_id in Hc as [-> _]. by rewrite app_nil_r, <- app_assoc.
Qed.

Lemma chunks_loop_stored kb hits :
  Forall (fun r => exists id, (id, r.2) ∈ hits /\ getBookChunkById kb id = Some r.1)
    (chunks_loop kb hits []) /\
  (length (chunks_loop kb hits []) <= length hits)%nat.
Proof.
  induction hits as [|[id sc] hits [IH1 IH2]]; simpl; [by split|].
  destruct (getBookChunkById kb id) as [c|] eqn:Hc.
  - rewrite chunks_loop_app. split.
    + constructor.
      * exists id. split; [by left | done].
      * eapply Forall_impl; [exact IH1|]. intros r (i & Hi & Hg).
        exists i. split; [by right | done].
    + simpl. lia.
  - split; [|lia]. eapply Forall_impl; [exact IH1|]. intros r (i & Hi & Hg).
    exists i. split; [by right | done].
Qed.

(** X20. [searchKnowledge] throws exactly when an index it is asked to
    consult throws; an index that is switched off is not consulted.  Its book
    chunks are what [searchBookChunks] returns for the same embedding and
    limit (none when book chunks are switched off), its concepts what
    [searchConcepts] returns (none when concepts are switched off), and its
    linked concepts are, for each returned concept in order, the concepts
    [getLinkedConceptsInternal] gives for it.  Every returned chunk is the
    stored document of a hit, with the hit's score; hits without a document
    are skipped. *)
Theorem searchKnowledge_combines_searches (kb : KnowledgeBase)
    (idx : KnowledgeIndex) (emb : Vec) (ib ic : option bool) (limit : option nat) :
  let lim := default 5%nat limit in
  (searchKnowledge kb idx emb ib ic limit = None <->
     (default true ib = true /\ bookChunks_index idx emb lim = None) \/
     (default true ic = true /\ concepts_index idx emb lim = None)) /\
  (forall r,
     searchKnowledge kb idx emb ib ic limit = Some r ->
     (if default true ib
      then searchBookChunks kb idx emb limit = Some (kr_bookChunks r)
      else kr_bookChunks r = []) /\
     (if default true ic
      then searchConcepts kb idx emb limit = Some (kr_concepts r)
      else kr_concepts r = []) /\
     kr_linkedConcepts r =
       concat ((fun c => getLinkedConceptsInternal kb (cn_id c.1))
                 <$> kr_concepts r) /\
     (forall hits, bookChunks_index idx emb lim = Some hits ->
        default true ib = true ->
        Forall (fun c => exists id, (id, c.2) ∈ hits /\
                                    getBookChunkById kb id = Some c.1)
          (kr_bookChunks r) /\
        (length (kr_bookChunks r) <= length hits)%nat)).
Proof.
  intros lim. unfold searchKnowledge, searchBookChunks, searchConcepts. fold lim.
  destruct (default true ib) eqn:Hib, (default true ic) eqn:Hic;
    destruct (bookChunks_index idx emb lim) as [bh|] eqn:Hb;
    destruct (concepts_index idx emb lim) as [ch|] eqn:Hc; simpl;
    rewrite ?knowledge_concepts_loop_spec; simpl;
    (split; [split; [try done; intros _; auto | intros [[? ?]|[? ?]]; congruence]|]);
    try done;
    intros r [= <-]; simpl;
    (split; [done|]); (split; [done|]); (split; [done|]);
    intros hits Hh Ht; try congruence.
  all: injection Hh as <-; apply chunks_loop_stored.
Qed.

Lemma searchKnowledge_combines_searches_witness :
  (exists r, searchKnowledge kb_triangle idx_triangle [] None None None = Some r /\
     Forall (fun c => exists id,
               (id, c.2) ∈ [("k1", 8 # 10); ("k0", 7 # 10)] /\
               getBookChunkById kb_triangle id = Some c.1) (kr_bookChunks r) /\
     length (kr_bookChunks r) = 1%nat).
Proof.
  eexists. split; [reflexivity|].
  destruct (proj2 (searchKnowledge_combines_searches kb_triangle idx_triangle []
                     None None None) _ eq_refl) as (_ & _ & _ & H).
  destruct (H [("k1", 8 # 10); ("k0", 7 # 10)] eq_refl eq_refl) as [Hall _].
  split; [exact Hall | reflexivity].
Defined.

(** ** knowledge.ts: the multi-hop traversal *)

Lemma existsb_eqb_elem (id : Id) (l : list Id) :
  existsb (String.eqb id) l = true <-> id ∈ l.
Proof.
  rewrite List.existsb_exists. split.
  - intros (x & Hx & Heq). apply String.eqb_eq in Heq. subst.
    by apply list_elem_of_In.
  - intros H. exists id. split; [by apply list_elem_of_In | apply String.eqb_refl].
Qed.

Lemma existsb_eqb_not_elem (id : Id) (l : list Id) :
  existsb (String.eqb id) l = false <-> id ∉ l.
Proof.
  rewrite <- existsb_eqb_elem. by destruct (existsb (String.eqb id) l).
Qed.

Lemma links_from_elem kb id l :
  l ∈ links_from kb id -> l ∈ tbl_conceptLinks kb /\ cl_fromConceptId l = id.
Proof.
  unfold links_from. rewrite elem_of_filter_list, String.eqb_eq. tauto.
Qed.

Lemma traverse_spec kb depth fuel :
  forall id level st,
    let st' := traverse kb depth fuel id level st in
    (forall x, x ∈ st.1 -> x ∈ st'.1) /\
    exists new, st'.2 = st.2 ++ new /\
                Forall (reached_ok kb depth id level st.1) new.
Proof.
  induction fuel as [|fuel IH]; intros id level st st'; subst st'.
  { simpl. split; [done|]. exists []. by rewrite app_nil_r. }
  cbn [traverse].
  destruct ((level >? depth)%Z || existsb (String.eqb id) st.1) eqn:Htest.
  { split; [done|]. exists []. by rewrite app_nil_r. }
  apply orb_false_iff in Htest as [Hlevel Hvis].
  rewrite Z.gtb_ltb in Hlevel. apply Z.ltb_ge in Hlevel.
  assert (Hinv : forall links s,
    (forall l, l ∈ links -> l ∈ tbl_conceptLinks kb) ->
    (forall x, x ∈ (id :: st.1) -> x ∈ s.1) ->
    (exists new, s.2 = st.2 ++ new /\
                 Forall (reached_ok kb depth id level st.1) new) ->
    let s' :=
      fold_left
        (fun st0 link =>
           match getConceptById kb (cl_toConceptId link) with
           | Some concept =>
               if negb (existsb (String.eqb (cl_toConceptId link)) st0.1)
               then traverse kb depth fuel (cl_toConceptId link) (level + 1)
                      (st0.1,
                       st0.2 ++ [{| rc_concept := concept;
                                    rc_relationship := cl_relationship link;
                                    rc_distance := level |}])
               else st0
           | None => st0
           end) links s in
    (forall x, x ∈ (id :: st.1) -> x ∈ s'.1) /\
    exists new, s'.2 = st.2 ++ new /\
                Forall (reached_ok kb depth id level st.1) new).
  { induction links as [|l links IHl]; intros s Hl Hs Hnew; [by split|].
    cbn [fold_left]. apply IHl.
    - intros x Hx. apply Hl. by right.
    - destruct (getConceptById kb (cl_toConceptId l)) as [c|]; [|done].
      destruct (negb (existsb (String.eqb (cl_toConceptId l)) s.1)); [|done].
      intros x Hx.
      apply (proj1 (IH (cl_toConceptId l) (level + 1)%Z
                      (s.1, s.2 ++ [{| rc_concept := c;
                                       rc_relationship := cl_relationship l;
                                       rc_distance := level |}]))).
      simpl. by apply Hs.
    - destruct (getConceptById kb (cl_toConceptId l)) as [c|] eqn:Hc; [|done].
      destruct (existsb (String.eqb (cl_toConceptId l)) s.1) eqn:Hseen;
        cbn [negb]; [done|].
      apply existsb_eqb_not_elem in Hseen.
      apply getConceptById_id in Hc as [Hcid Hcin].
      destruct Hnew as (new & Hs2 & Hall).
      destruct (IH (cl_toConceptId l) (level + 1)%Z
                  (s.1, s.2 ++ [{| rc_concept := c;
                                   rc_relationship := cl_relationship l;
                                   rc_distance := level |}]))
        as (_ & new' & Hres & Hall').
      cbn [fst snd] in Hres, Hall'.
      exists (new ++ {| rc_concept := c; rc_relationship := cl_relationship l;
                        rc_distance := level |} :: new').
      split. { etransitivity; [exact Hres|]. rewrite Hs2.
               by rewrite <- !app_assoc. }
      apply Forall_app. split; [done|]. constructor.
      + repeat split; simpl; try lia.
        * rewrite Hcid. intros Hin. apply Hseen. by apply Hs.
        * done.
        * exists l. split; [apply Hl; by left | by rewrite Hcid].
      + eapply Forall_impl; [exact Hall'|].
        intros r ((Hd1 & Hd2) & Hnot & Hin & Hlink).
        repeat split; try lia; try done.
        intros Hx. apply Hnot. right. by apply Hs. }
  destruct (Hinv (links_from kb id) (id :: st.1, st.2)) as [Hv Hn].
  - intros l Hl. by apply links_from_elem in Hl as [? _].
  - done.
  - exists []. by rewrite app_nil_r.
  - split; [|exact Hn]. intros x Hx. apply Hv. by right.
Qed.

Lemma fold_left_ext_in {A B} (f g : A -> B -> A) (l : list B) (a : A) :
  (forall a b, f a b = g a b) -> fold_left f l a = fold_left g l a.
Proof.
  intros H. revert a. induction l as [|b l IH]; intros a; simpl; [done|].
  by rewrite H, IH.
Qed.

Lemma traverse_fuel kb depth fuel1 :
  forall fuel2 id level st,
    (Z.to_nat (depth - level + 1) <= fuel1)%nat ->
    (Z.to_nat (depth - level + 1) <= fuel2)%nat ->
    traverse kb depth fuel1 id level st = traverse kb depth fuel2 id level st.
Proof.
  induction fuel1 as [|f1 IH]; intros fuel2 id level st H1 H2.
  - destruct fuel2 as [|f2]; [done|]. cbn [traverse].
    destruct (Z.gtb_spec level depth) as [|Hle]; [done|]. lia.
  - destruct fuel2 as [|f2].
    + cbn [traverse]. destruct (Z.gtb_spec level depth) as [|Hle]; [done|]. lia.
    + cbn [traverse].
      destruct (Z.gtb_spec level depth) as [|Hle]; [done|]. cbn [orb].
      destruct (existsb (String.eqb id) st.1); [done|].
      apply fold_left_ext_in. intros s l.
      repeat case_match; try done. apply IH; lia.
Qed.

Lemma one_hop_loop kb (id : Id) (links : list ConceptLink) :
  forall (acc1 : list ReachedConcept) (acc2 : list LinkedConcept),
    forget_distance <$> acc1 =
      List.filter (fun lc => negb (String.eqb (cn_id (lc_concept lc)) id)) acc2 ->
    Forall (fun r => rc_distance r = 1%Z) acc1 ->
    let s :=
      fold_left
        (fun st link =>
           match getConceptById kb (cl_toConceptId link) with
           | Some concept =>
               if negb (existsb (String.eqb (cl_toConceptId link)) st.1)
               then traverse kb 1 0 (cl_toConceptId link) (1 + 1)
                      (st.1,
                       st.2 ++ [{| rc_concept := concept;
                                   rc_relationship := cl_relationship link;
                                   rc_distance := 1 |}])
               else st
           | None => st
           end)
        links ([id], acc1) in
    forget_distance <$> s.2 =
      List.filter (fun lc => negb (String.eqb (cn_id (lc_concept lc)) id))
        (fold_left
           (fun linkedConcepts link =>
              match getConceptById kb (cl_toConceptId link) with
              | Some concept =>
                  linkedConcepts ++
                  [{| lc_concept := concept;
                      lc_relationship := cl_relationship link |}]
              | None => linkedConcepts
              end)
           links acc2) /\
    Forall (fun r => rc_distance r = 1%Z) s.2.
Proof.
  induction links as [|l links IH]; intros acc1 acc2 Hacc Hdist; [done|].
  cbn [fold_left fst snd traverse existsb].
  destruct (getConceptById kb (cl_toConceptId l)) as [c|] eqn:Hc; [|by apply IH].
  apply getConceptById_id in Hc as [Hid _].
  rewrite orb_false_r.
  destruct (String.eqb (cl_toConceptId l) id) eqn:Hself; cbn [negb].
  - apply IH; [|done].
    rewrite List.filter_app. cbn [List.filter lc_concept].
    rewrite Hid, Hself. cbn [negb]. by rewrite app_nil_r.
  - apply IH.
    + rewrite fmap_app, List.filter_app. cbn [List.filter lc_concept].
      rewrite Hid, Hself. cbn [negb]. by rewrite Hacc.
    + apply Forall_app. split; [done|]. by constructor.
Qed.

(** X21. [getLinkedConcepts] returns only concepts within the requested
    depth: every entry has a distance between 1 and the depth (1 when none is
    given), its concept is stored, is not the starting concept, and is the
    target of a stored link with the reported relationship.  A depth below 1
    gives no entry.  The levels of recursion never exceed the depth: running
    the traversal with any larger bound gives the same entries. *)
Theorem getLinkedConcepts_within_depth (kb : KnowledgeBase) (conceptId : Id)
    (depth : option Z) :
  let d := default 1%Z depth in
  Forall (reached_ok kb d conceptId 1 []) (getLinkedConcepts kb conceptId depth) /\
  ((d < 1)%Z -> getLinkedConcepts kb conceptId depth = []) /\
  (forall fuel, (Z.to_nat d <= fuel)%nat ->
     (traverse kb d fuel conceptId 1 ([], [])).2 =
       getLinkedConcepts kb conceptId depth).
Proof.
  intros d. unfold getLinkedConcepts. fold d. split; [|split].
  - destruct (traverse_spec kb d (Z.to_nat d) conceptId 1%Z ([], []))
      as [_ (new & Hnew & Hall)].
    cbn [fst snd] in *. unfold Id in *. rewrite Hnew. exact Hall.
  - intros Hd. replace (Z.to_nat d) with 0%nat by lia. done.
  - intros fuel Hfuel. f_equal. apply traverse_fuel; lia.
Qed.

Lemma getLinkedConcepts_within_depth_witness :
  Forall (reached_ok kb_triangle 2 "a" 1 [])
    (getLinkedConcepts kb_triangle "a" (Some 2%Z)) /\
  (rc_distance <$> getLinkedConcepts kb_triangle "a" (Some 2%Z)) = [1; 2; 1]%Z /\
  getLinkedConcepts kb_triangle "a" (Some 0%Z) = [].
Proof.
  split; [|split].
  - exact (proj1 (getLinkedConcepts_within_depth kb_triangle "a" (Some 2%Z))).
  - reflexivity.
  - apply (proj1 (proj2 (getLinkedConcepts_within_depth kb_triangle "a" (Some 0%Z)))).
    simpl. lia.
Defined.

(** X22. With depth 1 (the default) [getLinkedConcepts] makes one hop: every
    entry has distance 1, and without the distances the entries are those of
    [getLinkedConceptsInternal] for the same concept, in the same order, less
    the links that lead back to the starting concept. *)
Theorem getLinkedConcepts_one_hop (kb : KnowledgeBase) (conceptId : Id)
    (depth : option Z) :
  default 1%Z depth = 1%Z ->
  forget_distance <$> getLinkedConcepts kb conceptId depth =
    List.filter (fun lc => negb (String.eqb (cn_id (lc_concept lc)) conceptId))
      (getLinkedConceptsInternal kb conceptId) /\
  Forall (fun r => rc_distance r = 1%Z) (getLinkedConcepts kb conceptId depth).
Proof.
  intros Hd. unfold getLinkedConcepts, getLinkedConceptsInternal. rewrite Hd.
  change (Z.to_nat 1) with 1%nat. cbn [traverse fst snd existsb orb Z.gtb Z.compare Pos.compare Pos.compare_cont].
  exact (one_hop_loop kb conceptId (links_from kb conceptId) [] [] eq_refl
           (Forall_nil_2 _)).
Qed.

Lemma getLinkedConcepts_one_hop_witness :
  lc_relationship <$> (forget_distance <$> getLinkedConcepts kb_self_link "a" None) =
    [causes] /\
  lc_relationship <$> getLinkedConceptsInternal kb_self_link "a" =
    [related_to; causes] /\
  lc_relationship <$> (forget_distance <$> getLinkedConcepts kb_triangle "a" (Some 1%Z)) =
    [causes; related_to].
Proof.
  split; [|split].
  - rewrite (proj1 (getLinkedConcepts_one_hop kb_self_link "a" None eq_refl)).
    reflexivity.
  - reflexivity.
  - rewrite (proj1 (getLinkedConcepts_one_hop kb_triangle "a" (Some 1%Z) eq_refl)).
    reflexivity.
Defined.

(** ** kintsu.ts: the knowledge tool *)

Lemma searchKnowledge_no_concept_no_link kb idx v ib ic limit res :
  searchKnowledge kb idx v ib ic limit = Some res ->
  kr_concepts res = [] -> kr_linkedConcepts res = [].
Proof.
  unfold searchKnowledge.
  destruct (default true ib); simpl;
    [destruct (bookChunks_index idx v (default 5%nat limit)); simpl; [|done]|];
    (destruct (default true ic); simpl;
     [destruct (concepts_index idx v (default 5%nat limit)); simpl; [|done]|]);
    rewrite ?knowledge_concepts_loop_spec; intros [= <-]; simpl; try done;
    by intros ->.
Qed.

Lemma or_str_nonempty (o : option string) (d : string) :
  d <> EmptyString -> JS.or_str o d <> EmptyString.
Proof.
  intros Hd. unfold JS.or_str. destruct o as [s|]; [|done].
  by destruct (String.eqb_spec s EmptyString).
Qed.

(** X23. The tool [queryKnowledge] never throws and writes nothing: it only
    calls the embedding model on the query.  When the embedding model or an
    index of the knowledge base throws, it answers not-found with an error.
    Otherwise it answers found exactly when the search returned a book chunk
    or a concept; a found answer has one excerpt per chunk, in order, with
    the chunk's content and score and a section name that is never empty
    (an absent or empty one is replaced), one entry per concept, and the
    linked concepts of the search.  A not-found answer drops nothing: the
    search then has no linked concepts either. *)
Theorem queryKnowledge_reports_knowledge (env : Env) (kb : KnowledgeBase)
    (idx : KnowledgeIndex) (query : string) (w : World) :
  let exec := queryKnowledge env kb idx query in
  let w1 := log (EvEmbed query) w in
  exists r, exec w = (Ok r, w1) /\ ka_query r = query /\
    match embedding_model env w1 query ≫=
            (fun v => searchKnowledge kb idx v (Some true) (Some true)
                        (Some 5%nat)) with
    | None =>
        ka_found r = false /\
        ka_error r = Some "Failed to search knowledge base" /\
        ka_message r = None /\ ka_bookExcerpts r = None /\
        ka_concepts r = None /\ ka_linkedConcepts r = None
    | Some res =>
        ka_error r = None /\
        (ka_found r = true <->
           kr_bookChunks res <> [] \/ kr_concepts res <> []) /\
        (ka_found r = false ->
           ka_message r <> None /\ ka_bookExcerpts r = None /\
           ka_concepts r = None /\ ka_linkedConcepts r = None /\
           kr_linkedConcepts res = []) /\
        (ka_found r = true ->
           exists excerpts concepts,
             ka_bookExcerpts r = Some excerpts /\
             ka_concepts r = Some concepts /\
             ka_linkedConcepts r = Some (kr_linkedConcepts res) /\
             fc_content <$> excerpts = (bc_content ∘ fst) <$> kr_bookChunks res /\
             fc_relevance <$> excerpts = snd <$> kr_bookChunks res /\
             Forall (fun e => fc_section e <> EmptyString) excerpts /\
             fcn_name <$> concepts = (cn_name ∘ fst) <$> kr_concepts res)
    end.
Proof.
  intros exec w1. subst exec. unfold queryKnowledge, getEmbedding. simp_action.
  fold w1.
  destruct (embedding_model env w1 query) as [v|]; simp_action;
    cbn [mbind option_bind].
  2:{ eexists. split; [reflexivity|]. by repeat split. }
  destruct (searchKnowledge kb idx v (Some true) (Some true) (Some 5%nat))
    as [res|] eqn:Hs; simp_action.
  2:{ eexists. split; [reflexivity|]. by repeat split. }
  destruct (kr_bookChunks res) as [|c cs] eqn:Hc;
    [destruct (kr_concepts res) as [|k ks] eqn:Hk|]; cbn [length Nat.eqb andb];
    (eexists; split; [reflexivity|]; split; [done|]; cbn [ka_found ka_error];
     split; [done|]; split; [|split]).
  - split; [done|]. by intros [|].
  - intros _. repeat split; try done.
    by apply (searchKnowledge_no_concept_no_link _ _ _ _ _ _ _ Hs).
  - done.
  - split; [|done]. intros _. by right.
  - done.
  - intros _. do 2 eexists. split; [reflexivity|]. split; [reflexivity|].
    split; [reflexivity|]. cbn [List.map fmap list_fmap].
    repeat split; try done.
    change (List.map format_concept (k :: ks))
      with (format_concept <$> (k :: ks)).
    by rewrite <- list_fmap_compose.
  - split; [|done]. intros _. by left.
  - done.
  - intros _. do 2 eexists. split; [reflexivity|]. split; [reflexivity|].
    split; [reflexivity|].
    change (List.map format_chunk (c :: cs)) with (format_chunk <$> (c :: cs)).
    change (List.map format_concept (kr_concepts res))
      with (format_concept <$> kr_concepts res).
    rewrite <- !list_fmap_compose. repeat split.
    apply Forall_fmap, Forall_forall. intros x _. by apply or_str_nonempty.
Qed.

Lemma queryKnowledge_reports_knowledge_witness :
  exists r,
    queryKnowledge env_all_hits kb_untitled idx_untitled "protest behaviors" world0 =
      (Ok r, log (EvEmbed "protest behaviors") world0) /\
    ka_found r = true /\
    (fc_section <$> default [] (ka_bookExcerpts r)) = ["Unknown section"].
Proof.
  destruct (queryKnowledge_reports_knowledge env_all_hits kb_untitled idx_untitled
              "protest behaviors" world0) as (r & Hr & _).
  exists r. split; [exact Hr|].
  vm_compute in Hr. injection Hr as <-. split; reflexivity.
Defined.

(** ** users.updateCoreMemory *)

Lemma last_block_fmap (f : CoreMemoryBlock -> CoreMemoryBlock) (l : string)
    (bs : list CoreMemoryBlock) :
  (forall b, cb_label (f b) = cb_label b) ->
  last_block l (List.map f bs) = f <$> last_block l bs.
Proof.
  intros Hf. induction bs as [|b bs IH]; simpl; [done|].
  rewrite IH, Hf. destruct (last_block l bs); simpl; [done|].
  by destruct (String.eqb (cb_label b) l).
Qed.

Lemma last_block_elem (l : string) (bs : list CoreMemoryBlock) b :
  last_block l bs = Some b -> b ∈ bs /\ cb_label b = l.
Proof.
  induction bs as [|x bs IH]; simpl; [done|].
  destruct (last_block l bs) as [b'|].
  - intros [= <-]. destruct (IH eq_refl) as [Hin Hl]. split; [by right|done].
  - destruct (String.eqb_spec (cb_label x) l) as [Hl|]; [|done].
    intros [= <-]. split; [by left|done].
Qed.

Lemma last_block_none (l : string) (bs : list CoreMemoryBlock) :
  (forall b, b ∈ bs -> cb_label b <> l) -> last_block l bs = None.
Proof.
  induction bs as [|x bs IH]; simpl; [done|]. intros H.
  rewrite IH by (intros b Hb; apply H; by right).
  destruct (String.eqb_spec (cb_label x) l) as [Hl|]; [|done].
  exfalso. apply (H x); [by left|done].
Qed.

Lemma filter_map_owner (f : CoreMemoryBlock -> CoreMemoryBlock) (userId : Id)
    (bs : list CoreMemoryBlock) :
  (forall b, cb_userId (f b) = cb_userId b) ->
  List.filter (fun b => String.eqb (cb_userId b) userId) (List.map f bs) =
  List.map f (List.filter (fun b => String.eqb (cb_userId b) userId) bs).
Proof.
  intros Hf. induction bs as [|b bs IH]; simpl; [done|].
  rewrite Hf, IH. by destruct (String.eqb (cb_userId b) userId).
Qed.

Lemma block_id_inj (bs : list CoreMemoryBlock) b b' :
  NoDup (cb_id <$> bs) -> b ∈ bs -> b' ∈ bs -> cb_id b = cb_id b' -> b = b'.
Proof.
  induction bs as [|x bs IH]; intros Hnd Hb Hb' Hid; [by inversion Hb|].
  rewrite fmap_cons in Hnd. apply NoDup_cons in Hnd as [Hx Hnd].
  apply elem_of_cons in Hb as [->|Hb]; apply elem_of_cons in Hb' as [->|Hb'].
  - done.
  - exfalso. apply Hx. rewrite Hid. by apply list_elem_of_fmap_2.
  - exfalso. apply Hx. rewrite <- Hid. by apply list_elem_of_fmap_2.
  - by apply IH.
Qed.

Lemma find_block_elem (userId : Id) (label : string) (w : World) b :
  find_block userId label w = Some b ->
  b ∈ blocks_of userId w /\ cb_label b = label.
Proof.
  unfold find_block, blocks_of. intros H.
  apply List.find_some in H as [Hin Hp].
  apply andb_true_iff in Hp as [Hu Hl]. apply String.eqb_eq in Hl.
  split; [|done]. apply list_elem_of_In, List.filter_In. by split.
Qed.

Lemma find_block_none (userId : Id) (label : string) (w : World) :
  find_block userId label w = None ->
  last_block label (blocks_of userId w) = None.
Proof.
  unfold find_block, blocks_of. intros H. apply last_block_none.
  intros b Hb Hl. apply list_elem_of_In, List.filter_In in Hb as [Hin Hu].
  pose proof (List.find_none _ _ H b Hin) as Hp. simpl in Hp.
  rewrite Hu in Hp. simpl in Hp. apply String.eqb_neq in Hp. done.
Qed.

(** X24. [users.updateCoreMemory] writes the first of the owner's blocks
    with the label, while [users.getWithCoreMemory] reads the last one.  When
    the owner has no block with the label the mutation changes nothing and
    the map has no entry for the label.  When the owner's blocks have
    pairwise different ids and the first block with the label is also the
    last one, the map read back afterwards is the earlier map with the label
    set to the new content; when a later block with the same label exists,
    the map read back is the same as before the update. *)
Theorem users_updateCoreMemory_read_back (userId : Id) (label content : string)
    (s : Site) (user : User) :
  users_get userId s = Some user ->
  let w := site_world s in
  let blocks := blocks_of userId w in
  let s' := site_run (users_updateCoreMemory userId label content) s in
  exists before after_update,
    users_getWithCoreMemory userId s = Some (user, before) /\
    users_getWithCoreMemory userId s' = Some (user, after_update) /\
    (find_block userId label w = None ->
       before !! label = None /\ site_world s' = w) /\
    (NoDup (cb_id <$> blocks) ->
     forall first last,
       find_block userId label w = Some first ->
       last_block label blocks = Some last ->
       (last = first -> after_update = <[label := content]> before) /\
       (last <> first -> after_update = before)).
Proof.
  intros Hu w blocks s'.
  unfold users_getWithCoreMemory.
  assert (Hu' : users_get userId s' = Some user) by exact Hu.
  rewrite Hu, Hu'. do 2 eexists. split; [reflexivity|]. split; [reflexivity|].
  fold w. fold (blocks_of userId w). fold blocks.
  fold (blocks_of userId (site_world s')).
  split.
  - intros Hf. split.
    + rewrite foldl_label_lookup. subst blocks. by rewrite (find_block_none _ _ _ Hf).
    + subst s'. unfold site_run, after, users_updateCoreMemory. cbn [site_world].
      fold w. simp_action. unfold find_block in Hf. by rewrite Hf.
  - intros Hnd first last Hf Hl.
    assert (Hblocks : blocks_of userId (site_world s') =
      List.map (fun x => if String.eqb (cb_id x) (cb_id first)
                         then set_core_content content (clock w) x else x)
        blocks).
    { subst s' blocks. unfold site_run, after, users_updateCoreMemory.
      cbn [site_world]. fold w. simp_action. unfold find_block in Hf.
      rewrite Hf. simp_action. world. unfold blocks_of. cbn [tbl_coreMemoryBlocks].
      apply filter_map_owner. intros b. by destruct (String.eqb _ _). }
    rewrite Hblocks.
    assert (Hlook : forall l,
      foldl (fun acc block => <[cb_label block := cb_content block]> acc)
        (∅ : gmap string string)
        (List.map (fun x => if String.eqb (cb_id x) (cb_id first)
                            then set_core_content content (clock w) x else x)
           blocks) !! l =
      match last_block l blocks with
      | Some b => if String.eqb (cb_id b) (cb_id first)
                  then Some content else Some (cb_content b)
      | None => None
      end).
    { intros l. rewrite foldl_label_lookup, last_block_fmap.
      - destruct (last_block l blocks) as [b|]; simpl; [|apply lookup_empty].
        by destruct (String.eqb (cb_id b) (cb_id first)).
      - intros b. by destruct (String.eqb _ _). }
    destruct (find_block_elem _ _ _ _ Hf) as [Hfin Hfl]. fold w blocks in Hfin.
    assert (Hother : forall l b, last_block l blocks = Some b -> b <> first ->
              String.eqb (cb_id b) (cb_id first) = false).
    { intros l b Hb Hne. apply String.eqb_neq. intros Hid. apply Hne.
      apply (block_id_inj blocks); try done. by apply (last_block_elem l). }
    split.
    + intros ->. apply map_eq. intros l. rewrite Hlook.
      destruct (String.eqb_spec l label) as [->|Hne].
      * rewrite lookup_insert_eq, Hl. by rewrite String.eqb_refl.
      * rewrite lookup_insert_ne by done. rewrite foldl_label_lookup.
        destruct (last_block l blocks) as [b|] eqn:Hb; [|by rewrite lookup_empty].
        rewrite (Hother l b Hb); [done|].
        intros ->. apply last_block_elem in Hb as [_ Hb]. congruence.
    + intros Hne. apply map_eq. intros l. rewrite Hlook, foldl_label_lookup.
      destruct (last_block l blocks) as [b|] eqn:Hb; [|by rewrite lookup_empty].
      rewrite (Hother l b Hb); [done|].
      intros ->. destruct (String.eqb_spec l label) as [->|Hll]; [congruence|].
      apply last_block_elem in Hb as [_ Hb]. congruence.
Qed.

Lemma users_updateCoreMemory_read_back_witness :
  (exists user,
     users_getWithCoreMemory "0"
       (site_run (users_updateCoreMemory "0" "preferences" "short answers")
          (users_create anxious site0).2) =
     Some (user,
           <["preferences" := "short answers"]>
             (<["user_profile" := EmptyString]>
                (<["partner_info" := EmptyString]>
                   (<["relationship_context" := EmptyString]>
                      (<["preferences" := EmptyString]> ∅)))))) /\
  users_getWithCoreMemory "user_1"
    (site_run (users_updateCoreMemory "user_1" "preferences" "no emojis")
       site_two_preferences) =
  users_getWithCoreMemory "user_1" site_two_preferences.
Proof.
  split.
  - destruct (users_updateCoreMemory_read_back "0" "preferences" "short answers"
                (users_create anxious site0).2
                {| usr_id := "0"; usr_attachmentStyle := anxious;
                   usr_createdAt := 1 |} eq_refl)
      as (before & after_update & Hb & Ha & _ & H).
    eexists. rewrite Ha. do 2 f_equal.
    injection Hb as <-.
    refine (proj1 (H _ _ _ eq_refl eq_refl) eq_refl).
    apply (bool_decide_unpack _). vm_compute. exact I.
  - destruct (users_updateCoreMemory_read_back "user_1" "preferences" "no emojis"
                site_two_preferences
                {| usr_id := "user_1"; usr_attachmentStyle := anxious;
                   usr_createdAt := 0 |} eq_refl)
      as (before & after_update & Hb & Ha & _ & H).
    rewrite Ha, Hb. do 2 f_equal.
    refine (proj2 (H _ _ _ eq_refl eq_refl) _); [|discriminate].
    apply (bool_decide_unpack _). vm_compute. exact I.
Defined.
